(** * pugo: the configuration-database records, the record store, the ledger
    client and the sync orchestrator, embedded from the Go sources.

    - [cdb/site.go]      : [Site], [AddAdmin], [RemoveAdmin], [Save], [LoadSite]
    - [cdb] store        : [sitesCacheStruct], [ensureSitesCacheLoaded],
                           [CommitSites], [GetWorktree]
    - [newerpol]         : [AccessRecord], [FinishGrant]
    - [cmd/pugo/cmd/sync.go] : [doSync]

    Go values are modelled as follows: [int] as [Z], slice lengths and indices
    as [nat], [string] as [string] (compared bytewise, as Go does), a slice as
    a [list], a [map] as a [gmap], a pointer to a [Site] as a location in a
    store of sites.  External collaborators (file system, YAML codec, git
    library, SQL driver, mail worker) are taken at their interface. *)

From Stdlib Require Import ZArith String Ascii List Lia DecimalString.
From stdpp Require Import base option list strings sorting gmap.

(* ------------------------------------------------------------------------- *)
(** * Package [sort] (Go standard library), as used by [cdb/site.go] *)
(* ------------------------------------------------------------------------- *)

Module gosort.

(** [sort.Strings(a)] sorts [a] in increasing order.  Go compares strings
    bytewise, which is [String.le]; that order is total and antisymmetric,
    therefore the sorted rearrangement of a slice is unique and the sorting
    algorithm does not matter (see [Strings_unique] below). *)
Definition Strings (a : list string) : list string := merge_sort String.le a.

(** [sort.Search(n, f)]:
<<
    i, j := 0, n
    for i < j {
        h := int(uint(i+j) >> 1)
        if !f(h) { i = h + 1 } else { j = h }
    }
    return i
>>
    The loop is run on a fuel argument; [Search] provides [n] units, which
    is enough because [j - i] strictly decreases ([search_loop_fuel]). *)
Fixpoint search_loop (fuel : nat) (f : nat → bool) (i j : nat) : nat :=
  match fuel with
  | O => i
  | S fuel' =>
      if i <? j then
        let h := (i + j) / 2 in
        if negb (f h) then search_loop fuel' f (h + 1) j
        else search_loop fuel' f i h
      else i
  end.

Definition Search (n : nat) (f : nat → bool) : nat := search_loop n f 0 n.

(** [sort.SearchStrings(a, x)] is
    [Search(len(a), func(i int) bool { return a[i] >= x })]. *)
Definition SearchStrings (a : list string) (x : string) : nat :=
  Search (length a) (λ i, String.leb x (a !!! i)).

End gosort.

(* ------------------------------------------------------------------------- *)
(** * Go slices: the builtin [copy] on two windows of one backing array *)
(* ------------------------------------------------------------------------- *)

(** [copy(a[dst:], a[src:])]: copies [min(len(a)-dst, len(a)-src)] elements,
    with the semantics of a move when the windows overlap. *)
Definition slice_copy (dst src : nat) (a : list string) : list string :=
  let n := Nat.min (length a - dst) (length a - src) in
  take dst a ++ take n (drop src a) ++ drop (dst + n) a.

(* ------------------------------------------------------------------------- *)
(** * [cdb/site.go] *)
(* ------------------------------------------------------------------------- *)

Local Set Warnings "-register-all".

(** A value of Go type [interface{}] as the YAML decoder produces it. *)
Inductive yamlValue : Type :=
  | YScalar (s : string)
  | YSeq (items : list yamlValue)
  | YMap (entries : list (string * yamlValue)).

(** [type Site struct].  The mutex [mu] protects [Admins] and [changed] for
    the length of a method call; one call is modelled as one atomic step, so
    the lock itself carries no state. *)
Record Site : Type := mkSite {
  Id : Z;
  FullName : string;
  Email : string;
  DisplayEmail : string;
  Admins : list string;
  ImmortalAdmins : list string;
  Expiry : string;
  Paths : list string;
  Domains : list yamlValue;
  Disabled : bool;
  DisabledReason : string;
  Php : bool;
  PhpVersion : Z;
  Passenger : bool;
  Subpaths : bool;
  name : string;
  changed : bool
}.

Definition set_Admins (a : list string) (s : Site) : Site :=
  mkSite (Id s) (FullName s) (Email s) (DisplayEmail s) a (ImmortalAdmins s)
         (Expiry s) (Paths s) (Domains s) (Disabled s) (DisabledReason s)
         (Php s) (PhpVersion s) (Passenger s) (Subpaths s) (name s) (changed s).

Definition set_changed (b : bool) (s : Site) : Site :=
  mkSite (Id s) (FullName s) (Email s) (DisplayEmail s) (Admins s)
         (ImmortalAdmins s) (Expiry s) (Paths s) (Domains s) (Disabled s)
         (DisabledReason s) (Php s) (PhpVersion s) (Passenger s) (Subpaths s)
         (name s) b.

Definition set_name (n : string) (s : Site) : Site :=
  mkSite (Id s) (FullName s) (Email s) (DisplayEmail s) (Admins s)
         (ImmortalAdmins s) (Expiry s) (Paths s) (Domains s) (Disabled s)
         (DisabledReason s) (Php s) (PhpVersion s) (Passenger s) (Subpaths s)
         n (changed s).

(** [NewSite]: the zero value of the struct with [Php] switched on. *)
Definition NewSite : Site :=
  mkSite 0 "" "" "" [] [] "" [] [] false "" true 0 false false "" false.

Definition Changed (s : Site) : bool := changed s.

Definition MarkAsChanged (s : Site) : Site := set_changed true s.

Definition Name (s : Site) : string := name s.

(** [AddAdmin]: the empty user name returns before anything is touched;
    otherwise the slice is sorted in place, searched, and the name is inserted
    at the position found unless it is already there. *)
Definition AddAdmin (username : string) (s : Site) : Site :=
  if String.eqb username "" then s
  else
    let a := gosort.Strings (Admins s) in
    let pos := gosort.SearchStrings a username in
    if (pos <? length a) && String.eqb (a !!! pos) username then
      set_Admins a s
    else
      let a' :=
        if pos =? length a then a ++ [username]
        else <[pos := username]> (slice_copy (pos + 1) pos (a ++ [""])) in
      set_changed true (set_Admins a' s).

(** [RemoveAdmin]: same preamble; the entry found is overwritten by moving
    the tail one place down, the last cell is cleared and the slice is
    shortened by one. *)
Definition RemoveAdmin (username : string) (s : Site) : Site :=
  if String.eqb username "" then s
  else
    let a := gosort.Strings (Admins s) in
    let pos := gosort.SearchStrings a username in
    if (pos <? length a) && String.eqb (a !!! pos) username then
      let a1 := if pos <? length a - 1 then slice_copy pos (pos + 1) a else a in
      let a2 := <[length a1 - 1 := ""]> a1 in
      let a3 := take (length a2 - 1) a2 in
      set_changed true (set_Admins a3 s)
    else
      set_Admins a s.

(** The state a record's access list is kept in. *)
Definition sorted_set (l : list string) : Prop :=
  Sorted String.le l ∧ NoDup l ∧ "" ∉ l.

Global Instance sorted_set_dec (l : list string) : Decision (sorted_set l).
Proof. unfold sorted_set. apply _. Defined.

(** A call on the access list, and a run of calls. *)
Inductive AdminOp : Type :=
  | OpAdd (username : string)
  | OpRemove (username : string).

Definition apply_op (o : AdminOp) (s : Site) : Site :=
  match o with
  | OpAdd u => AddAdmin u s
  | OpRemove u => RemoveAdmin u s
  end.

Definition apply_ops (ops : list AdminOp) (s : Site) : Site :=
  fold_left (λ acc o, apply_op o acc) ops s.

(** Records used in the examples. *)
Definition site_ac : Site := set_Admins ["alice"; "carol"] NewSite.

Definition site_unsorted : Site := set_Admins ["b"; "a"] NewSite.

(* ------------------------------------------------------------------------- *)
(** * Library helpers: [viper], [path], [fmt] *)
(* ------------------------------------------------------------------------- *)

(** An [error] value is represented by its message. *)
Abbreviation Err := string (only parsing).

(** Defaults registered by the [init] functions of [cdb] and by the [branch]
    flag of the sync command. *)
Definition viper_defaults : gmap string string :=
  <["cdb.branch" := "master"]>
    (<["cdb.author.name" := "pugo"]>
       (<["cdb.author.email" := "pugo@example.com"]> ∅)).

(** [viper.GetString(key)]: the configured value, else the default, else the
    empty string. *)
Definition GetString (cfg : gmap string string) (key : string) : string :=
  match cfg !! key with
  | Some v => v
  | None => default "" (viper_defaults !! key)
  end.

(** The part of [s] after the last occurrence of [c], if [c] occurs. *)
Fixpoint after_last (c : ascii) (s : string) : option string :=
  match s with
  | EmptyString => None
  | String a s' =>
      match after_last c s' with
      | Some r => Some r
      | None => if Ascii.eqb a c then Some s' else None
      end
  end.

(** Second component of [path.Split], and [filepath.Base] on a reference
    name: the final element of a slash-separated path. *)
Definition path_file (p : string) : string :=
  default p (after_last "/" p).

(** [path.Ext] on a final path element: the suffix from the last dot on. *)
Definition path_Ext (fn : string) : string :=
  match after_last "." fn with
  | Some e => String "." e
  | None => ""
  end.

(** [strings.TrimSuffix]. *)
Definition TrimSuffix (s suffix : string) : string :=
  let n := String.length s - String.length suffix in
  if (String.length suffix <=? String.length s)
     && String.eqb (substring n (String.length suffix) s) suffix
  then substring 0 n s else s.

(** [path.Join]: the non-empty elements separated by slashes (the final
    [path.Clean] is the identity on the names arising here). *)
Definition path_Join (elems : list string) : string :=
  String.concat "/" (filter (λ e, e ≠ "") elems).

(** The verb [%d] of [fmt]. *)
Definition fmt_d (n : Z) : string := NilZero.string_of_int (Z.to_int n).

(* ------------------------------------------------------------------------- *)
(** * [newerpol]: access records *)
(* ------------------------------------------------------------------------- *)

Module newerpol.

Record AccessRecord : Type := mkAccessRecord {
  AccessId : Z;
  WebsiteId : Z;
  RequestStatus : Z;
  FirstName : string;
  LookupName : string;
  Login : string;
  Email : string;
  CSP : string
}.

(** The statuses of [dbo.WebserverAccessStatii]. *)
Definition AccessGrantPending : Z := 1.
Definition AccessGranted : Z := 2.
Definition AccessRevokePending : Z := 3.
Definition AccessRevoked : Z := 4.

Definition IsPending (a : AccessRecord) : bool :=
  (RequestStatus a =? AccessGrantPending)%Z
  || (RequestStatus a =? AccessRevokePending)%Z.

(** The two finalizing statements, by the status they write.
    [grantPendingToGrantedQuery] is
    [UPDATE dbo.WebserverAccess SET RequestStatus = 2, GrantedWhen = GETDATE()
     WHERE ID = ? AND RequestStatus = ?], and [revokePendingToRevokedQuery]
    the same with [RequestStatus = 4, RevokedWhen = GETDATE()]. *)
Inductive Stmt : Type :=
  | grantPendingToGrantedQuery
  | revokePendingToRevokedQuery.

Definition stmt_sets (q : Stmt) : Z :=
  match q with
  | grantPendingToGrantedQuery => AccessGranted
  | revokePendingToRevokedQuery => AccessRevoked
  end.

(** [stmt.Exec(id, status)] followed by [result.RowsAffected()], on the
    table [dbo.WebserverAccess] reduced to the two columns the statements
    read and write (primary key [ID] to [RequestStatus]): the row with that
    [ID] is rewritten if its status is [status]. *)
Definition exec_update (q : Stmt) (id status : Z) (t : gmap Z Z) : Z * gmap Z Z :=
  match t !! id with
  | Some cur =>
      if (cur =? status)%Z then (1%Z, <[id := stmt_sets q]> t) else (0%Z, t)
  | None => (0%Z, t)
  end.

End newerpol.

(* ------------------------------------------------------------------------- *)
(** * [email]: message options *)
(* ------------------------------------------------------------------------- *)

Module email.

Record EmailOptions : Type := mkEmailOptions {
  CSP : string;
  Email : string;
  EmailName : string;
  FirstName : string;
  Folder : string;
  Subject : string;
  Type_ : string
}.

Definition allowedTypes (t : string) : bool :=
  String.eqb t "granted" || String.eqb t "revoked" || String.eqb t "test".

Definition set_Subject_Type (subj ty : string) (o : EmailOptions) : EmailOptions :=
  mkEmailOptions (CSP o) (Email o) (EmailName o) (FirstName o) (Folder o) subj ty.

Definition set_Email (e : string) (o : EmailOptions) : EmailOptions :=
  mkEmailOptions (CSP o) e (EmailName o) (FirstName o) (Folder o) (Subject o) (Type_ o).

End email.

(* ------------------------------------------------------------------------- *)
(** * Observable steps of a run *)
(* ------------------------------------------------------------------------- *)

Inductive Event : Type :=
  | EvReadDir (dir : string)                 (* ioutil.ReadDir *)
  | EvReadFile (path : string)               (* ioutil.ReadFile *)
  | EvSave (site : string)                   (* entry into Site.Save *)
  | EvWriteFile (path data : string)         (* ioutil.WriteFile *)
  | EvStatus                                 (* wt.Status *)
  | EvCheckout (branch : string)             (* wt.Checkout *)
  | EvPull                                   (* wt.Pull *)
  | EvStage (fn : string)                    (* wt.Add *)
  | EvCommit (msg author mail : string)      (* wt.Commit *)
  | EvPush                                   (* repo.Push *)
  | EvCommitSites (result : option string)   (* return of cdb.CommitSites *)
  | EvExec (q : newerpol.Stmt) (id status : Z)          (* stmt.Exec *)
  | EvFinishGrant (a : newerpol.AccessRecord) (updated : bool)
                  (err : option string)      (* return of FinishGrant *)
  | EvStartWorker                            (* email.StartWorker *)
  | EvEnqueue (o : email.EmailOptions) (body : string)  (* worker.msgChan <- msg *)
  | EvShutdownWorker.                        (* email.ShutdownWorker *)

Definition is_stage (e : Event) : bool :=
  match e with EvStage _ => true | _ => false end.
Definition is_commit (e : Event) : bool :=
  match e with EvCommit _ _ _ => true | _ => false end.
Definition is_push (e : Event) : bool :=
  match e with EvPush => true | _ => false end.
Definition is_save (e : Event) : bool :=
  match e with EvSave _ | EvWriteFile _ _ => true | _ => false end.
Definition is_read (e : Event) : bool :=
  match e with EvReadDir _ | EvReadFile _ => true | _ => false end.
Definition is_finish (e : Event) : bool :=
  match e with EvFinishGrant _ _ _ | EvExec _ _ _ => true | _ => false end.
Definition is_wt (e : Event) : bool :=
  match e with EvStatus | EvCheckout _ | EvPull => true | _ => false end.
Definition is_commit_sites (e : Event) : bool :=
  match e with EvCommitSites _ => true | _ => false end.
Definition is_enqueue (e : Event) : bool :=
  match e with EvEnqueue _ _ => true | _ => false end.

(** Outcome of [wt.Pull]. *)
Inductive PullResult : Type :=
  | PullOk
  | PullAlreadyUpToDate                      (* git.NoErrAlreadyUpToDate *)
  | PullErr (e : string).

(* ------------------------------------------------------------------------- *)
(** * External collaborators, at their interface *)
(* ------------------------------------------------------------------------- *)

(** The file system, the YAML codec, the git library, the SQL driver and the
    mail backend, over a state [W] of the outside world. *)
Class External (W : Type) : Type := {
  (* io/ioutil: the names in a directory, the content of a file *)
  ioutil_ReadDir : string → W → Err + list string;
  ioutil_ReadFile : string → W → Err + string;
  ioutil_WriteFile : string → string → W → option Err * W;
  (* gopkg.in/yaml.v3 *)
  yaml_Marshal : Site → Err + string;
  yaml_decode : string → Site → Err + Site;
  (* go-git; [git_Status] is [Status().IsClean()], [git_Head] the name of
     the reference HEAD points to *)
  git_PlainOpen : string → W → option Err;
  git_Worktree : W → option Err;
  git_Status : W → Err + bool;
  git_Head : W → Err + string;
  git_Checkout : string → W → option Err * W;
  git_Pull : string → W → PullResult * W;
  git_Add : string → W → option Err * W;
  git_Commit : string → string → string → W → option Err * W;
  git_Push : W → option Err * W;
  (* database/sql and sqlx: the rows of the grants lookup for one status;
     failures of the driver when preparing or executing a statement *)
  sql_Connect : W → option Err;
  sql_Queryx : Z → W → Err + list newerpol.AccessRecord;
  sql_Prepare : newerpol.Stmt → W → option Err;
  sql_Exec_err : newerpol.Stmt → Z → Z → W → option Err;
  (* gomail and html/template *)
  smtp_Dial : W → option Err;
  template_Execute : email.EmailOptions → W → Err + string
}.

(** [yaml.Unmarshal(data, site)]: the decoder sets exported fields only, so
    [name] and [changed] keep the values they had. *)
Definition yaml_Unmarshal `{External W} (data : string) (s : Site) : Err + Site :=
  match yaml_decode data s with
  | inl e => inl e
  | inr s' => inr (set_changed (changed s) (set_name (name s) s'))
  end.


(* ------------------------------------------------------------------------- *)
(** * Program state and the monad of a run *)
(* ------------------------------------------------------------------------- *)

(** [type sitesCacheStruct struct].  A [*Site] is a location in the store of
    sites; [initOnce] holds whether the [sync.Once] has fired. *)
Record sitesCacheStruct : Type := mkCache {
  byId : gmap Z nat;
  byName : gmap string nat;
  initOnce : bool;
  initError : option string;
  slice : list nat
}.

(** [CommitSitesOptions]; [Ids] is [None] for a nil map. *)
Record CommitSitesOptions : Type := mkCommitSitesOptions {
  Ids : option (gmap Z bool);
  Message : string;
  Cmd : string;
  DryRun : bool;
  ForceUpdateTree : bool;
  NoPush : bool
}.

(** [syncOptions] of the sync command. *)
Record syncOptions : Type := mkSyncOptions {
  dryRun : bool;
  forceUpdateTree : bool;
  noPush : bool;
  noEmail : bool;
  recipientOverride : string
}.

Section pugo.
Context {W : Type} `{External W}.

(** Package-level variables together with the outside world. *)
Record St : Type := mkSt {
  world : W;
  viper : gmap string string;
  sitesCache : sitesCacheStruct;
  heap : list Site;                               (* the sites pointed to *)
  ledger : gmap Z Z;                              (* dbo.WebserverAccess *)
  grantPendingToGrantedQueryPrepared : bool;      (* non-nil *)
  revokePendingToRevokedQueryPrepared : bool;     (* non-nil *)
  worker_started : bool
}.

Definition set_world (w : W) (st : St) : St :=
  mkSt w (viper st) (sitesCache st) (heap st) (ledger st)
       (grantPendingToGrantedQueryPrepared st)
       (revokePendingToRevokedQueryPrepared st) (worker_started st).

Definition set_sitesCache (c : sitesCacheStruct) (st : St) : St :=
  mkSt (world st) (viper st) c (heap st) (ledger st)
       (grantPendingToGrantedQueryPrepared st)
       (revokePendingToRevokedQueryPrepared st) (worker_started st).

Definition set_heap (h : list Site) (st : St) : St :=
  mkSt (world st) (viper st) (sitesCache st) h (ledger st)
       (grantPendingToGrantedQueryPrepared st)
       (revokePendingToRevokedQueryPrepared st) (worker_started st).

Definition set_ledger (t : gmap Z Z) (st : St) : St :=
  mkSt (world st) (viper st) (sitesCache st) (heap st) t
       (grantPendingToGrantedQueryPrepared st)
       (revokePendingToRevokedQueryPrepared st) (worker_started st).

Definition set_prepared (q : newerpol.Stmt) (st : St) : St :=
  match q with
  | newerpol.grantPendingToGrantedQuery =>
      mkSt (world st) (viper st) (sitesCache st) (heap st) (ledger st)
           true (revokePendingToRevokedQueryPrepared st) (worker_started st)
  | newerpol.revokePendingToRevokedQuery =>
      mkSt (world st) (viper st) (sitesCache st) (heap st) (ledger st)
           (grantPendingToGrantedQueryPrepared st) true (worker_started st)
  end.

Definition prepared (q : newerpol.Stmt) (st : St) : bool :=
  match q with
  | newerpol.grantPendingToGrantedQuery => grantPendingToGrantedQueryPrepared st
  | newerpol.revokePendingToRevokedQuery => revokePendingToRevokedQueryPrepared st
  end.

Definition set_worker_started (b : bool) (st : St) : St :=
  mkSt (world st) (viper st) (sitesCache st) (heap st) (ledger st)
       (grantPendingToGrantedQueryPrepared st)
       (revokePendingToRevokedQueryPrepared st) b.

(** A computation returns a value or an error, the next state, and the
    steps it took, in order. *)
Definition Go (A : Type) : Type := St → (Err + A) * St * list Event.

#[global] Instance Go_ret : MRet Go := λ A a st, (inr a, st, []).

#[global] Instance Go_bind : MBind Go := λ A B k m st,
  match m st with
  | (inl e, st1, t1) => (inl e, st1, t1)
  | (inr a, st1, t1) =>
      match k a st1 with
      | (r, st2, t2) => (r, st2, t1 ++ t2)
      end
  end.

(** [return ..., err] with a non-nil error. *)
Definition fail {A} (e : Err) : Go A := λ st, (inl e, st, []).

Definition get : Go St := λ st, (inr st, st, []).

Definition modify (f : St → St) : Go unit := λ st, (inr tt, f st, []).

Definition emit (ev : Event) : Go unit := λ st, (inr tt, st, [ev]).

(** Runs [m] and hands its error, if any, to the caller as a value. *)
Definition try {A} (m : Go A) : Go (Err + A) := λ st,
  match m st with
  | (r, st1, t1) => (inr r, st1, t1)
  end.

(** [if err != nil { return wrap(err) }]. *)
Definition check (wrap : Err → Err) (r : option Err) : Go unit :=
  match r with
  | Some e => fail (wrap e)
  | None => mret tt
  end.

Definition check_val {A} (wrap : Err → Err) (r : Err + A) : Go A :=
  match r with
  | inl e => fail (wrap e)
  | inr a => mret a
  end.

(** The steps a run has taken, and its result. *)
Definition trace_of {A} (r : (Err + A) * St * list Event) : list Event := r.2.
Definition state_of {A} (r : (Err + A) * St * list Event) : St := r.1.2.
Definition result_of {A} (r : (Err + A) * St * list Event) : Err + A := r.1.1.

(* ------------------------------------------------------------------------- *)
(** * [cdb/site.go], the part that touches the disk *)
(* ------------------------------------------------------------------------- *)

Definition FileName (cfg : gmap string string) (s : Site) : string :=
  path_Join [GetString cfg "cdb.path"; "sites"; name s +:+ ".yaml"].

Definition FileNameRepo (s : Site) : string :=
  path_Join ["sites"; name s +:+ ".yaml"].

(** [LoadSite]. *)
Definition LoadSite (siteFileName : string) : Go Site :=
  let fn := path_file siteFileName in
  if negb (String.eqb (path_Ext fn) ".yaml") then
    fail ("cdb: " +:+ siteFileName +:+ " not a YAML file")
  else
    let site := set_name (TrimSuffix fn (path_Ext fn)) NewSite in
    st ← get;
    let p := path_Join [GetString (viper st) "cdb.path"; "sites"; fn] in
    emit (EvReadFile p) ;;
    yamlData ← check_val (λ e, "cdb: Reading " +:+ siteFileName +:+ ": " +:+ e)
                 (ioutil_ReadFile p (world st));
    check_val (λ e, "cdb: Unmarshalling " +:+ siteFileName +:+ ": " +:+ e)
      (yaml_Unmarshal yamlData site).

(** [Save] on the site value: the error returned, the site afterwards, the
    world afterwards and the steps taken. *)
Definition Save_site (cfg : gmap string string) (s : Site) (w : W)
  : option Err * Site * W * list Event :=
  match yaml_Marshal s with
  | inl e =>
      (Some ("cdb: Unable to marshall " +:+ name s +:+ ": " +:+ e), s, w,
       [EvSave (name s)])
  | inr yamlData =>
      match ioutil_WriteFile (FileName cfg s) yamlData w with
      | (Some e, w') =>
          (Some ("cdb: Unable to write " +:+ name s +:+ ".yaml: " +:+ e), s, w',
           [EvSave (name s); EvWriteFile (FileName cfg s) yamlData])
      | (None, w') =>
          (None, set_changed false s, w',
           [EvSave (name s); EvWriteFile (FileName cfg s) yamlData])
      end
  end.

(** The method [Save] called through the pointer [l]. *)
Definition Save (l : nat) : Go (option Err) := λ st,
  match heap st !! l with
  | Some s =>
      match Save_site (viper st) s (world st) with
      | (r, s', w', t) => (inr r, set_world w' (set_heap (<[l := s']> (heap st)) st), t)
      end
  | None => (inl "nil pointer dereference", st, [])
  end.

(** A method call [site.m()] through the pointer [l], for the methods that
    work in memory only. *)
Definition call_site (l : nat) (m : Site → Site) : Go unit := λ st,
  match heap st !! l with
  | Some s => (inr tt, set_heap (<[l := m s]> (heap st)) st, [])
  | None => (inl "nil pointer dereference", st, [])
  end.

Definition deref (l : nat) : Go Site := λ st,
  match heap st !! l with
  | Some s => (inr s, st, [])
  | None => (inl "nil pointer dereference", st, [])
  end.

(* ------------------------------------------------------------------------- *)
(** * [cdb]: the store of sites *)
(* ------------------------------------------------------------------------- *)

(** The body of one goroutine of [initSitesCache]: a file that is not a YAML
    file yields the empty item. *)
Definition loadEntry (siteFileName : string) : Go (option Site) :=
  let fn := path_file siteFileName in
  if negb (String.eqb (path_Ext fn) ".yaml") then mret None
  else s ← LoadSite siteFileName; mret (Some s).

(** All goroutines, run to completion one after the other; each result is
    the item sent on the channel. *)
Fixpoint loadEntries (names : list string) : Go (list (Err + option Site)) :=
  match names with
  | [] => mret []
  | n :: rest =>
      it ← try (loadEntry n);
      its ← loadEntries rest;
      mret (it :: its)
  end.

(** Storing one loaded site: a fresh pointer entered under its id and name
    and appended to the slice. *)
Definition cache_add (s : Site) (st : St) : St :=
  let l := length (heap st) in
  let c := sitesCache st in
  set_sitesCache
    (mkCache (<[Id s := l]> (byId c)) (<[name s := l]> (byName c))
             (initOnce c) (initError c) (slice c ++ [l]))
    (set_heap (heap st ++ [s]) st).

(** The receiving loop of [initSitesCache]: stops at the first error. *)
Fixpoint collectItems (items : list (Err + option Site)) : Go unit :=
  match items with
  | [] => mret tt
  | inl e :: _ => fail e
  | inr None :: rest => collectItems rest
  | inr (Some s) :: rest => modify (cache_add s) ;; collectItems rest
  end.

Definition initSitesCache : Go unit :=
  st ← get;
  if String.eqb (GetString (viper st) "cdb.path") "" then
    fail "cdb: cdb.path missing in config"
  else
    let sitesDir := path_Join [GetString (viper st) "cdb.path"; "sites"] in
    emit (EvReadDir sitesDir) ;;
    dirEnts ← check_val (λ e, "cdb: " +:+ e) (ioutil_ReadDir sitesDir (world st));
    items ← loadEntries dirEnts;
    modify (λ st, let c := sitesCache st in
                  set_sitesCache (mkCache ∅ ∅ (initOnce c) (initError c) (slice c)) st) ;;
    collectItems items.

(** [sitesCache.initOnce.Do(...)], then the stored error. *)
Definition ensureSitesCacheLoaded : Go (option Err) :=
  st ← get;
  (if initOnce (sitesCache st) then mret tt
   else
     r ← try initSitesCache;
     modify (λ st, let c := sitesCache st in
                   set_sitesCache
                     (mkCache (byId c) (byName c) true
                              (match r with inl e => Some e | inr _ => None end)
                              (slice c)) st)) ;;
  st' ← get;
  mret (initError (sitesCache st')).

Definition GetAllSites : Go (list nat) :=
  r ← ensureSitesCacheLoaded;
  check (λ e, e) r ;;
  st ← get; mret (slice (sitesCache st)).

(** The pointer returned is [None] for nil. *)
Definition GetSiteById (id : Z) : Go (option nat) :=
  r ← ensureSitesCacheLoaded;
  check (λ e, e) r ;;
  st ← get; mret (byId (sitesCache st) !! id).

Definition GetSiteByName (n : string) : Go (option nat) :=
  r ← ensureSitesCacheLoaded;
  check (λ e, e) r ;;
  st ← get; mret (byName (sitesCache st) !! n).

(* ------------------------------------------------------------------------- *)
(** * [cdb]: the working tree and the commit pipeline *)
(* ------------------------------------------------------------------------- *)

(** A call into a collaborator that may change the outside world. *)
Definition ext (ev : Event) (f : W → option Err * W) : Go (option Err) := λ st,
  match f (world st) with
  | (r, w') => (inr r, set_world w' st, [ev])
  end.

(** [checkWorktreeClean]; the error is handed back as a value. *)
Definition checkWorktreeClean : Go (option Err) :=
  st ← get;
  emit EvStatus ;;
  mret (match git_Status (world st) with
        | inl e => Some ("cdb: " +:+ e)
        | inr false => Some "cdb: Working tree not clean"
        | inr true => None
        end).

Definition pull (branch : string) : Go PullResult := λ st,
  match git_Pull branch (world st) with
  | (r, w') => (inr r, set_world w' st, [EvPull])
  end.

(** [GetWorktree]; the handle returned stands for the one working tree of
    the outside world and is not represented. *)
Definition GetWorktree : Go unit :=
  st ← get;
  let cfg := viper st in
  let branch := GetString cfg "cdb.branch" in
  if String.eqb (GetString cfg "cdb.path") "" then
    fail "cdb: cdb.path missing in config"
  else
    check (λ e, "cdb: Opening repo at " +:+ GetString cfg "cdb.path" +:+ ": " +:+ e)
          (git_PlainOpen (GetString cfg "cdb.path") (world st)) ;;
    check (λ e, "cdb: Opening worktree: " +:+ e) (git_Worktree (world st)) ;;
    r ← checkWorktreeClean;
    check (λ e, e) r ;;
    h ← check_val (λ e, "cdb: " +:+ e) (git_Head (world st));
    currentBranch ←
      (if negb (String.eqb (path_file h) branch) then
         r ← ext (EvCheckout branch) (git_Checkout branch);
         check (λ e, "cdb: Checking out branch '" +:+ branch +:+ "': " +:+ e) r ;;
         st' ← get;
         h' ← check_val (λ e, "cdb: " +:+ e) (git_Head (world st'));
         mret (path_file h')
       else mret (path_file h));
    p ← pull branch;
    match p with
    | PullErr e =>
        fail ("cdb: Pulling branch '" +:+ currentBranch +:+ "': " +:+ e)
    | _ => mret tt
    end.

(** The entries [for id, inSet := range siteIds] runs over.  Go leaves the
    order of a map iteration open; [map_to_list] fixes one. *)
Definition siteIdsOf (opts : CommitSitesOptions) (c : sitesCacheStruct)
  : list (Z * bool) :=
  match Ids opts with
  | Some m => map_to_list m
  | None => map_to_list ((λ _ : nat, true) <$> byId c)
  end.

(** The sites that pass the three [continue] tests of the loop. *)
Definition targetOf (st : St) (e : Z * bool) : option nat :=
  if e.2 then
    match byId (sitesCache st) !! e.1 with
    | Some l =>
        match heap st !! l with
        | Some s => if Changed s then Some l else None
        | None => None
        end
    | None => None
    end
  else None.

Definition commitTargets (opts : CommitSitesOptions) (st : St) : list nat :=
  omap (targetOf st) (siteIdsOf opts (sitesCache st)).

(** The saving goroutines, run to completion one after the other: what each
    sends on [errors], and what is sent on [filesToStage]. *)
Fixpoint saveSites (opts : CommitSitesOptions) (targets : list nat)
  : Go (list (option Err) * list string) :=
  match targets with
  | [] => mret ([], [])
  | l :: rest =>
      r ← (if negb (DryRun opts) || ForceUpdateTree opts then
             err ← Save l;
             s ← deref l;
             mret (err, if err is None then [FileNameRepo s] else [])
           else mret (None, []));
      rs ← saveSites opts rest;
      mret (r.1 :: rs.1, r.2 ++ rs.2)
  end.

(** [for err := range errors { if err != nil { return err } }]. *)
Fixpoint firstError (errs : list (option Err)) : Go unit :=
  match errs with
  | [] => mret tt
  | Some e :: _ => fail e
  | None :: rest => firstError rest
  end.

Fixpoint stageFiles (fns : list string) : Go nat :=
  match fns with
  | [] => mret 0
  | fn :: rest =>
      r ← ext (EvStage fn) (git_Add fn);
      check (λ e, "cdb: Staging " +:+ fn +:+ ": " +:+ e) r ;;
      n ← stageFiles rest;
      mret (S n)
  end.

(** The message built before the commit. *)
Definition commitMessage (cfg : gmap string string) (opts : CommitSitesOptions)
    (sitesChanged : Z) : string :=
  let message :=
    if String.eqb (Message opts) "" then "Unspecified changes" else Message opts in
  let cmd :=
    if negb (String.eqb (Cmd opts) "") then "pugo" +:+ " " +:+ Cmd opts else "pugo" in
  let src :=
    if String.eqb (GetString cfg "newerpol.name") ""
    then GetString cfg "newerpol.database" else GetString cfg "newerpol.name" in
  "sites: " +:+ message +:+ ". Sites changed: " +:+ fmt_d sitesChanged
    +:+ " (cmd=" +:+ cmd +:+ ", src=" +:+ src +:+ ")".

(** [CommitSites], first part: the store is loaded and the working tree
    obtained. *)
Definition commitAcquire : Go unit :=
  r ← ensureSitesCacheLoaded;
  check (λ e, e) r ;;
  GetWorktree.

(** [CommitSites], second part: the changed sites are saved and their files
    staged; returns [sitesChanged]. *)
Definition commitPersist (opts : CommitSitesOptions) : Go nat :=
  st ← get;
  let targets := commitTargets opts st in
  rs ← saveSites opts targets;
  firstError rs.1 ;;
  (if negb (DryRun opts) then stageFiles rs.2 else mret 0) ;;
  mret (length targets).

(** [CommitSites] up to and including the staging of files. *)
Definition commitStage (opts : CommitSitesOptions) : Go nat :=
  commitAcquire ;; commitPersist opts.

(** [CommitSites] from the second cleanliness check on. *)
Definition commitFinish (opts : CommitSitesOptions) (sitesChanged : nat) : Go unit :=
  c ← checkWorktreeClean;
  match c with
  | None => mret tt
  | Some _ =>
      st ← get;
      let cfg := viper st in
      let msg := commitMessage cfg opts (Z.of_nat sitesChanged) in
      (if negb (DryRun opts) then
         r ← ext (EvCommit msg (GetString cfg "cdb.author.name")
                           (GetString cfg "cdb.author.email"))
                 (git_Commit msg (GetString cfg "cdb.author.name")
                             (GetString cfg "cdb.author.email"));
         check (λ e, "cdb: Creating commit: " +:+ e) r
       else mret tt) ;;
      (if negb (DryRun opts) && negb (NoPush opts) then
         st' ← get;
         check (λ e, "cdb: Opening repo at " +:+ GetString cfg "cdb.path" +:+ ": " +:+ e)
               (git_PlainOpen (GetString cfg "cdb.path") (world st')) ;;
         r ← ext EvPush git_Push;
         check (λ e, "cdb: Pushing to origin/" +:+ GetString cfg "cdb.branch" +:+ ": " +:+ e) r
       else mret tt)
  end.

Definition CommitSites (opts : CommitSitesOptions) : Go unit :=
  sitesChanged ← commitStage opts;
  commitFinish opts sitesChanged.

(* ------------------------------------------------------------------------- *)
(** * [newerpol]: the ledger client *)
(* ------------------------------------------------------------------------- *)

(** [GetGrantsToAdd] and [GetGrantsToRevoke] as [sync.go] calls them: the
    rows of the lookup query for one status, grouped by website. *)
Definition groupByWebsite (rows : list newerpol.AccessRecord)
  : gmap Z (list newerpol.AccessRecord) :=
  fold_left (λ m g, <[newerpol.WebsiteId g :=
                        default [] (m !! newerpol.WebsiteId g) ++ [g]]> m) rows ∅.

Definition GetGrants (status : Z) : Go (gmap Z (list newerpol.AccessRecord)) :=
  st ← get;
  rows ← check_val (λ e, e) (sql_Queryx status (world st));
  mret (groupByWebsite rows).

Definition GetGrantsToAdd := GetGrants newerpol.AccessGrantPending.
Definition GetGrantsToRevoke := GetGrants newerpol.AccessRevokePending.

(** The statement [FinishGrant] picks for a grant that is not finished. *)
Definition finishing_stmt (a : newerpol.AccessRecord) : newerpol.Stmt :=
  if (newerpol.RequestStatus a =? newerpol.AccessGrantPending)%Z
  then newerpol.grantPendingToGrantedQuery
  else newerpol.revokePendingToRevokedQuery.

(** [FinishGrant], the method of [newerpol.go] and the function of the same
    body that [sync.go] calls.  A failed computation stands for
    [return false, err]. *)
Definition FinishGrant (a : newerpol.AccessRecord) : Go bool :=
  let status := newerpol.RequestStatus a in
  if (status =? newerpol.AccessGranted)%Z || (status =? newerpol.AccessRevoked)%Z then
    fail "newerpol: Cannot finish grant, already in finished state"
  else
    let q := finishing_stmt a in
    st ← get;
    (if prepared q st then mret tt
     else
       check (λ e, "newerpol: Preparing query: " +:+ e) (sql_Prepare q (world st)) ;;
       modify (set_prepared q)) ;;
    emit (EvExec q (newerpol.AccessId a) status) ;;
    check (λ e, "newerpol: Finishing grant: " +:+ e)
          (sql_Exec_err q (newerpol.AccessId a) status (world st)) ;;
    st' ← get;
    let res := newerpol.exec_update q (newerpol.AccessId a) status (ledger st') in
    modify (set_ledger res.2) ;;
    if (res.1 =? 0)%Z then mret false else mret true.


(* ------------------------------------------------------------------------- *)
(** * [email]: the send worker, as far as the caller sees it *)
(* ------------------------------------------------------------------------- *)

Definition StartWorker : Go (option Err) :=
  st ← get;
  if worker_started st then mret None
  else
    match smtp_Dial (world st) with
    | Some e => mret (Some ("email: Error dialing smtp: " +:+ e))
    | None => modify (set_worker_started true) ;; emit EvStartWorker ;; mret None
    end.

Definition ShutdownWorker : Go unit :=
  emit EvShutdownWorker ;; modify (set_worker_started false).

(** [SendEmail]: the message is rendered and put on the worker's channel. *)
Definition SendEmail (opts : email.EmailOptions) : Go (option Err) :=
  if negb (email.allowedTypes (email.Type_ opts)) then
    mret (Some ("email: Unknown message type " +:+ email.Type_ opts))
  else
    st ← get;
    match template_Execute opts (world st) with
    | inl e => mret (Some ("email: Executing templates layout: " +:+ e))
    | inr body => emit (EvEnqueue opts body) ;; mret None
    end.

(* ------------------------------------------------------------------------- *)
(** * [cmd/pugo/cmd/sync.go] *)
(* ------------------------------------------------------------------------- *)

Inductive Verb : Type := VAdd | VRevoke.

(** [log.Fatalf(prefix + "%v", err)]: the run ends with that error. *)
Definition fatalf {A} (prefix : string) (m : Go A) : Go A := λ st,
  match m st with
  | (inl e, st', t) => (inl (prefix +:+ e), st', t)
  | r => r
  end.

(** The goroutine of one site: what it sends on [siteIdsChanged] and on
    [grantsProcessed]. *)
Fixpoint processGrants (verb : Verb) (l : nat)
    (grantRecords : list newerpol.AccessRecord)
  : Go (list Z * list newerpol.AccessRecord) :=
  match grantRecords with
  | [] => mret ([], [])
  | accessRecord :: rest =>
      call_site l (match verb with
                   | VAdd => AddAdmin (newerpol.Login accessRecord)
                   | VRevoke => RemoveAdmin (newerpol.Login accessRecord)
                   end) ;;
      s ← deref l;
      rs ← processGrants verb l rest;
      mret ((if Changed s then [Id s] else []) ++ rs.1, accessRecord :: rs.2)
  end.

(** The loop over [grants[verb]]; the goroutines are run to completion one
    after the other, in the order of the iteration. *)
Fixpoint processVerb (verb : Verb)
    (entries : list (Z * list newerpol.AccessRecord))
  : Go (list Z * list newerpol.AccessRecord) :=
  match entries with
  | [] => mret ([], [])
  | (id, grantRecords) :: rest =>
      site ← fatalf "sync: " (GetSiteById id);
      r ← match site with
          | None => mret (([] : list Z), ([] : list newerpol.AccessRecord))
          | Some l => processGrants verb l grantRecords
          end;
      rs ← processVerb verb rest;
      mret (r.1 ++ rs.1, r.2 ++ rs.2)
  end.

(** The body of [if updated && sendEmails { ... }]. *)
Definition notify (opts : syncOptions) (accessRecord : newerpol.AccessRecord)
  : Go unit :=
  site ← try (GetSiteById (newerpol.WebsiteId accessRecord));
  match site with
  | inr (Some l) =>
      s ← deref l;
      let emailOpts :=
        email.mkEmailOptions (newerpol.CSP accessRecord)
          (newerpol.Email accessRecord) (newerpol.LookupName accessRecord)
          (newerpol.FirstName accessRecord) (Name s) "" "" in
      if String.eqb (email.Email emailOpts) "" then mret tt
      else
        let status := newerpol.RequestStatus accessRecord in
        let emailOpts :=
          if (status =? newerpol.AccessGrantPending)%Z then
            email.set_Subject_Type "Website Access Granted" "granted" emailOpts
          else if (status =? newerpol.AccessRevokePending)%Z then
            email.set_Subject_Type "Website Access Removed" "revoked" emailOpts
          else emailOpts in
        let emailOpts :=
          if negb (String.eqb (recipientOverride opts) "")
          then email.set_Email (recipientOverride opts) emailOpts
          else emailOpts in
        SendEmail emailOpts ;; mret tt
  | _ => mret tt
  end.

(** [for accessRecord := range grantsProcessed { ... }]. *)
Fixpoint finishGrants (opts : syncOptions) (sendEmails : bool)
    (grants : list newerpol.AccessRecord) : Go unit :=
  match grants with
  | [] => mret tt
  | accessRecord :: rest =>
      (if dryRun opts then mret tt
       else
         r ← try (FinishGrant accessRecord);
         match r with
         | inl e =>
             emit (EvFinishGrant accessRecord false (Some e)) ;;
             fail ("sync: " +:+ e)
         | inr updated =>
             emit (EvFinishGrant accessRecord updated None) ;;
             if updated && sendEmails then notify opts accessRecord else mret tt
         end) ;;
      finishGrants opts sendEmails rest
  end.

(** [doSync], first part: the pending grants are fetched and applied to
    the sites in memory; returns what was sent on [siteIdsChanged] and on
    [grantsProcessed]. *)
Definition syncApply : Go (list Z * list newerpol.AccessRecord) :=
  st ← get;
  check (λ e, "sync: " +:+ e) (sql_Connect (world st)) ;;
  add ← fatalf "sync: " GetGrantsToAdd;
  revoke ← fatalf "sync: " GetGrantsToRevoke;
  r1 ← processVerb VAdd (map_to_list add);
  r2 ← processVerb VRevoke (map_to_list revoke);
  mret (r1.1 ++ r2.1, r1.2 ++ r2.2).

(** [doSync], second part: the one call of [cdb.CommitSites]; an error ends
    the run ([log.Fatalf]). *)
Definition syncCommit (opts : syncOptions) (ids : list Z) : Go unit :=
  let siteIdsToCommit : gmap Z bool :=
    list_to_map ((λ i, (i, true)) <$> ids) in
  let commitOpts :=
    mkCommitSitesOptions (Some siteIdsToCommit) "Update admins" "sync"
      (dryRun opts) (forceUpdateTree opts) (noPush opts) in
  c ← try (CommitSites commitOpts);
  emit (EvCommitSites (match c with inl e => Some e | inr _ => None end)) ;;
  check_val (λ e, "sync: " +:+ e) c.

(** [doSync], third part: the ledger is updated and the users are told. *)
Definition syncFinish (opts : syncOptions)
    (grants : list newerpol.AccessRecord) : Go unit :=
  sendEmails ←
    (if negb (dryRun opts) && negb (noEmail opts) then
       r ← StartWorker;
       mret (match r with Some _ => false | None => true end)
     else mret false);
  finishGrants opts sendEmails grants ;;
  (if (sendEmails : bool) then ShutdownWorker else mret tt).

Definition doSync (opts : syncOptions) : Go unit :=
  r ← syncApply;
  syncCommit opts r.1 ;;
  syncFinish opts r.2.

(** The state of a process that has just started. *)
Definition initial_state (w : W) (cfg : gmap string string) (t : gmap Z Z) : St :=
  mkSt w cfg (mkCache ∅ ∅ false None []) [] t false false false.


(* ------------------------------------------------------------------------- *)
(** * Vocabulary for statements about runs *)
(* ------------------------------------------------------------------------- *)

(** [m] leaves the component [f] of the state as it found it, and every
    step of [m] satisfies [P], which may refer to that component. *)
Definition obeys {A X} (P : X → Event → Prop) (f : St → X) (m : Go A) : Prop :=
  ∀ st, Forall (P (f st)) (trace_of (m st)) ∧ f (state_of (m st)) = f st.

(** The entry points of the store, and a process that calls them one after
    the other, going on after an error. *)
Inductive StoreCall : Type :=
  | CallEnsure
  | CallGetAllSites
  | CallGetSiteById (id : Z)
  | CallGetSiteByName (n : string)
  | CallCommitSites (opts : CommitSitesOptions).

Definition run_call (c : StoreCall) : Go unit :=
  match c with
  | CallEnsure => ensureSitesCacheLoaded ;; mret tt
  | CallGetAllSites => GetAllSites ;; mret tt
  | CallGetSiteById id => GetSiteById id ;; mret tt
  | CallGetSiteByName n => GetSiteByName n ;; mret tt
  | CallCommitSites opts => CommitSites opts
  end.

Fixpoint run_calls (cs : list StoreCall) : Go unit :=
  match cs with
  | [] => mret tt
  | c :: rest => try (run_call c) ;; run_calls rest
  end.


End pugo.


(* ------------------------------------------------------------------------- *)
(** * Vocabulary for statements about a sync run and about the commit message *)
(* ------------------------------------------------------------------------- *)

(** The message [o] is the one [sync.go] builds for the grant [a]. *)
Definition notifies (o : email.EmailOptions) (a : newerpol.AccessRecord) : Prop :=
  email.CSP o = newerpol.CSP a ∧ email.FirstName o = newerpol.FirstName a ∧
  email.EmailName o = newerpol.LookupName a.

(** In the trace [t], every message put on the queue is for the grant whose
    finalization was reported last, that report said [updated = true] and
    [err = nil], and no statement was run on the ledger in between; [cur] is
    the grant so reported, if the trace so far ends that way. *)
Fixpoint enqueue_after_update (cur : option newerpol.AccessRecord)
    (t : list Event) : Prop :=
  match t with
  | [] => True
  | EvFinishGrant a updated err :: t' =>
      (updated = true → err = None) ∧
      enqueue_after_update (if updated then Some a else None) t'
  | EvExec _ _ _ :: t' => enqueue_after_update None t'
  | EvEnqueue o _ :: t' =>
      (∃ a, cur = Some a ∧ notifies o a) ∧ enqueue_after_update cur t'
  | _ :: t' => enqueue_after_update cur t'
  end.

(** The commit message as the specification words it:
    ["<summary>. Sites changed: <count> (cmd=<origin>, src=<ledger-name>)"],
    with the caller's message, the number of changed records, the name of
    the command and the configured name of the grant source. *)
Definition spec_commit_message (cfg : gmap string string)
    (opts : CommitSitesOptions) (count : Z) : string :=
  Message opts +:+ ". Sites changed: " +:+ fmt_d count
    +:+ " (cmd=" +:+ Cmd opts +:+ ", src=" +:+ GetString cfg "newerpol.name" +:+ ")".

(* ------------------------------------------------------------------------- *)
(** * A small outside world for the worked examples *)
(* ------------------------------------------------------------------------- *)

Record SimWorld : Type := mkSim {
  sim_dir : list string;              (* entries of the sites directory *)
  sim_files : gmap string string;     (* files of the working tree *)
  sim_head : gmap string string;      (* the same files as of the last commit *)
  sim_branch : string;                (* reference name of HEAD *)
  sim_commits : list string;          (* messages of the commits created *)
  sim_pushes : nat;
  sim_readonly : bool;                (* writing fails *)
  sim_rows : list newerpol.AccessRecord   (* rows the lookup query can return *)
}.

Definition sim_write (p d : string) (w : SimWorld) : option Err * SimWorld :=
  if sim_readonly w then (Some "read-only file system", w)
  else (None, mkSim (sim_dir w) (<[p := d]> (sim_files w)) (sim_head w)
                    (sim_branch w) (sim_commits w) (sim_pushes w)
                    (sim_readonly w) (sim_rows w)).

Definition sim_commit (msg : string) (w : SimWorld) : option Err * SimWorld :=
  (None, mkSim (sim_dir w) (sim_files w) (sim_files w) (sim_branch w)
               (sim_commits w ++ [msg]) (sim_pushes w) (sim_readonly w)
               (sim_rows w)).

Definition sim_push (w : SimWorld) : option Err * SimWorld :=
  (None, mkSim (sim_dir w) (sim_files w) (sim_head w) (sim_branch w)
               (sim_commits w) (S (sim_pushes w)) (sim_readonly w) (sim_rows w)).

Definition sim_checkout (b : string) (w : SimWorld) : option Err * SimWorld :=
  (None, mkSim (sim_dir w) (sim_files w) (sim_head w) ("refs/heads/" +:+ b)
               (sim_commits w) (sim_pushes w) (sim_readonly w) (sim_rows w)).

(** The codec of the examples writes the name and the admins of a record,
    and reads a file as a one-entry list of admins. *)
#[global] Instance sim_external : External SimWorld := {|
  ioutil_ReadDir _ w := inr (sim_dir w);
  ioutil_ReadFile p w :=
    match sim_files w !! p with
    | Some c => inr c
    | None => inl "no such file or directory"
    end;
  ioutil_WriteFile := sim_write;
  yaml_Marshal s := inr (name s +:+ ": " +:+ String.concat "," (Admins s));
  yaml_decode data s :=
    if String.eqb data "" then inl "EOF" else inr (set_Admins [data] s);
  git_PlainOpen _ _ := None;
  git_Worktree _ := None;
  git_Status w := inr (bool_decide (sim_files w = sim_head w));
  git_Head w := inr (sim_branch w);
  git_Checkout := sim_checkout;
  git_Pull _ w := (PullAlreadyUpToDate, w);
  git_Add _ w := (None, w);
  git_Commit msg _ _ := sim_commit msg;
  git_Push := sim_push;
  sql_Connect _ := None;
  sql_Queryx status w :=
    inr (filter (λ a, newerpol.RequestStatus a = status) (sim_rows w));
  sql_Prepare _ _ := None;
  sql_Exec_err _ _ _ _ := None;
  smtp_Dial _ := None;
  template_Execute o _ := inr ("Dear " +:+ email.FirstName o)
|}.

Definition sim_cfg : gmap string string :=
  <["cdb.path" := "/cdb"]> (<["newerpol.name" := "newerpol"]> ∅).

(** One record file on disk, committed as it is. *)
Definition sim_world0 : SimWorld :=
  mkSim ["club.yaml"; "README"]
        {["/cdb/sites/club.yaml" := "alice"]}
        {["/cdb/sites/club.yaml" := "alice"]}
        "refs/heads/master" [] 0 false [].

Definition sim_st0 : St := initial_state sim_world0 sim_cfg ∅.

(** A store that is loaded and holds one record, number 42, marked as
    changed. *)
Definition site_club (admins : list string) : Site :=
  set_changed true (set_name "club" (set_Admins admins
    (mkSite 42 "" "" "" [] [] "" [] [] false "" true 0 false false "" false))).

Definition sim_loaded (w : SimWorld) (s : Site) : St :=
  mkSt w sim_cfg (mkCache {[42%Z := 0]} {["club" := 0]} true None [0]) [s]
       ∅ false false false.

Definition opts_sync (dry force nopush : bool) : CommitSitesOptions :=
  mkCommitSitesOptions (Some {[42%Z := true]}) "Update admins" "sync"
                       dry force nopush.


(** A world in which saving the one changed record rewrites its file with
    the content it already has. *)
Definition sim_world1 : SimWorld :=
  mkSim ["club.yaml"]
        {["/cdb/sites/club.yaml" := "club: alice"]}
        {["/cdb/sites/club.yaml" := "club: alice"]}
        "refs/heads/master" [] 0 false [].


(** A pending grant for record 42, and a ledger that holds it. *)
Definition grant7 : newerpol.AccessRecord :=
  newerpol.mkAccessRecord 7 42 newerpol.AccessGrantPending
    "Bob" "Bob B" "bob" "bob@example.com" "Chess".

Definition sim_ledger_st : St :=
  initial_state sim_world0 sim_cfg {[7%Z := newerpol.AccessGrantPending]}.


(** A world with one pending grant for the record on disk, and the start of
    a process in it. *)
Definition grant0 : newerpol.AccessRecord :=
  newerpol.mkAccessRecord 7 0 newerpol.AccessGrantPending
    "Bob" "Bob B" "bob" "bob@example.com" "Chess".

Definition sim_world_sync : SimWorld :=
  mkSim ["club.yaml"]
        {["/cdb/sites/club.yaml" := "alice"]}
        {["/cdb/sites/club.yaml" := "alice"]}
        "refs/heads/master" [] 0 false [grant0].

Definition sim_sync_st : St :=
  initial_state sim_world_sync sim_cfg {[7%Z := newerpol.AccessGrantPending]}.

Definition sync_opts_default : syncOptions := mkSyncOptions false false false false "".


(* ------------------------------------------------------------------------- *)
(** * Vocabulary for statements about the store and the ledger *)
(* ------------------------------------------------------------------------- *)

(** How a row of the ledger may move: not at all, from grant-pending to
    granted, or from another unfinished status to revoked.  No row appears
    or disappears. *)
Definition ledger_moves (t t' : gmap Z Z) : Prop :=
  ∀ id,
    t' !! id = t !! id
    ∨ (t !! id = Some newerpol.AccessGrantPending ∧
       t' !! id = Some newerpol.AccessGranted)
    ∨ (∃ c, t !! id = Some c ∧ c ≠ newerpol.AccessGrantPending ∧
            c ≠ newerpol.AccessGranted ∧ c ≠ newerpol.AccessRevoked ∧
            t' !! id = Some newerpol.AccessRevoked).

(** The message [o] as [sync.go] completes it for the grant [a], with the
    recipient override [override]: type and subject follow the status of
    the grant, the address of the row is not empty, and the recipient is
    the override if one is set and the address of the row otherwise. *)
Definition addressed (override : string) (a : newerpol.AccessRecord)
    (o : email.EmailOptions) : Prop :=
  (newerpol.RequestStatus a = newerpol.AccessGrantPending ∧
   email.Type_ o = "granted" ∧ email.Subject o = "Website Access Granted"
   ∨ newerpol.RequestStatus a = newerpol.AccessRevokePending ∧
     email.Type_ o = "revoked" ∧ email.Subject o = "Website Access Removed")
  ∧ newerpol.Email a ≠ ""
  ∧ email.Email o
    = (if decide (override = "") then newerpol.Email a else override).

(** The grant [a] is a row of one of the two lookups of a sync run, made in
    the outside world [w]. *)
Definition fetched `{External W} (w : W) (a : newerpol.AccessRecord) : Prop :=
  ∃ status rows,
    (status = newerpol.AccessGrantPending ∨
     status = newerpol.AccessRevokePending) ∧
    sql_Queryx status w = inr rows ∧ a ∈ rows.

Section store_vocabulary.
Context {W : Type} `{External W}.

(** The pointers of the cache lead to sites: every entry of [byId] and of
    [byName] is an element of [slice] and points to a site with that id,
    or that name, and every element of [slice] points to a site. *)
Definition cache_wf (st : @St W) : Prop :=
  let c := sitesCache st in
  (∀ id l, byId c !! id = Some l →
           l ∈ slice c ∧ ∃ s, heap st !! l = Some s ∧ Id s = id)
  ∧ (∀ n l, byName c !! n = Some l →
            l ∈ slice c ∧ ∃ s, heap st !! l = Some s ∧ name s = n)
  ∧ (∀ l, l ∈ slice c → is_Some (heap st !! l)).

(** No site in memory is marked as changed. *)
Definition all_unchanged (st : @St W) : Prop :=
  Forall (λ s, changed s = false) (heap st).

(** The sites in memory [h'] are the sites [h] with the flag of some of the
    sites at [targets] cleared. *)
Definition flags_cleared (targets : list nat) (h h' : list Site) : Prop :=
  length h' = length h ∧
  ∀ l, h' !! l = h !! l
       ∨ (l ∈ targets ∧
          ∃ s, h !! l = Some s ∧ h' !! l = Some (set_changed false s)).

(** The store has been loaded, and its cache is [c]. *)
Definition loaded_as (c : sitesCacheStruct) (st : @St W) : Prop :=
  initOnce (sitesCache st) = true ∧ sitesCache st = c.

(** [m] keeps the property [I] of the state. *)
Definition keeps {A} (I : @St W → Prop) (m : Go A) : Prop :=
  ∀ st, I st → I (state_of (m st)).

(** The entries of a directory listing that [initSitesCache] loads. *)
Definition site_files (names : list string) : list string :=
  filter (λ n, path_Ext (path_file n) = ".yaml") names.

(** What [LoadSite] returns for the entry [n] in the state [st]. *)
Definition load_of (st : @St W) (n : string) : Err + Site :=
  result_of (LoadSite n st).

(** The cache of [st] holds the sites [loaded]: each of them is pointed to
    from [slice] and has an entry under its id and under its name; every
    entry of [byId] and of [byName] points to one of them, with that id or
    that name; and so does every element of [slice] that is not among
    [slice0]. *)
Definition cache_holds (slice0 : list nat) (loaded : Site → Prop)
    (st : @St W) : Prop :=
  let c := sitesCache st in
  (∀ s, loaded s →
     (∃ l, l ∈ slice c ∧ heap st !! l = Some s) ∧
     is_Some (byId c !! Id s) ∧ is_Some (byName c !! name s))
  ∧ (∀ id l, byId c !! id = Some l →
       ∃ s, heap st !! l = Some s ∧ loaded s ∧ Id s = id)
  ∧ (∀ n l, byName c !! n = Some l →
       ∃ s, heap st !! l = Some s ∧ loaded s ∧ name s = n)
  ∧ (∀ l, l ∈ slice c →
       l ∈ slice0 ∨ ∃ s, heap st !! l = Some s ∧ loaded s).

(** The cache of [st1] holds the sites that [LoadSite] returns, in the
    state [st], for the entries [names] of the sites directory. *)
Definition populated (names : list string) (st st1 : @St W) : Prop :=
  cache_holds (slice (sitesCache st))
              (λ s, ∃ n, n ∈ site_files names ∧ load_of st n = inr s) st1.



End store_vocabulary.

(* ------------------------------------------------------------------------- *)
(** * The later revision: options of the root command *)
(* ------------------------------------------------------------------------- *)

(** [globalOpts], as far as the commands read it. *)
Module root.

Record globalOptions : Type := mkGlobalOptions {
  dryRun : bool;
  forceUpdateTree : bool;
  noPush : bool
}.

End root.

(** [syncOptions] of the later revision of the sync command. *)
Module sync2.

Record syncOptions : Type := mkSyncOptions {
  all : bool;
  noPush : bool;
  noEmail : bool;
  recipientOverride : string
}.

End sync2.

(** The lookups of [newerpol.go] that take a list of states, and the lookup
    of the managed sites: [sqlx_In] is the error of [sqlx.In] for the
    states, [sql_Queryx_in] the rows of [grantsLookupQuery], each as
    [StructScan] yields it, and [sql_Select_managedSites] the result of
    [db.Select] with [managedSitesLookupQuery]. *)
Class ExternalLookup (W : Type) : Type := {
  sqlx_In : list Z → option Err;
  sql_Queryx_in : list Z → W → Err + list (Err + newerpol.AccessRecord);
  sql_Select_managedSites : W → Err + list Z
}.

Definition set_Expiry (e : string) (s : Site) : Site :=
  mkSite (Id s) (FullName s) (Email s) (DisplayEmail s) (Admins s)
         (ImmortalAdmins s) e (Paths s) (Domains s) (Disabled s)
         (DisabledReason s) (Php s) (PhpVersion s) (Passenger s) (Subpaths s)
         (name s) (changed s).

(** [for rows.Next() { ... StructScan ... }]: the rows up to the first one
    that does not scan. *)
Fixpoint scanRows {A} (rows : list (Err + A)) : Err + list A :=
  match rows with
  | [] => inr []
  | inl e :: _ => inl e
  | inr a :: rest =>
      match scanRows rest with
      | inl e => inl e
      | inr l => inr (a :: l)
      end
  end.

Section commands.
Context {W : Type} `{External W} `{ExternalLookup W}.

(** [GetGrantsToAdd] and [GetGrantsToRevoke] of [newerpol.go]: [pending]
    and [finished] are the two states of the verb. *)
Definition GetGrantsIn (pending finished : Z) (IncludeNonPending : bool)
  : @Go W (gmap Z (list newerpol.AccessRecord)) :=
  let states := pending :: (if IncludeNonPending then [finished] else []) in
  check (λ e, "newerpol: Performing grantsLookupQuery IN subsitution: " +:+ e)
        (sqlx_In states) ;;
  st ← get;
  rows ← check_val (λ e, "newerpol: Performing grantsLookupQuery: " +:+ e)
           (sql_Queryx_in states (world st));
  grants ← check_val (λ e, e) (scanRows rows);
  mret (groupByWebsite grants).

Definition GetGrantsToAdd2 :=
  GetGrantsIn newerpol.AccessGrantPending newerpol.AccessGranted.
Definition GetGrantsToRevoke2 :=
  GetGrantsIn newerpol.AccessRevokePending newerpol.AccessRevoked.

Definition GetManagedSiteIds : @Go W (list Z) :=
  st ← get;
  check_val (λ e, "newerpol: Performing managedSitesLookupQuery: " +:+ e)
    (sql_Select_managedSites (world st)).

(** The goroutine of one site in the later revision of [doSync]: a record
    is put on [grantsProcessed] only if it is pending. *)
Fixpoint processGrants2 (verb : Verb) (l : nat)
    (grantRecords : list newerpol.AccessRecord)
  : @Go W (list Z * list newerpol.AccessRecord) :=
  match grantRecords with
  | [] => mret ([], [])
  | accessRecord :: rest =>
      call_site l (match verb with
                   | VAdd => AddAdmin (newerpol.Login accessRecord)
                   | VRevoke => RemoveAdmin (newerpol.Login accessRecord)
                   end) ;;
      s ← deref l;
      rs ← processGrants2 verb l rest;
      mret ((if Changed s then [Id s] else []) ++ rs.1,
            (if newerpol.IsPending accessRecord then [accessRecord] else [])
              ++ rs.2)
  end.

Fixpoint processVerb2 (verb : Verb)
    (entries : list (Z * list newerpol.AccessRecord))
  : @Go W (list Z * list newerpol.AccessRecord) :=
  match entries with
  | [] => mret ([], [])
  | (id, grantRecords) :: rest =>
      site ← fatalf "sync: " (GetSiteById id);
      r ← match site with
          | None => mret (([] : list Z), ([] : list newerpol.AccessRecord))
          | Some l => processGrants2 verb l grantRecords
          end;
      rs ← processVerb2 verb rest;
      mret (r.1 ++ rs.1, r.2 ++ rs.2)
  end.

Definition syncApply2 (o : sync2.syncOptions)
  : @Go W (list Z * list newerpol.AccessRecord) :=
  st ← get;
  check (λ e, "sync: " +:+ e) (sql_Connect (world st)) ;;
  add ← fatalf "sync: " (GetGrantsToAdd2 (sync2.all o));
  revoke ← fatalf "sync: " (GetGrantsToRevoke2 (sync2.all o));
  r1 ← processVerb2 VAdd (map_to_list add);
  r2 ← processVerb2 VRevoke (map_to_list revoke);
  mret (r1.1 ++ r2.1, r1.2 ++ r2.2).

(** The switches the commit step and the finishing loop read, which the
    later revision takes from [globalOpts] and [syncOpts]. *)
Definition syncOptions_of (g : root.globalOptions) (o : sync2.syncOptions)
  : syncOptions :=
  mkSyncOptions (root.dryRun g) (root.forceUpdateTree g) (root.noPush g)
                (sync2.noEmail o) (sync2.recipientOverride o).

(** [doSync] of the later revision; from the commit step on it is the
    text of [sync.go]. *)
Definition doSync2 (g : root.globalOptions) (o : sync2.syncOptions) : @Go W unit :=
  r ← syncApply2 o;
  syncCommit (syncOptions_of g o) r.1 ;;
  syncFinish (syncOptions_of g o) r.2.

(** The loop of [resetExpiry] and of [resetAdmins] over the sites: the
    field is assigned, the site marked, and its id entered. *)
Fixpoint resetSites (assign : Site → Site) (sites : list nat)
    (siteIdsToCommit : gmap Z bool) : @Go W (gmap Z bool) :=
  match sites with
  | [] => mret siteIdsToCommit
  | l :: rest =>
      call_site l assign ;;
      call_site l MarkAsChanged ;;
      s ← deref l;
      resetSites assign rest (<[Id s := true]> siteIdsToCommit)
  end.

(** [resetExpiry]; [date] is [date.Format("2006-01-02")]. *)
Definition resetExpiry (g : root.globalOptions) (date : string) : @Go W unit :=
  sites ← fatalf "reset-expiry: Getting all sites: " GetAllSites;
  siteIdsToCommit ← resetSites (set_Expiry date) sites ∅;
  let commitOpts :=
    mkCommitSitesOptions (Some siteIdsToCommit)
      ("Reset expiry date to " +:+ date) "reset expiry"
      (root.dryRun g) (root.forceUpdateTree g) (root.noPush g) in
  fatalf "reset-expiry: " (CommitSites commitOpts).

(** The loop of [resetAdmins] over the managed sites.  A site that is not
    in the store is reported and then used all the same. *)
Fixpoint resetManaged (managedSiteIds : list Z)
    (siteIdsToCommit : gmap Z bool) : @Go W (gmap Z bool) :=
  match managedSiteIds with
  | [] => mret siteIdsToCommit
  | id :: rest =>
      site ← fatalf "reset-admins: " (GetSiteById id);
      match site with
      | None => fail "nil pointer dereference"
      | Some l =>
          call_site l (set_Admins []) ;;
          call_site l MarkAsChanged ;;
          s ← deref l;
          resetManaged rest (<[Id s := true]> siteIdsToCommit)
      end
  end.

Definition resetAdmins (g : root.globalOptions) (allSites : bool) : @Go W unit :=
  siteIdsToCommit ←
    (if allSites then
       sites ← fatalf "reset-admins: Getting all sites: " GetAllSites;
       resetSites (set_Admins []) sites ∅
     else
       st ← get;
       check (λ e, "reset-admins: " +:+ e) (sql_Connect (world st)) ;;
       managedSiteIds ←
         fatalf "reset-admins: Getting managed site ids: " GetManagedSiteIds;
       resetManaged managedSiteIds ∅);
  let commitOpts :=
    mkCommitSitesOptions (Some siteIdsToCommit)
      (if allSites then "Reset admins (all sites)"
       else "Reset admins (eActivities managed sites only)")
      "reset admins"
      (root.dryRun g) (root.forceUpdateTree g) (root.noPush g) in
  fatalf "reset-admins: " (CommitSites commitOpts).

End commands.

(** The lookups in the example world: every row scans, and the managed
    sites are those a row refers to. *)
#[global] Instance sim_lookup : ExternalLookup SimWorld := {|
  sqlx_In states := None;
  sql_Queryx_in states w :=
    inr (inr <$> filter (λ a, newerpol.RequestStatus a ∈ states) (sim_rows w));
  sql_Select_managedSites w := inr (newerpol.WebsiteId <$> sim_rows w)
|}.

Definition global_opts_default : root.globalOptions :=
  root.mkGlobalOptions false false false.


(* ========================================================================= *)
(** * Properties *)
(* ========================================================================= *)

Example AddAdmin_ex1 :
  Admins (AddAdmin "bob" (set_Admins ["alice"; "carol"] NewSite))
  = ["alice"; "bob"; "carol"].
Proof. reflexivity. Qed.

Example RemoveAdmin_ex1 :
  Admins (RemoveAdmin "bob" (set_Admins ["alice"; "bob"; "carol"] NewSite))
  = ["alice"; "carol"].
Proof. reflexivity. Qed.

Example AddAdmin_ex2 :
  AddAdmin "a" (set_Admins ["b"; "a"] NewSite) = set_Admins ["a"; "b"] NewSite.
Proof. reflexivity. Qed.

Example SearchStrings_ex :
  gosort.SearchStrings ["a"; "c"; "e"] "d" = 2 ∧
  gosort.SearchStrings ["a"; "c"; "e"] "c" = 1 ∧
  gosort.SearchStrings ["a"; "c"; "e"] "z" = 3.
Proof. by vm_compute. Qed.

(** A whole sync run in the example world: the store is read, the grant is
    applied, one commit is created and pushed, the grant is finalized and
    the user is told. *)
Example doSync_ex :
  trace_of (doSync sync_opts_default sim_sync_st) =
  [EvReadDir "/cdb/sites"; EvReadFile "/cdb/sites/club.yaml"; EvStatus; EvPull;
   EvSave "club"; EvWriteFile "/cdb/sites/club.yaml" "club: alice,bob";
   EvStage "sites/club.yaml"; EvStatus;
   EvCommit "sites: Update admins. Sites changed: 1 (cmd=pugo sync, src=newerpol)"
            "pugo" "pugo@example.com";
   EvPush; EvCommitSites None; EvStartWorker;
   EvExec newerpol.grantPendingToGrantedQuery 7 1;
   EvFinishGrant grant0 true None;
   EvEnqueue (email.mkEmailOptions "Chess" "bob@example.com" "Bob B" "Bob"
                "club" "Website Access Granted" "granted") "Dear Bob";
   EvShutdownWorker].
Proof. vm_compute. reflexivity. Qed.

(** The same run with [--dry-run]: nothing is written, committed, finalized
    or sent. *)
Example doSync_dry_ex :
  trace_of (doSync (mkSyncOptions true false false false "") sim_sync_st) =
  [EvReadDir "/cdb/sites"; EvReadFile "/cdb/sites/club.yaml"; EvStatus; EvPull;
   EvStatus; EvCommitSites None].
Proof. vm_compute. reflexivity. Qed.

(** Finalizing the same grant a second time updates no row. *)
Example FinishGrant_twice_ex :
  result_of (FinishGrant grant7 sim_ledger_st) = inr true ∧
  result_of (FinishGrant grant7 (state_of (FinishGrant grant7 sim_ledger_st)))
  = inr false.
Proof. by vm_compute. Qed.

(* ------------------------------------------------------------------------- *)
(** ** [sort.Strings] and [sort.SearchStrings] *)
(* ------------------------------------------------------------------------- *)

Section sort_facts.
Implicit Types (a l : list string) (x y : string).

Lemma String_le_leb x y : String.le x y ↔ String.leb x y = true.
Proof. unfold String.le. apply Is_true_true. Qed.

Lemma String_le_nle x y : ¬ String.le x y → String.le y x.
Proof. intros H. by destruct (total String.le x y). Qed.

Lemma Strings_sorted a : StronglySorted String.le (gosort.Strings a).
Proof. apply StronglySorted_merge_sort; apply _. Qed.

Lemma Strings_perm a : gosort.Strings a ≡ₚ a.
Proof. apply merge_sort_Permutation. Qed.

(** Whatever algorithm [sort.Strings] runs, its result is this one. *)
Lemma Strings_unique a b :
  Sorted String.le b → b ≡ₚ a → b = gosort.Strings a.
Proof.
  intros Hs Hp. apply (StronglySorted_unique String.le).
  - by apply Sorted_StronglySorted; [apply _|].
  - apply Strings_sorted.
  - by rewrite Hp, Strings_perm.
Qed.

Lemma Strings_id a : Sorted String.le a → gosort.Strings a = a.
Proof. intros Hs. symmetry. by apply Strings_unique. Qed.

Lemma Strings_length a : length (gosort.Strings a) = length a.
Proof. by rewrite Strings_perm. Qed.

Lemma Strings_elem_of a x : x ∈ gosort.Strings a ↔ x ∈ a.
Proof. by rewrite Strings_perm. Qed.

Lemma StronglySorted_lookup_lt l i j x y :
  StronglySorted String.le l → l !! i = Some x → l !! j = Some y → i < j →
  String.le x y.
Proof.
  intros Hs Hi Hj Hij. rewrite <-(take_drop j l) in Hs.
  eapply StronglySorted_app_1_elem_of; [exact Hs| |].
  - apply list_elem_of_lookup. exists i. by apply lookup_take_Some.
  - apply list_elem_of_lookup. exists 0. by rewrite lookup_drop, Nat.add_0_r.
Qed.

Lemma half_bounds i j : i < j → i ≤ (i + j) / 2 < j.
Proof.
  intros Hij. split.
  - apply Nat.div_le_lower_bound; lia.
  - apply Nat.Div0.div_lt_upper_bound; lia.
Qed.

(** The loop of [sort.Search] finds the boundary of a monotone predicate,
    provided the fuel covers the width of the interval. *)
Lemma search_loop_fuel (f : nat → bool) n fuel i j :
  (∀ k k', k ≤ k' → k' < n → f k = true → f k' = true) →
  i ≤ j → j ≤ n → j - i ≤ fuel →
  (∀ k, k < i → f k = false) →
  (∀ k, j ≤ k → k < n → f k = true) →
  let r := gosort.search_loop fuel f i j in
  i ≤ r ∧ r ≤ j ∧ (∀ k, k < r → f k = false) ∧ (∀ k, r ≤ k → k < n → f k = true).
Proof.
  intros Hmono. revert i j.
  induction fuel as [|fuel IH]; intros i j Hij Hjn Hfuel Hlo Hhi;
    cbn [gosort.search_loop].
  - assert (i = j) as -> by lia. eauto.
  - destruct (Nat.ltb_spec i j) as [Hlt|Hge].
    + pose proof (half_bounds i j Hlt) as [Hh1 Hh2].
      destruct (f ((i + j) / 2)) eqn:Hf; cbn [negb].
      * destruct (IH i ((i + j) / 2)) as (?&?&?&?); try lia; auto.
        { intros k Hk Hkn. apply (Hmono ((i + j) / 2)); auto. }
        repeat split; auto; lia.
      * destruct (IH ((i + j) / 2 + 1) j) as (?&?&?&?); try lia; auto.
        { intros k Hk. destruct (f k) eqn:Hfk; [|done].
          rewrite <-Hf. symmetry. apply (Hmono k); auto; lia. }
        repeat split; auto; lia.
    + assert (i = j) as -> by lia. eauto.
Qed.

(** On a sorted slice [SearchStrings] returns the insertion point of [x]:
    everything before it is strictly smaller, everything from it on is at
    least [x]. *)
Lemma SearchStrings_spec a x :
  StronglySorted String.le a →
  let pos := gosort.SearchStrings a x in
  pos ≤ length a ∧
  Forall (λ y, ¬ String.le x y) (take pos a) ∧
  Forall (λ y, String.le x y) (drop pos a).
Proof.
  intros Hs. unfold gosort.SearchStrings, gosort.Search.
  destruct (search_loop_fuel (λ i, String.leb x (a !!! i)) (length a)
              (length a) 0 (length a)) as (_&Hr&Hlo&Hhi);
    [|lia|lia|lia|intros; lia|intros; lia|].
  - intros k k' Hk Hk' Hf. apply String_le_leb. apply String_le_leb in Hf.
    destruct (decide (k = k')) as [->|Hne]; [done|].
    etrans; [exact Hf|].
    assert (k < length a) as Hkl by lia.
    apply list_lookup_lookup_total_lt in Hkl, Hk'.
    eapply (StronglySorted_lookup_lt a k k'); eauto; lia.
  - simpl. set (pos := gosort.search_loop _ _ _ _) in *.
    split; [done|]. split; apply Forall_lookup; intros i y Hi.
    + apply lookup_take_Some in Hi as [Hi Hlt].
      rewrite String_le_leb. apply list_lookup_total_correct in Hi as <-.
      by rewrite Hlo.
    + rewrite lookup_drop in Hi.
      pose proof (lookup_lt_Some _ _ _ Hi).
      rewrite String_le_leb. apply list_lookup_total_correct in Hi as <-.
      apply Hhi; lia.
Qed.

End sort_facts.

(* ------------------------------------------------------------------------- *)
(** ** The slice surgery of [AddAdmin] and [RemoveAdmin] *)
(* ------------------------------------------------------------------------- *)

(** [append(a, ""); copy(a[pos+1:], a[pos:]); a[pos] = u] opens a gap at
    [pos] and puts [u] there. *)
Lemma slice_insert_app (l1 l2 : list string) (u : string) :
  <[length l1 := u]> (slice_copy (length l1 + 1) (length l1) ((l1 ++ l2) ++ [""]))
  = l1 ++ u :: l2.
Proof.
  unfold slice_copy. rewrite !length_app. simpl.
  replace (length l1 + length l2 + 1 - (length l1 + 1)) with (length l2) by lia.
  replace (length l1 + length l2 + 1 - length l1) with (length l2 + 1) by lia.
  rewrite Nat.min_l by lia.
  rewrite <-(assoc_L (++) l1 l2 [""]).
  rewrite drop_app_length, take_app_length.
  rewrite drop_ge by (rewrite !length_app; simpl; lia).
  rewrite app_nil_r.
  rewrite take_app_add.
  rewrite <-(assoc_L (++)).
  rewrite <-(Nat.add_0_r (length l1)) at 1.
  rewrite insert_app_r.
  by destruct l2.
Qed.

Lemma slice_insert (a : list string) (pos : nat) (u : string) :
  pos ≤ length a →
  <[pos := u]> (slice_copy (pos + 1) pos (a ++ [""])) = take pos a ++ u :: drop pos a.
Proof.
  intros Hpos. rewrite <-(take_drop pos a) at 1.
  assert (length (take pos a) = pos) as Hl by (rewrite length_take; lia).
  rewrite <-Hl at 1 2 3. apply slice_insert_app.
Qed.

(** [copy(a[pos:], a[pos+1:]); a[len-1] = ""; a = a[:len-1]] closes the gap
    at [pos]. *)
Lemma slice_remove_app (l1 l2 : list string) (y : string) :
  let a := l1 ++ y :: l2 in
  let pos := length l1 in
  let a1 := if pos <? length a - 1 then slice_copy pos (pos + 1) a else a in
  let a2 := <[length a1 - 1 := ""]> a1 in
  take (length a2 - 1) a2 = l1 ++ l2.
Proof.
  intros a pos a1 a2.
  assert (length a = length l1 + S (length l2)) as Hlen
    by (unfold a; rewrite length_app; done).
  assert (length a1 = length a ∧ take (length a - 1) a1 = l1 ++ l2) as [Hl1 Ht].
  { unfold a1. destruct (Nat.ltb_spec pos (length a - 1)) as [Hlt|Hge].
    - unfold slice_copy, pos. rewrite Hlen.
      replace (length l1 + S (length l2) - length l1) with (S (length l2)) by lia.
      replace (length l1 + S (length l2) - (length l1 + 1)) with (length l2) by lia.
      rewrite Nat.min_r by lia. unfold a.
      rewrite take_app_length, !drop_app_add.
      change (drop 1 (y :: l2)) with l2. rewrite take_ge by lia.
      rewrite !length_app, length_drop. simpl.
      split; [lia|].
      rewrite !(assoc_L (++)).
      replace (length l1 + S (length l2) - 1) with (length (l1 ++ l2))
        by (rewrite length_app; lia).
      by rewrite take_app_length.
    - assert (l2 = []) as -> by (destruct l2; [done|simpl in *; unfold pos in *; lia]).
      split; [done|]. rewrite Hlen. unfold a. simpl.
      replace (length l1 + 1 - 1) with (length l1) by lia.
      by rewrite take_app_length, app_nil_r. }
  unfold a2. rewrite length_insert, Hl1, take_insert_ge by lia. exact Ht.
Qed.

Lemma slice_remove (a : list string) (pos : nat) :
  pos < length a →
  let a1 := if pos <? length a - 1 then slice_copy pos (pos + 1) a else a in
  let a2 := <[length a1 - 1 := ""]> a1 in
  take (length a2 - 1) a2 = delete pos a.
Proof.
  intros Hpos.
  destruct (lookup_lt_is_Some_2 a pos Hpos) as [y Hy].
  rewrite delete_take_drop.
  pose proof (take_drop_middle a pos y Hy) as Ha.
  assert (length (take pos a) = pos) as Hl by (rewrite length_take; lia).
  pose proof (slice_remove_app (take pos a) (drop (S pos) a) y) as H.
  rewrite Ha, Hl in H. exact H.
Qed.

(* ------------------------------------------------------------------------- *)
(** ** [AddAdmin] and [RemoveAdmin] on the access list *)
(* ------------------------------------------------------------------------- *)

Section admins.
Implicit Types (a l : list string) (u x y : string) (s : Site).

Lemma sorted_set_strongly l :
  sorted_set l ↔ StronglySorted String.le l ∧ NoDup l ∧ "" ∉ l.
Proof.
  unfold sorted_set. split; intros (Hs&?&?); split_and!; auto.
  - by apply Sorted_StronglySorted; [apply _|].
  - by apply StronglySorted_Sorted.
Qed.

(** The test [pos < len(a) && a[pos] == u] of both methods decides whether
    [u] occurs in the sorted slice. *)
Lemma found_iff a u :
  StronglySorted String.le a →
  let pos := gosort.SearchStrings a u in
  (pos <? length a) && String.eqb (a !!! pos) u = true ↔ u ∈ a.
Proof.
  intros Hs pos. destruct (SearchStrings_spec a u Hs) as (Hle&Hlo&Hhi).
  fold pos in Hle, Hlo, Hhi.
  rewrite andb_true_iff, Nat.ltb_lt, String.eqb_eq. split.
  - intros [Hlt Heq]. rewrite <-Heq. by apply list_elem_of_lookup_total_2.
  - intros Hu. rewrite <-(take_drop pos a) in Hu.
    apply elem_of_app in Hu as [Hu|Hu].
    { rewrite Forall_forall in Hlo. by destruct (Hlo u Hu). }
    assert (pos < length a) as Hlt.
    { destruct (decide (pos < length a)); [done|].
      rewrite drop_ge in Hu by lia. by apply elem_of_nil in Hu. }
    split; [done|].
    destruct (lookup_lt_is_Some_2 a pos Hlt) as [y Hy].
    rewrite (list_lookup_total_correct _ _ _ Hy).
    rewrite (drop_S _ _ _ Hy) in Hu, Hhi.
    apply Forall_cons in Hhi as [Huy _].
    apply elem_of_cons in Hu as [->|Hu]; [done|].
    apply (anti_symm String.le); [|done].
    rewrite <-(take_drop pos a), (drop_S _ _ _ Hy) in Hs.
    apply StronglySorted_app_1_r, StronglySorted_cons in Hs as [Hall _].
    rewrite Forall_forall in Hall. by apply Hall.
Qed.

(** What [AddAdmin] leaves in [Admins] and in [changed]. *)
Lemma AddAdmin_unfold u s :
  u ≠ "" →
  let a := gosort.Strings (Admins s) in
  let pos := gosort.SearchStrings a u in
  (u ∈ Admins s → AddAdmin u s = set_Admins a s) ∧
  (u ∉ Admins s →
     AddAdmin u s = set_changed true (set_Admins (take pos a ++ u :: drop pos a) s)).
Proof.
  intros Hu a pos. unfold AddAdmin.
  apply String.eqb_neq in Hu. rewrite Hu. fold a. fold pos.
  pose proof (found_iff a u (Strings_sorted _)) as Hf. cbv zeta in Hf. fold pos in Hf.
  pose proof (SearchStrings_spec a u (Strings_sorted _)) as (Hle&_). fold pos in Hle.
  split; intros Hin.
  - apply Strings_elem_of, Hf in Hin. fold a in Hin. by rewrite Hin.
  - assert ((pos <? length a) && String.eqb (a !!! pos) u = false) as ->.
    { apply not_true_is_false. intros E. apply Hf in E. unfold a in E. by rewrite Strings_elem_of in E. }
    do 2 f_equal. destruct (Nat.eqb_spec pos (length a)) as [Heq|Hne].
    + by rewrite Heq, firstn_all, drop_all.
    + by apply slice_insert.
Qed.

(** What [RemoveAdmin] leaves in [Admins] and in [changed]. *)
Lemma RemoveAdmin_unfold u s :
  u ≠ "" →
  let a := gosort.Strings (Admins s) in
  let pos := gosort.SearchStrings a u in
  (u ∈ Admins s →
     a !! pos = Some u ∧
     RemoveAdmin u s = set_changed true (set_Admins (delete pos a) s)) ∧
  (u ∉ Admins s → RemoveAdmin u s = set_Admins a s).
Proof.
  intros Hu a pos. unfold RemoveAdmin.
  apply String.eqb_neq in Hu. rewrite Hu. fold a. fold pos.
  pose proof (found_iff a u (Strings_sorted _)) as Hf. cbv zeta in Hf. fold pos in Hf.
  split; intros Hin.
  - apply Strings_elem_of, Hf in Hin. fold a in Hin. rewrite Hin.
    apply andb_true_iff in Hin as [Hlt Heq].
    apply Nat.ltb_lt in Hlt. apply String.eqb_eq in Heq.
    split.
    + rewrite <-Heq. by apply list_lookup_lookup_total_lt.
    + do 2 f_equal. by apply slice_remove.
  - assert ((pos <? length a) && String.eqb (a !!! pos) u = false) as ->; [|done].
    apply not_true_is_false. intros E. apply Hf in E. unfold a in E.
    by rewrite Strings_elem_of in E.
Qed.

Lemma set_Admins_id s : set_Admins (Admins s) s = s.
Proof. by destruct s. Qed.

(** Inserting at the position found keeps the slice sorted. *)
Lemma insert_sorted a u :
  StronglySorted String.le a →
  let pos := gosort.SearchStrings a u in
  StronglySorted String.le (take pos a ++ u :: drop pos a).
Proof.
  intros Hs pos. destruct (SearchStrings_spec a u Hs) as (Hle&Hlo&Hhi).
  fold pos in Hle, Hlo, Hhi. rewrite Forall_forall in Hlo.
  rewrite <-(take_drop pos a) in Hs.
  apply StronglySorted_app_2.
  - intros x1 x2 H1 H2. pose proof (String_le_nle _ _ (Hlo x1 H1)) as Hx1.
    apply elem_of_cons in H2 as [->|H2]; [done|].
    etrans; [exact Hx1|]. rewrite Forall_forall in Hhi. by apply Hhi.
  - by apply StronglySorted_app_1_l in Hs.
  - apply StronglySorted_cons. split; [done|].
    by apply StronglySorted_app_1_r in Hs.
Qed.

Lemma delete_sorted a i :
  StronglySorted String.le a → StronglySorted String.le (delete i a).
Proof.
  intros Hs. destruct (a !! i) as [y|] eqn:Hy.
  - rewrite delete_take_drop.
    rewrite <-(take_drop_middle a i y Hy) in Hs.
    apply StronglySorted_app in Hs as (H12&H1&H2).
    apply StronglySorted_cons in H2 as [_ H2].
    apply StronglySorted_app_2; auto.
    intros x1 x2 ??. apply H12; [done|]. by apply elem_of_cons; right.
  - apply lookup_ge_None in Hy.
    by rewrite delete_take_drop, take_ge, drop_ge, app_nil_r by lia.
Qed.

End admins.

Section admins_results.
Implicit Types (a l : list string) (u x y : string) (s : Site).

Lemma Admins_set_Admins a s : Admins (set_Admins a s) = a.
Proof. done. Qed.

Lemma changed_set_Admins a s : changed (set_Admins a s) = changed s.
Proof. done. Qed.

(** After a call with a non-empty name the slice is sorted, whatever it was
    before. *)
Lemma AddAdmin_sorted u s :
  u ≠ "" → StronglySorted String.le (Admins (AddAdmin u s)).
Proof.
  intros Hu. destruct (AddAdmin_unfold u s Hu) as [Hin Hout].
  destruct (decide (u ∈ Admins s)) as [H|H].
  - rewrite (Hin H). apply Strings_sorted.
  - rewrite (Hout H). apply insert_sorted, Strings_sorted.
Qed.

Lemma RemoveAdmin_sorted u s :
  u ≠ "" → StronglySorted String.le (Admins (RemoveAdmin u s)).
Proof.
  intros Hu. destruct (RemoveAdmin_unfold u s Hu) as [Hin Hout].
  destruct (decide (u ∈ Admins s)) as [H|H].
  - destruct (Hin H) as [_ ->]. apply delete_sorted, Strings_sorted.
  - rewrite (Hout H). apply Strings_sorted.
Qed.

Lemma AddAdmin_empty s : AddAdmin "" s = s.
Proof. done. Qed.

Lemma RemoveAdmin_empty s : RemoveAdmin "" s = s.
Proof. done. Qed.

(** On a sorted set, adding a new name splits the list at the place where
    the name belongs. *)
Lemma AddAdmin_new u s :
  sorted_set (Admins s) → u ≠ "" → u ∉ Admins s →
  ∃ l1 l2, Admins s = l1 ++ l2 ∧ Admins (AddAdmin u s) = l1 ++ u :: l2 ∧
           sorted_set (l1 ++ u :: l2).
Proof.
  intros Hinv Hu Hnin. destruct Hinv as (Hs&Hnd&Hne).
  destruct (AddAdmin_unfold u s Hu) as [_ Hout]. specialize (Hout Hnin).
  rewrite (Strings_id _ Hs) in Hout.
  set (pos := gosort.SearchStrings (Admins s) u) in *.
  exists (take pos (Admins s)), (drop pos (Admins s)).
  split; [by rewrite take_drop|]. split; [by rewrite Hout|].
  assert (take pos (Admins s) ++ u :: drop pos (Admins s) ≡ₚ u :: Admins s) as Hp.
  { by rewrite <-Permutation_middle, take_drop. }
  apply sorted_set_strongly. split_and!.
  - apply insert_sorted. by apply Sorted_StronglySorted; [apply _|].
  - rewrite Hp. by apply NoDup_cons.
  - rewrite Hp. intros [?|?]%elem_of_cons; [by subst|done].
Qed.

(** On a sorted set, removing a name that is present takes out its one
    occurrence. *)
Lemma RemoveAdmin_present u s :
  sorted_set (Admins s) → u ∈ Admins s →
  ∃ l1 l2, Admins s = l1 ++ u :: l2 ∧ Admins (RemoveAdmin u s) = l1 ++ l2 ∧
           (u ∉ l1 ++ l2) ∧ sorted_set (l1 ++ l2).
Proof.
  intros Hinv Hin. destruct Hinv as (Hs&Hnd&Hne).
  assert (u ≠ "") as Hu by (intros ->; done).
  destruct (RemoveAdmin_unfold u s Hu) as [Hpres _].
  destruct (Hpres Hin) as [Hpos Heq]. clear Hpres.
  rewrite (Strings_id _ Hs) in Hpos, Heq.
  set (pos := gosort.SearchStrings (Admins s) u) in *.
  exists (take pos (Admins s)), (drop (S pos) (Admins s)).
  pose proof (take_drop_middle _ _ _ Hpos) as Hmid.
  split; [done|]. split; [by rewrite Heq, <-delete_take_drop|].
  pose proof Hnd as Hnd'.
  rewrite <-Hmid in Hnd. apply NoDup_app in Hnd as (Hn1&Hn12&Hn2).
  apply NoDup_cons in Hn2 as [Hn2 Hn3].
  split.
  - intros [H|H]%elem_of_app; [|done]. apply (Hn12 u H). by left.
  - apply sorted_set_strongly. rewrite <-delete_take_drop. split_and!.
    + apply delete_sorted. by apply Sorted_StronglySorted; [apply _|].
    + eapply sublist_NoDup; [exact Hnd'|]. apply sublist_delete.
    + intros H%list_elem_of_delete_inv. done.
Qed.

Lemma apply_op_sorted_set o s :
  sorted_set (Admins s) → sorted_set (Admins (apply_op o s)).
Proof.
  intros Hinv. pose proof Hinv as (Hs&Hnd&Hne).
  destruct o as [u|u]; simpl.
  - destruct (decide (u = "")) as [->|Hu]; [done|].
    destruct (decide (u ∈ Admins s)) as [Hin|Hnin].
    + destruct (AddAdmin_unfold u s Hu) as [H _]. rewrite (H Hin).
      by rewrite Admins_set_Admins, Strings_id.
    + destruct (AddAdmin_new u s Hinv Hu Hnin) as (l1&l2&_&->&?). done.
  - destruct (decide (u = "")) as [->|Hu]; [done|].
    destruct (decide (u ∈ Admins s)) as [Hin|Hnin].
    + destruct (RemoveAdmin_present u s Hinv Hin) as (l1&l2&_&->&_&?). done.
    + destruct (RemoveAdmin_unfold u s Hu) as [_ H]. rewrite (H Hnin).
      by rewrite Admins_set_Admins, Strings_id.
Qed.

Lemma apply_ops_sorted_set ops s :
  sorted_set (Admins s) → sorted_set (Admins (apply_ops ops s)).
Proof.
  revert s. induction ops as [|o ops IH]; intros s Hinv; [done|].
  apply IH, apply_op_sorted_set, Hinv.
Qed.

End admins_results.

(** C1.  Starting from an access list that is sorted, free of duplicates and
    free of the empty string, every run of [AddAdmin]/[RemoveAdmin] calls ends
    in such a list; [AddAdmin] leaves the record alone on the empty name and
    puts a new name at its sorted position, [RemoveAdmin] takes out the one
    matching entry. *)
Theorem admins_sorted_set_invariant (ops : list AdminOp) (s : Site) :
  sorted_set (Admins s) →
  sorted_set (Admins (apply_ops ops s))
  ∧ AddAdmin "" s = s
  ∧ (∀ u, u ≠ "" → u ∉ Admins s →
       ∃ l1 l2, Admins s = l1 ++ l2 ∧ Admins (AddAdmin u s) = l1 ++ u :: l2 ∧
                sorted_set (l1 ++ u :: l2))
  ∧ (∀ u, u ∈ Admins s →
       ∃ l1 l2, Admins s = l1 ++ u :: l2 ∧ Admins (RemoveAdmin u s) = l1 ++ l2 ∧
                (u ∉ l1 ++ l2) ∧ sorted_set (l1 ++ l2)).
Proof.
  intros Hinv. split_and!.
  - by apply apply_ops_sorted_set.
  - done.
  - intros u Hu Hnin. by apply AddAdmin_new.
  - intros u Hin. by apply RemoveAdmin_present.
Qed.

Lemma admins_sorted_set_invariant_witness :
  sorted_set (Admins site_ac) ∧
  sorted_set (Admins (apply_ops [OpAdd "bob"; OpRemove "alice"; OpAdd ""] site_ac)).
Proof.
  assert (sorted_set (Admins site_ac)) as H
    by (apply (bool_decide_unpack _); vm_compute; exact I).
  split; [exact H|].
  exact (proj1 (admins_sorted_set_invariant _ site_ac H)).
Defined.

(* ------------------------------------------------------------------------- *)
(** ** Calls that change no membership *)
(* ------------------------------------------------------------------------- *)

(** C8, as stated, fails: on a record whose list is not sorted, adding a name
    that is present (or removing one that is absent) reorders the list. *)
Lemma noop_call_reorders_unsorted :
  ("a" ∈ Admins site_unsorted ∧ AddAdmin "a" site_unsorted ≠ site_unsorted) ∧
  (("c" ∉ Admins site_unsorted) ∧ RemoveAdmin "c" site_unsorted ≠ site_unsorted).
Proof.
  split; (split; [by apply (bool_decide_unpack _)|]);
    intros H; apply (f_equal Admins) in H; vm_compute in H; discriminate H.
Qed.

(** C8, amended.  Adding a present name or removing an absent one never
    touches the changed flag nor any field but [Admins]; [Admins] is replaced
    by a rearrangement of itself, the sorted one when the name is not empty,
    and so is left as it is when it was sorted (or when the name is empty). *)
Theorem noop_call_frame (s : Site) (u : string) :
  (u ∈ Admins s →
     ∃ a, AddAdmin u s = set_Admins a s ∧ a ≡ₚ Admins s ∧
          (u ≠ "" → a = gosort.Strings (Admins s)) ∧
          changed (AddAdmin u s) = changed s ∧
          (Sorted String.le (Admins s) ∨ u = "" → AddAdmin u s = s)) ∧
  (u ∉ Admins s →
     ∃ a, RemoveAdmin u s = set_Admins a s ∧ a ≡ₚ Admins s ∧
          (u ≠ "" → a = gosort.Strings (Admins s)) ∧
          changed (RemoveAdmin u s) = changed s ∧
          (Sorted String.le (Admins s) ∨ u = "" → RemoveAdmin u s = s)).
Proof.
  destruct (decide (u = "")) as [->|Hu].
  { split; intros _; exists (Admins s);
      rewrite ?AddAdmin_empty, ?RemoveAdmin_empty, set_Admins_id; done. }
  split; intros Hin.
  - destruct (AddAdmin_unfold u s Hu) as [H _]. rewrite (H Hin).
    exists (gosort.Strings (Admins s)).
    split_and!; [done|apply Strings_perm|done|done|].
    intros [Hs|?]; [|done]. by rewrite (Strings_id _ Hs), set_Admins_id.
  - destruct (RemoveAdmin_unfold u s Hu) as [_ H]. rewrite (H Hin).
    exists (gosort.Strings (Admins s)).
    split_and!; [done|apply Strings_perm|done|done|].
    intros [Hs|?]; [|done]. by rewrite (Strings_id _ Hs), set_Admins_id.
Qed.

Lemma noop_call_frame_witness :
  "alice" ∈ Admins site_ac ∧
  ∃ a, AddAdmin "alice" site_ac = set_Admins a site_ac ∧ a ≡ₚ Admins site_ac ∧
       ("alice" ≠ "" → a = gosort.Strings (Admins site_ac)) ∧
       changed (AddAdmin "alice" site_ac) = changed site_ac ∧
       (Sorted String.le (Admins site_ac) ∨ "alice" = "" →
        AddAdmin "alice" site_ac = site_ac).
Proof.
  assert ("alice" ∈ Admins site_ac) as H by (by apply (bool_decide_unpack _)).
  split; [exact H|].
  exact (proj1 (noop_call_frame site_ac "alice") H).
Defined.

(** C10.  Both methods sort [Admins] in place before they search.  There is
    a record with an unsorted list on which adding a present, non-empty name
    changes the order of the list and leaves the changed flag false, and
    likewise for removing an absent, non-empty name.  The empty name leaves
    the record as it is, and on an unsorted list it is the only input that
    leaves the list as it is. *)
Theorem sort_in_place_observable :
  (∃ s u, u ≠ "" ∧ u ∈ Admins s ∧ ¬ Sorted String.le (Admins s) ∧
          Admins (AddAdmin u s) ≠ Admins s ∧
          Admins (AddAdmin u s) ≡ₚ Admins s ∧
          changed s = false ∧ changed (AddAdmin u s) = false) ∧
  (∃ s u, u ≠ "" ∧ (u ∉ Admins s) ∧ ¬ Sorted String.le (Admins s) ∧
          Admins (RemoveAdmin u s) ≠ Admins s ∧
          Admins (RemoveAdmin u s) ≡ₚ Admins s ∧
          changed s = false ∧ changed (RemoveAdmin u s) = false) ∧
  (∀ s, AddAdmin "" s = s ∧ RemoveAdmin "" s = s) ∧
  (∀ s u, ¬ Sorted String.le (Admins s) →
          (Admins (AddAdmin u s) = Admins s ↔ u = "") ∧
          (Admins (RemoveAdmin u s) = Admins s ↔ u = "")).
Proof.
  assert (¬ Sorted String.le (Admins site_unsorted)) as Hns
    by (by apply (bool_decide_unpack _)).
  split_and!.
  - exists site_unsorted, "a". split_and!; try done.
    + by apply (bool_decide_unpack _).
    + by apply (bool_decide_unpack _).
  - exists site_unsorted, "c". split_and!; try done.
    + by apply (bool_decide_unpack _).
    + by apply (bool_decide_unpack _).
  - done.
  - intros s u Hs. split; (split; [|by intros ->]); intros Heq;
      (destruct (decide (u = "")) as [|Hu]; [done|]); destruct Hs;
      rewrite <-Heq; apply StronglySorted_Sorted.
    + by apply AddAdmin_sorted.
    + by apply RemoveAdmin_sorted.
Qed.

Lemma sort_in_place_observable_witness :
  ¬ Sorted String.le (Admins site_unsorted) ∧
  (Admins (AddAdmin "a" site_unsorted) = Admins site_unsorted ↔ "a" = "").
Proof.
  assert (¬ Sorted String.le (Admins site_unsorted)) as Hns
    by (by apply (bool_decide_unpack _)).
  split; [exact Hns|].
  exact (proj1 (proj2 (proj2 (proj2 sort_in_place_observable)) site_unsorted "a" Hns)).
Defined.

(* ------------------------------------------------------------------------- *)
(** ** The changed flag *)
(* ------------------------------------------------------------------------- *)

Section flag_facts.
Context {W : Type} `{External W}.

Lemma yaml_Unmarshal_changed data s s' :
  yaml_Unmarshal data s = inr s' → changed s' = changed s ∧ name s' = name s.
Proof.
  unfold yaml_Unmarshal. destruct (yaml_decode data s); [done|].
  intros [= <-]. done.
Qed.

(** A record that [LoadSite] returns is not marked as changed. *)
Lemma LoadSite_changed fn st s st' t :
  LoadSite fn st = (inr s, st', t) → changed s = false.
Proof.
  unfold LoadSite. destruct (negb _); [done|].
  unfold mbind, Go_bind, get, emit, check_val, fail, mret, Go_ret. simpl.
  destruct (ioutil_ReadFile _ _) as [e|data]; simpl; [done|].
  destruct (yaml_Unmarshal data _) as [e|s1] eqn:Hu; simpl; [done|].
  intros [= <- _ _]. by apply yaml_Unmarshal_changed in Hu as [-> _].
Qed.

(** [Save] clears the flag when it returns nil and leaves the record as it
    is when it returns an error. *)
Lemma Save_site_changed cfg s w :
  let r := Save_site cfg s w in
  (r.1.1.1 = None → changed r.1.1.2 = false) ∧
  (r.1.1.1 ≠ None → r.1.1.2 = s).
Proof.
  unfold Save_site. destruct (yaml_Marshal s); simpl; [done|].
  destruct (ioutil_WriteFile _ _ _) as [[e|] w']; simpl; done.
Qed.

Lemma AddAdmin_keeps_changed u s : changed s = true → changed (AddAdmin u s) = true.
Proof.
  intros Hc. unfold AddAdmin. destruct (String.eqb u ""); [done|].
  destruct (_ && _); done.
Qed.

Lemma RemoveAdmin_keeps_changed u s :
  changed s = true → changed (RemoveAdmin u s) = true.
Proof.
  intros Hc. unfold RemoveAdmin. destruct (String.eqb u ""); [done|].
  destruct (_ && _); done.
Qed.

(** C9.  The changed flag is false on a new and on a loaded record; it is
    set by [MarkAsChanged], by an [AddAdmin] that inserts and by a
    [RemoveAdmin] that removes; no method but [Save] clears it, and [Save]
    clears it when it succeeds and leaves the record untouched, flag
    included, when marshalling or writing fails. *)
Theorem changed_flag_lifecycle :
  changed NewSite = false
  ∧ (∀ fn st s st' t, LoadSite fn st = (inr s, st', t) → changed s = false)
  ∧ (∀ s, changed (MarkAsChanged s) = true)
  ∧ (∀ u s, u ≠ "" → u ∉ Admins s → changed (AddAdmin u s) = true)
  ∧ (∀ u s, u ≠ "" → u ∈ Admins s → changed (RemoveAdmin u s) = true)
  ∧ (∀ u s, changed s = true →
       changed (AddAdmin u s) = true ∧ changed (RemoveAdmin u s) = true ∧
       changed (MarkAsChanged s) = true)
  ∧ (∀ cfg s w err s' w' t, Save_site cfg s w = (err, s', w', t) →
       (err = None → changed s' = false) ∧
       (err ≠ None → s' = s ∧ changed s' = changed s)).
Proof.
  split_and!.
  - done.
  - apply LoadSite_changed.
  - done.
  - intros u s Hu Hnin. destruct (AddAdmin_unfold u s Hu) as [_ Hn].
    by rewrite (Hn Hnin).
  - intros u s Hu Hin. destruct (RemoveAdmin_unfold u s Hu) as [Hp _].
    destruct (Hp Hin) as [_ ->]. done.
  - intros u s Hc. split_and!; [by apply AddAdmin_keeps_changed
                                |by apply RemoveAdmin_keeps_changed|done].
  - intros cfg s w err s' w' t Hs.
    pose proof (Save_site_changed cfg s w) as [H1 H2]. rewrite Hs in H1, H2.
    simpl in *. split; [done|]. intros Hne. by rewrite (H2 Hne).
Qed.

End flag_facts.

Lemma changed_flag_lifecycle_witness :
  ∃ s st' t, LoadSite "club.yaml" sim_st0 = (inr s, st', t) ∧ changed s = false.
Proof.
  eexists _, _, _. split; [vm_compute; reflexivity|].
  eapply (proj1 (proj2 changed_flag_lifecycle) "club.yaml" sim_st0).
  vm_compute. reflexivity.
Defined.

(* ------------------------------------------------------------------------- *)
(** ** [FinishGrant] *)
(* ------------------------------------------------------------------------- *)

Section ledger_facts.
Context {W : Type} `{External W}.
Implicit Types (a : newerpol.AccessRecord) (st : @St W).

(** The conditional update touches one row or none, and one exactly when the
    row is in the state the caller expects. *)
Lemma exec_update_rows q id status (t : gmap Z Z) :
  let r := newerpol.exec_update q id status t in
  (r.1 = 1%Z ∨ r.1 = 0%Z) ∧
  (r.1 = 1%Z ↔ t !! id = Some status) ∧
  (r.1 = 1%Z → r.2 = <[id := newerpol.stmt_sets q]> t) ∧
  (r.1 = 0%Z → r.2 = t).
Proof.
  unfold newerpol.exec_update. destruct (t !! id) as [cur|]; simpl.
  - destruct (Z.eqb_spec cur status) as [->|Hne]; simpl.
    + split_and!; auto; done.
    + split_and!; auto; try done. split; [done|]. intros [= ?]. done.
  - split_and!; auto; done.
Qed.

(** C4.  [FinishGrant] fails, touching nothing, on a grant whose status is
    Granted or Revoked.  Otherwise it runs the update [WHERE ID = id AND
    RequestStatus = status] with the grant's own id and status: if the driver
    fails it returns the error and the ledger is as before; if not, it
    returns true when one row was affected and false, without error, when
    none was, which is the case exactly when the row is not in the status the
    grant carries. *)
Theorem FinishGrant_conditional_update a st :
  let status := newerpol.RequestStatus a in
  let id := newerpol.AccessId a in
  let q := finishing_stmt a in
  let r := FinishGrant a st in
  (status = newerpol.AccessGranted ∨ status = newerpol.AccessRevoked →
     ∃ e, r = (inl e, st, []))
  ∧ (status ≠ newerpol.AccessGranted → status ≠ newerpol.AccessRevoked →
     (∀ e, result_of r = inl e → ledger (state_of r) = ledger st) ∧
     (prepared q st = true ∨ sql_Prepare q (world st) = None →
      sql_Exec_err q id status (world st) = None →
      let u := newerpol.exec_update q id status (ledger st) in
      trace_of r = [EvExec q id status] ∧
      ledger (state_of r) = u.2 ∧
      (u.1 = 1%Z ∨ u.1 = 0%Z) ∧
      (u.1 = 1%Z → result_of r = inr true) ∧
      (u.1 = 0%Z → result_of r = inr false ∧ ledger (state_of r) = ledger st) ∧
      (u.1 = 1%Z ↔ ledger st !! id = Some status))).
Proof.
  intros status id q r. split.
  - intros Hterm. exists "newerpol: Cannot finish grant, already in finished state".
    unfold r, FinishGrant. fold status.
    assert ((status =? newerpol.AccessGranted)%Z
            || (status =? newerpol.AccessRevoked)%Z = true) as ->; [|done].
    destruct Hterm as [->| ->]; [done|]. by rewrite orb_true_r.
  - intros Hg Hr.
    assert ((status =? newerpol.AccessGranted)%Z
            || (status =? newerpol.AccessRevoked)%Z = false) as Hnt.
    { apply orb_false_iff. split; by apply Z.eqb_neq. }
    unfold r, FinishGrant. fold status. rewrite Hnt. fold q. fold id.
    unfold mbind, Go_bind, get, emit, check, fail, modify, mret, Go_ret.
    split.
    + intros e. destruct (prepared q st) eqn:Hp; simpl.
      * destruct (sql_Exec_err q id status (world st)); simpl; [done|].
        destruct (Z.eqb_spec (newerpol.exec_update q id status (ledger st)).1 0);
          simpl; done.
      * destruct (sql_Prepare q (world st)); simpl; [done|].
        assert (world (set_prepared q st) = world st) as Hw by (by destruct q).
        assert (ledger (set_prepared q st) = ledger st) as Hl by (by destruct q).
        destruct (sql_Exec_err q id status (world st)); simpl; [done|].
        rewrite Hl.
        destruct (Z.eqb_spec (newerpol.exec_update q id status (ledger st)).1 0);
          simpl; done.
    + intros Hprep Hexec.
      destruct (exec_update_rows q id status (ledger st)) as (Hrows&Hiff&_&H0).
      set (u := newerpol.exec_update q id status (ledger st)) in *.
      assert (ledger (set_prepared q st) = ledger st) as Hl by (by destruct q).
      destruct (prepared q st) eqn:Hp; simpl.
      * rewrite Hexec. simpl. fold u.
        destruct (Z.eqb_spec u.1 0) as [Hz|Hz]; simpl;
          split_and!; auto; try done; try lia; intros ?; destruct Hrows; lia.
      * destruct Hprep as [|Hprep]; [done|]. rewrite Hprep. simpl.
        rewrite Hexec. simpl. rewrite ?Hl. fold u.
        destruct (Z.eqb_spec u.1 0) as [Hz|Hz]; simpl;
          split_and!; auto; try done; try lia; intros ?; destruct Hrows; lia.
Qed.

End ledger_facts.

Lemma FinishGrant_conditional_update_witness :
  newerpol.RequestStatus grant7 ≠ newerpol.AccessGranted ∧
  newerpol.RequestStatus grant7 ≠ newerpol.AccessRevoked ∧
  result_of (FinishGrant grant7 sim_ledger_st) = inr true ∧
  ledger (state_of (FinishGrant grant7 sim_ledger_st)) !! 7%Z
  = Some newerpol.AccessGranted.
Proof.
  assert (newerpol.RequestStatus grant7 ≠ newerpol.AccessGranted) as Hg by done.
  assert (newerpol.RequestStatus grant7 ≠ newerpol.AccessRevoked) as Hr by done.
  split; [exact Hg|]. split; [exact Hr|].
  destruct (proj2 (FinishGrant_conditional_update grant7 sim_ledger_st) Hg Hr)
    as [_ Hmain].
  destruct (Hmain (or_intror eq_refl) eq_refl) as (_&Hl&_&Ht&_&_).
  split; [apply Ht; reflexivity|]. rewrite Hl. reflexivity.
Defined.

(* ------------------------------------------------------------------------- *)
(** ** Reasoning about runs *)
(* ------------------------------------------------------------------------- *)

Section run_facts.
Context {W : Type} `{External W}.
Context {X : Type} (P : X → Event → Prop) (f : @St W → X).

Lemma obeys_ret {A} (a : A) : obeys P f (mret a).
Proof. intros st. split; [constructor|done]. Qed.

Lemma obeys_fail {A} e : obeys P f (fail (A:=A) e).
Proof. intros st. split; [constructor|done]. Qed.

Lemma obeys_get : obeys P f get.
Proof. intros st. split; [constructor|done]. Qed.

Lemma obeys_emit ev : (∀ x, P x ev) → obeys P f (emit ev).
Proof. intros Hev st. split; [by repeat constructor|done]. Qed.

Lemma obeys_modify g : (∀ st, f (g st) = f st) → obeys P f (modify g).
Proof. intros Hg st. split; [constructor|apply Hg]. Qed.

Lemma obeys_bind {A B} (m : Go A) (k : A → Go B) :
  obeys P f m → (∀ a, obeys P f (k a)) → obeys P f (m ≫= k).
Proof.
  intros Hm Hk st. unfold mbind, Go_bind.
  destruct (Hm st) as [Ht Hf]. unfold trace_of, state_of in *.
  destruct (m st) as [[[e|a] st1] t1]; simpl in *; [done|].
  destruct (Hk a st1) as [Ht2 Hf2]. unfold trace_of, state_of in *.
  destruct (k a st1) as [[r st2] t2]; simpl in *.
  rewrite Hf in Ht2. split; [by apply Forall_app|congruence].
Qed.

Lemma obeys_try {A} (m : Go A) : obeys P f m → obeys P f (try m).
Proof.
  intros Hm st. unfold try. destruct (Hm st) as [Ht Hf].
  unfold trace_of, state_of in *. by destruct (m st) as [[r st1] t1].
Qed.

Lemma obeys_fatalf {A} p (m : Go A) : obeys P f m → obeys P f (fatalf p m).
Proof.
  intros Hm st. unfold fatalf. destruct (Hm st) as [Ht Hf].
  unfold trace_of, state_of in *. by destruct (m st) as [[[e|a] st1] t1].
Qed.

Lemma obeys_check wrap r : obeys P f (check wrap r).
Proof. destruct r; [apply obeys_fail|apply obeys_ret]. Qed.

Lemma obeys_check_val {A} wrap (r : Err + A) : obeys P f (check_val wrap r).
Proof. destruct r; [apply obeys_fail|apply obeys_ret]. Qed.

Lemma obeys_ext ev g :
  (∀ x, P x ev) → (∀ w st, f (set_world w st) = f st) → obeys P f (ext ev g).
Proof.
  intros Hev Hw st. unfold ext. destruct (g (world st)) as [r w'].
  split; [by repeat constructor|apply Hw].
Qed.

End run_facts.

Lemma obeys_weaken {W : Type} `{External W} {A X} (P Q : X → Event → Prop)
    (f : @St W → X) (m : Go A) :
  (∀ x e, P x e → Q x e) → obeys P f m → obeys Q f m.
Proof.
  intros HPQ Hm st. destruct (Hm st) as [Ht Hf]. split; [|done].
  eapply Forall_impl; eauto.
Qed.

(** Splitting the run of a sequence at its first part. *)
Lemma bind_run {W : Type} `{External W} {A B} (m : Go A) (k : A → Go B)
    (st : @St W) :
  (m ≫= k) st =
  match m st with
  | (inl e, st1, t1) => (inl e, st1, t1)
  | (inr a, st1, t1) =>
      (result_of (k a st1), state_of (k a st1), t1 ++ trace_of (k a st1))
  end.
Proof.
  unfold mbind, Go_bind, result_of, state_of, trace_of.
  destruct (m st) as [[[e|a] st1] t1]; [done|].
  by destruct (k a st1) as [[r st2] t2].
Qed.

Lemma bind_pure {W : Type} `{External W} {A B} (m : Go A) (k : A → Go B)
    (st : @St W) a :
  m st = (inr a, st, []) → (m ≫= k) st = k a st.
Proof.
  intros Hm. unfold mbind, Go_bind. rewrite Hm.
  by destruct (k a st) as [[r st2] t2].
Qed.

Lemma bind_assoc_run {W : Type} `{External W} {A B C} (m : Go A)
    (k1 : A → Go B) (k2 : B → Go C) (st : @St W) :
  ((m ≫= k1) ≫= k2) st = (m ≫= (λ a, k1 a ≫= k2)) st.
Proof.
  unfold mbind, Go_bind. destruct (m st) as [[[e|a] st1] t1]; [done|].
  destruct (k1 a st1) as [[[e|b] st2] t2]; [done|].
  destruct (k2 b st2) as [[r st3] t3]. by rewrite app_assoc.
Qed.

Create HintDb obeys discriminated.

#[global] Hint Resolve obeys_ret obeys_fail obeys_get obeys_check
  obeys_check_val obeys_try obeys_fatalf : obeys.

Ltac obeys_step :=
  lazymatch goal with
  | |- obeys _ _ (mbind _ _) => apply obeys_bind; [|intros ?]
  | |- obeys _ _ (mret _) => apply obeys_ret
  | |- obeys _ _ (fail _) => apply obeys_fail
  | |- obeys _ _ get => apply obeys_get
  | |- obeys _ _ (emit _) => apply obeys_emit; intros; simpl; try done
  | |- obeys _ _ (modify _) => apply obeys_modify; intros; try done
  | |- obeys _ _ (check _ _) => apply obeys_check
  | |- obeys _ _ (check_val _ _) => apply obeys_check_val
  | |- obeys _ _ (try _) => apply obeys_try
  | |- obeys _ _ (fatalf _ _) => apply obeys_fatalf
  | |- obeys _ _ (ext _ _) => apply obeys_ext; intros; simpl; try done
  | |- obeys _ _ (if ?b then _ else _) => destruct b
  | |- obeys _ _ (match ?x with _ => _ end) => destruct x
  end.

Ltac obeys_auto := repeat obeys_step; eauto with obeys.

(* ------------------------------------------------------------------------- *)
(** ** Which steps each part of the store takes *)
(* ------------------------------------------------------------------------- *)

Section store_steps.
Context {W : Type} `{External W}.

(** Parts of the state that neither the outside world nor the sites in
    memory belong to. *)
Section stable.
Context {X : Type} (f : @St W → X).
Hypothesis f_world : ∀ w st, f (set_world w st) = f st.
Hypothesis f_heap : ∀ h st, f (set_heap h st) = f st.

Lemma checkWorktreeClean_obeys :
  obeys (λ _ e, is_wt e = true) f checkWorktreeClean.
Proof. unfold checkWorktreeClean. obeys_auto. Qed.

Lemma pull_obeys b : obeys (λ _ e, is_wt e = true) f (pull b).
Proof.
  intros st. unfold pull. destruct (git_Pull b (world st)) as [r w'].
  split; [by repeat constructor|apply f_world].
Qed.

Lemma GetWorktree_obeys : obeys (λ _ e, is_wt e = true) f GetWorktree.
Proof.
  unfold GetWorktree. obeys_auto;
    auto using checkWorktreeClean_obeys, pull_obeys.
Qed.

Lemma Save_obeys l : obeys (λ _ e, is_save e = true) f (Save l).
Proof.
  intros st. unfold Save. destruct (heap st !! l) as [s|]; [|by split].
  unfold Save_site. destruct (yaml_Marshal s) as [e|d]; simpl.
  - split; [by repeat constructor|].
    unfold state_of; simpl. by rewrite f_world, f_heap.
  - destruct (ioutil_WriteFile _ _ _) as [[e|] w']; simpl;
      (split; [by repeat constructor|]);
      unfold state_of; simpl; by rewrite f_world, f_heap.
Qed.

Lemma deref_obeys P l : obeys P f (deref l).
Proof. intros st. unfold deref. by destruct (heap st !! l). Qed.

Lemma call_site_obeys P l m : obeys P f (call_site l m).
Proof.
  intros st. unfold call_site. destruct (heap st !! l); [|by split].
  split; [constructor|apply f_heap].
Qed.

Lemma saveSites_obeys opts targets :
  obeys (λ _ e, is_save e = true) f (saveSites opts targets).
Proof.
  induction targets as [|l targets IH]; simpl; obeys_auto;
    auto using Save_obeys, deref_obeys.
Qed.

Lemma firstError_obeys P errs : obeys P f (firstError errs).
Proof. induction errs as [|[e|] errs IH]; simpl; obeys_auto. Qed.

Lemma stageFiles_obeys fns : obeys (λ _ e, is_stage e = true) f (stageFiles fns).
Proof. induction fns as [|fn fns IH]; simpl; obeys_auto. Qed.

End stable.

End store_steps.

Section commit_steps.
Context {W : Type} `{External W}.
Context {X : Type} (f : @St W → X).
Hypothesis f_world : ∀ w st, f (set_world w st) = f st.
Hypothesis f_heap : ∀ h st, f (set_heap h st) = f st.

Lemma commitPersist_obeys opts :
  obeys (λ _ e, is_save e = true ∨ is_stage e = true ∧ DryRun opts = false) f
        (commitPersist opts).
Proof.
  unfold commitPersist. obeys_step; [obeys_auto|].
  obeys_step.
  { eapply obeys_weaken; [|by apply saveSites_obeys]. intros; tauto. }
  obeys_step; [by apply firstError_obeys|].
  obeys_step; [|obeys_auto].
  destruct (DryRun opts); simpl; [obeys_auto|].
  eapply obeys_weaken; [|by apply stageFiles_obeys]. intros; tauto.
Qed.

Lemma commitFinish_obeys opts n :
  obeys (λ _ e, is_wt e = true ∨
              DryRun opts = false ∧
              (e = EvPush ∧ NoPush opts = false ∨
               ∃ cfg, e = EvCommit (commitMessage cfg opts (Z.of_nat n))
                                   (GetString cfg "cdb.author.name")
                                   (GetString cfg "cdb.author.email")))
        f (commitFinish opts n).
Proof.
  unfold commitFinish. obeys_step.
  { eapply obeys_weaken; [|by apply checkWorktreeClean_obeys]. intros; tauto. }
  obeys_step; [|obeys_auto].
  obeys_step; [obeys_auto|].
  obeys_step.
  - destruct (DryRun opts); simpl; [obeys_auto|].
    obeys_step; [|obeys_auto]. apply obeys_ext; [|done].
    right. split; [done|]. right. eauto.
  - destruct (DryRun opts); simpl; [obeys_auto|].
    destruct (NoPush opts); simpl; [obeys_auto|].
    obeys_step; [obeys_auto|]. obeys_step; [obeys_auto|].
    obeys_step; [|obeys_auto]. apply obeys_ext; [|done]. intros; tauto.
Qed.

End commit_steps.

(* ------------------------------------------------------------------------- *)
(** ** The store is initialised once *)
(* ------------------------------------------------------------------------- *)

Section once_facts.
Context {W : Type} `{External W}.
Implicit Types (st : @St W).

Lemma ensure_loaded st :
  initOnce (sitesCache st) = true →
  ensureSitesCacheLoaded st = (inr (initError (sitesCache st)), st, []).
Proof.
  intros Hd. unfold ensureSitesCacheLoaded, mbind, Go_bind, get, mret, Go_ret.
  by rewrite Hd.
Qed.

Lemma ensure_fresh st :
  initOnce (sitesCache st) = false →
  let i := initSitesCache st in
  let c := sitesCache (state_of i) in
  let err := match result_of i with inl e => Some e | inr _ => None end in
  ensureSitesCacheLoaded st =
    (inr err,
     set_sitesCache (mkCache (byId c) (byName c) true err (slice c)) (state_of i),
     trace_of i).
Proof.
  intros Hd. unfold ensureSitesCacheLoaded, mbind, Go_bind, get, mret, Go_ret,
    try, modify, state_of, result_of, trace_of.
  rewrite Hd. destruct (initSitesCache st) as [[r st1] t1]. simpl.
  by rewrite !app_nil_r.
Qed.

(** Whatever the state, after a call the [Once] has fired and the value
    returned is the stored error. *)
Lemma ensure_post st :
  let r := ensureSitesCacheLoaded st in
  initOnce (sitesCache (state_of r)) = true ∧
  result_of r = inr (initError (sitesCache (state_of r))).
Proof.
  destruct (initOnce (sitesCache st)) eqn:Hd.
  - rewrite (ensure_loaded st Hd). done.
  - rewrite (ensure_fresh st Hd). done.
Qed.

Lemma GetSiteById_loaded id st :
  initOnce (sitesCache st) = true →
  GetSiteById id st =
    (match initError (sitesCache st) with
     | Some e => inl e
     | None => inr (byId (sitesCache st) !! id)
     end, st, []).
Proof.
  intros Hd. unfold GetSiteById. rewrite bind_run, (ensure_loaded st Hd).
  by destruct (initError (sitesCache st)).
Qed.

Lemma GetSiteByName_loaded n st :
  initOnce (sitesCache st) = true →
  GetSiteByName n st =
    (match initError (sitesCache st) with
     | Some e => inl e
     | None => inr (byName (sitesCache st) !! n)
     end, st, []).
Proof.
  intros Hd. unfold GetSiteByName. rewrite bind_run, (ensure_loaded st Hd).
  by destruct (initError (sitesCache st)).
Qed.

Lemma GetAllSites_loaded st :
  initOnce (sitesCache st) = true →
  GetAllSites st =
    (match initError (sitesCache st) with
     | Some e => inl e
     | None => inr (slice (sitesCache st))
     end, st, []).
Proof.
  intros Hd. unfold GetAllSites. rewrite bind_run, (ensure_loaded st Hd).
  by destruct (initError (sitesCache st)).
Qed.

(** [CommitSites] after the first two steps. *)
Lemma commit_after_acquire_obeys {X} (f : @St W → X) opts :
  (∀ w st, f (set_world w st) = f st) →
  (∀ h st, f (set_heap h st) = f st) →
  obeys (λ _ e, is_read e = false) f
        (sitesChanged ← commitPersist opts; commitFinish opts sitesChanged).
Proof.
  intros Hw Hh. obeys_step.
  - eapply obeys_weaken; [|by apply commitPersist_obeys].
    intros _ [] [|[]]; done.
  - eapply obeys_weaken; [|by apply commitFinish_obeys].
    intros _ e [|[_ [[-> _]|[cfg ->]]]]; try done. by destruct e.
Qed.

(** [CommitSites] is the loading of the store followed by the rest. *)
Lemma CommitSites_split opts st :
  CommitSites opts st =
  (r ← ensureSitesCacheLoaded;
   (check (λ e, e) r ;; GetWorktree) ;;
   sitesChanged ← commitPersist opts;
   commitFinish opts sitesChanged) st.
Proof.
  unfold CommitSites, commitStage, commitAcquire.
  by rewrite bind_assoc_run, bind_assoc_run.
Qed.

Lemma commit_rest_obeys opts r :
  obeys (λ _ e, is_read e = false) sitesCache
        ((check (λ e, e) r ;; GetWorktree) ;;
         sitesChanged ← commitPersist opts;
         commitFinish opts sitesChanged).
Proof.
  obeys_step; [|by apply commit_after_acquire_obeys].
  obeys_step; [obeys_auto|].
  eapply obeys_weaken; [|by apply GetWorktree_obeys]. by intros _ [].
Qed.

Lemma CommitSites_loaded opts st :
  initOnce (sitesCache st) = true →
  let r := CommitSites opts st in
  Forall (λ e, is_read e = false) (trace_of r) ∧
  sitesCache (state_of r) = sitesCache st ∧
  (∀ e, initError (sitesCache st) = Some e → r = (inl e, st, [])).
Proof.
  intros Hd r. unfold r. rewrite CommitSites_split.
  rewrite (bind_pure _ _ _ _ (ensure_loaded st Hd)).
  destruct (commit_rest_obeys opts (initError (sitesCache st)) st) as [Ht Hc].
  split_and!; [done|done|].
  intros e He. rewrite He. by rewrite bind_run.
Qed.

End once_facts.

Section once_theorem.
Context {W : Type} `{External W}.
Implicit Types (st : @St W).

Lemma LoadSite_obeys {X} (f : @St W → X) fn :
  obeys (λ _ e, is_read e = true) f (LoadSite fn).
Proof. unfold LoadSite. obeys_auto. Qed.

Lemma loadEntries_obeys {X} (f : @St W → X) names :
  obeys (λ _ e, is_read e = true) f (loadEntries names).
Proof.
  induction names as [|n names IH]; simpl; obeys_auto.
  unfold loadEntry. obeys_auto. apply LoadSite_obeys.
Qed.

Lemma collectItems_obeys {X} (f : @St W → X) P items :
  (∀ c st, f (set_sitesCache c st) = f st) →
  (∀ h st, f (set_heap h st) = f st) →
  obeys P f (collectItems items).
Proof.
  intros Hc Hh. induction items as [|[e|[s|]] items IH]; simpl; obeys_auto.
  unfold cache_add. by rewrite Hc, Hh.
Qed.

Lemma initSitesCache_obeys {X} (f : @St W → X) :
  (∀ c st, f (set_sitesCache c st) = f st) →
  (∀ h st, f (set_heap h st) = f st) →
  obeys (λ _ e, is_read e = true) f initSitesCache.
Proof.
  intros Hc Hh. unfold initSitesCache. obeys_auto.
  - apply loadEntries_obeys.
  - by apply collectItems_obeys.
Qed.

Lemma ensure_obeys {X} (f : @St W → X) :
  (∀ c st, f (set_sitesCache c st) = f st) →
  (∀ h st, f (set_heap h st) = f st) →
  obeys (λ _ e, is_read e = true) f ensureSitesCacheLoaded.
Proof.
  intros Hc Hh. unfold ensureSitesCacheLoaded. obeys_auto.
  by apply initSitesCache_obeys.
Qed.

Lemma run_call_loaded c st :
  initOnce (sitesCache st) = true →
  Forall (λ e, is_read e = false) (trace_of (run_call c st)) ∧
  sitesCache (state_of (run_call c st)) = sitesCache st.
Proof.
  intros Hd. destruct c as [| |id|n|opts]; simpl.
  - rewrite bind_run, (ensure_loaded st Hd). by split.
  - rewrite bind_run, (GetAllSites_loaded st Hd).
    by destruct (initError (sitesCache st)).
  - rewrite bind_run, (GetSiteById_loaded id st Hd).
    by destruct (initError (sitesCache st)).
  - rewrite bind_run, (GetSiteByName_loaded n st Hd).
    by destruct (initError (sitesCache st)).
  - destruct (CommitSites_loaded opts st Hd) as (?&?&_). by split.
Qed.

Lemma run_calls_loaded cs st :
  initOnce (sitesCache st) = true →
  Forall (λ e, is_read e = false) (trace_of (run_calls cs st)) ∧
  sitesCache (state_of (run_calls cs st)) = sitesCache st.
Proof.
  revert st. induction cs as [|c cs IH]; intros st Hd; simpl; [by split|].
  rewrite bind_run. unfold try.
  destruct (run_call_loaded c st Hd) as [Ht Hc].
  unfold trace_of, state_of, result_of in *.
  destruct (run_call c st) as [[r st1] t1]; simpl in *.
  destruct (IH st1) as [Ht2 Hc2]; [by rewrite Hc|].
  unfold trace_of, state_of in *.
  split; [by apply Forall_app|congruence].
Qed.

End once_theorem.

(* ------------------------------------------------------------------------- *)
(** ** The commit pipeline *)
(* ------------------------------------------------------------------------- *)

Section commit_facts.
Context {W : Type} `{External W}.
Implicit Types (st : @St W).

(** The steps of [CommitSites] before the second cleanliness check. *)
Lemma commitStage_obeys {X} (f : @St W → X) opts :
  (∀ w st, f (set_world w st) = f st) →
  (∀ h st, f (set_heap h st) = f st) →
  (∀ c st, f (set_sitesCache c st) = f st) →
  obeys (λ _ e, is_read e = true ∨ is_wt e = true ∨ is_save e = true ∨
                is_stage e = true ∧ DryRun opts = false)
        f (commitStage opts).
Proof.
  intros Hw Hh Hc. unfold commitStage, commitAcquire.
  obeys_step; [obeys_step; [|obeys_step]|].
  - eapply obeys_weaken; [|by apply ensure_obeys]. intros; tauto.
  - obeys_auto.
  - eapply obeys_weaken; [|by apply GetWorktree_obeys]. intros; tauto.
  - eapply obeys_weaken; [|by apply commitPersist_obeys]. intros; tauto.
Qed.

(** What [CommitSites] does from the second cleanliness check on. *)
Lemma commitFinish_run opts n st :
  let msg := EvCommit (commitMessage (viper st) opts (Z.of_nat n))
                      (GetString (viper st) "cdb.author.name")
                      (GetString (viper st) "cdb.author.email") in
  let r := commitFinish opts n st in
  (git_Status (world st) = inr true → r = (inr tt, st, [EvStatus])) ∧
  (DryRun opts = true → trace_of r = [EvStatus]) ∧
  (trace_of r = [EvStatus] ∨
   DryRun opts = false ∧ git_Status (world st) ≠ inr true ∧
   (trace_of r = [EvStatus; msg] ∨
    NoPush opts = false ∧ trace_of r = [EvStatus; msg; EvPush])).
Proof.
  intros msg r. unfold r, commitFinish, checkWorktreeClean.
  unfold mbind, Go_bind, get, emit, mret, Go_ret, ext, check, fail, trace_of.
  simpl.
  destruct (git_Status (world st)) as [e|[]] eqn:Hs; simpl.
  - destruct (DryRun opts); simpl; [by split_and!; auto|].
    split_and!; [done|done|]. right. split; [done|]. split; [done|].
    destruct (git_Commit _ _ _ _) as [[e'|] w']; simpl; [by left|].
    destruct (NoPush opts); simpl; [by left|].
    destruct (git_PlainOpen _ _); simpl; [by left|].
    destruct (git_Push w') as [[e'|] w'']; simpl; by right.
  - by split_and!; auto.
  - destruct (DryRun opts); simpl; [by split_and!; auto|].
    split_and!; [done|done|]. right. split; [done|]. split; [done|].
    destruct (git_Commit _ _ _ _) as [[e'|] w']; simpl; [by left|].
    destruct (NoPush opts); simpl; [by left|].
    destruct (git_PlainOpen _ _); simpl; [by left|].
    destruct (git_Push w') as [[e'|] w'']; simpl; by right.
Qed.

(** C7.  When the working tree is clean after the staging step,
    [CommitSites] stops there and returns nil: it takes no step after the
    status check, and no step of the whole call creates a commit or pushes. *)
Theorem clean_tree_skips_commit opts st n st1 t1 :
  commitStage opts st = (inr n, st1, t1) →
  git_Status (world st1) = inr true →
  CommitSites opts st = (inr tt, st1, t1 ++ [EvStatus]) ∧
  Forall (λ e, is_commit e = false ∧ is_push e = false)
         (trace_of (CommitSites opts st)).
Proof.
  intros Hstage Hclean.
  assert (CommitSites opts st = (inr tt, st1, t1 ++ [EvStatus])) as Hrun.
  { unfold CommitSites. rewrite bind_run, Hstage.
    destruct (commitFinish_run opts n st1) as [Hr _]. by rewrite (Hr Hclean). }
  split; [done|]. rewrite Hrun. unfold trace_of; simpl.
  apply Forall_app. split; [|by repeat constructor].
  destruct (commitStage_obeys (λ _, tt) opts (λ _ _, eq_refl) (λ _ _, eq_refl)
              (λ _ _, eq_refl) st) as [Ht _].
  rewrite Hstage in Ht. unfold trace_of in Ht; simpl in Ht.
  eapply Forall_impl; [exact Ht|]. intros [] ?; intuition discriminate.
Qed.

End commit_facts.

Lemma clean_tree_skips_commit_witness :
  ∃ n st1 t1,
    commitStage (opts_sync false false false)
                (sim_loaded sim_world1 (site_club ["alice"])) = (inr n, st1, t1) ∧
    git_Status (world st1) = inr true ∧
    CommitSites (opts_sync false false false)
                (sim_loaded sim_world1 (site_club ["alice"]))
    = (inr tt, st1, t1 ++ [EvStatus]).
Proof.
  eexists _, _, _.
  assert (∀ (x y : (string + nat) * @St SimWorld * list Event)
            (P : Prop), x = y → (x = y → P) → x = y ∧ P) as Hand by auto.
  apply Hand; [vm_compute; reflexivity|]. intros Hstage.
  assert (∀ (x y : string + bool) (P : Prop),
            x = y → (x = y → P) → x = y ∧ P) as Hand' by auto.
  apply Hand'; [vm_compute; reflexivity|]. intros Hclean.
  exact (proj1 (clean_tree_skips_commit _ _ _ _ _ Hstage Hclean)).
Defined.

Section message_facts.
Context {W : Type} `{External W}.
Implicit Types (st : @St W).

Lemma commitPersist_result opts st n st2 t2 :
  commitPersist opts st = (inr n, st2, t2) → n = length (commitTargets opts st).
Proof.
  unfold commitPersist, mbind, Go_bind, get, mret, Go_ret. simpl.
  destruct (saveSites _ _ _) as [[[e|rs] st'] t']; [done|].
  destruct (firstError _ _) as [[[e|[]] st''] t'']; [done|].
  destruct (DryRun opts); simpl.
  - by intros [= <- _ _].
  - destruct (stageFiles _ _) as [[[e|k] st3] t3]; [done|].
    by intros [= <- _ _].
Qed.

(** A sync that adds one admin to the record of the example world. *)
Lemma sim_commit_trace :
  EvCommit "sites: Update admins. Sites changed: 1 (cmd=pugo sync, src=newerpol)"
           "pugo" "pugo@example.com"
  ∈ trace_of (CommitSites (opts_sync false false false)
                (sim_loaded sim_world0 (site_club ["alice"; "bob"]))).
Proof.
  assert (trace_of (CommitSites (opts_sync false false false)
                      (sim_loaded sim_world0 (site_club ["alice"; "bob"]))) =
          [EvStatus; EvPull; EvSave "club";
           EvWriteFile "/cdb/sites/club.yaml" "club: alice,bob";
           EvStage "sites/club.yaml"; EvStatus;
           EvCommit
             "sites: Update admins. Sites changed: 1 (cmd=pugo sync, src=newerpol)"
             "pugo" "pugo@example.com";
           EvPush]) as -> by (vm_compute; reflexivity).
  do 6 apply list_elem_of_further. apply list_elem_of_here.
Defined.

(** C6, as stated, fails: the message of a commit starts with ["sites: "]
    and names the command as ["pugo sync"]. *)
Lemma commit_message_differs_from_spec :
  let opts := opts_sync false false false in
  let st := sim_loaded sim_world0 (site_club ["alice"; "bob"]) in
  EvCommit "sites: Update admins. Sites changed: 1 (cmd=pugo sync, src=newerpol)"
           "pugo" "pugo@example.com" ∈ trace_of (CommitSites opts st) ∧
  "sites: Update admins. Sites changed: 1 (cmd=pugo sync, src=newerpol)"
  ≠ spec_commit_message (viper st) opts 1.
Proof.
  intros opts st. split; [apply sim_commit_trace|by vm_compute].
Qed.

(** C6, amended.  The message of every commit [CommitSites] creates is
    ["sites: <summary>. Sites changed: <count> (cmd=<origin>, src=<source>)"]
    where the summary is the caller's message, or ["Unspecified changes"]
    when that is empty; the count is the number of targeted records that
    were marked as changed; the origin is ["pugo"] followed, when the command
    name is not empty, by a space and that name; and the source is the
    setting [newerpol.name], or [newerpol.database] when that is empty. *)
Theorem commit_message_format opts st msg author mail :
  EvCommit msg author mail ∈ trace_of (CommitSites opts st) →
  let summary :=
    if String.eqb (Message opts) "" then "Unspecified changes" else Message opts in
  let origin :=
    if String.eqb (Cmd opts) "" then "pugo" else "pugo " +:+ Cmd opts in
  let source :=
    if String.eqb (GetString (viper st) "newerpol.name") ""
    then GetString (viper st) "newerpol.database"
    else GetString (viper st) "newerpol.name" in
  ∃ count : nat,
    msg = "sites: " +:+ summary +:+ ". Sites changed: "
            +:+ fmt_d (Z.of_nat count)
            +:+ " (cmd=" +:+ origin +:+ ", src=" +:+ source +:+ ")" ∧
    (∀ st1 t1, commitAcquire st = (inr tt, st1, t1) →
               count = length (commitTargets opts st1)).
Proof.
  intros Hin summary origin source.
  unfold CommitSites in Hin. rewrite bind_run in Hin.
  destruct (commitStage_obeys viper opts (λ _ _, eq_refl) (λ _ _, eq_refl)
              (λ _ _, eq_refl) st) as [Ht Hv].
  unfold trace_of, state_of in Ht, Hv.
  destruct (commitStage opts st) as [[[e|n] st2] t2] eqn:Hstage;
    unfold trace_of in Hin; simpl in *.
  { rewrite Forall_forall in Ht. apply Ht in Hin. simpl in Hin.
    intuition discriminate. }
  exists n. split.
  - apply elem_of_app in Hin as [Hin|Hin].
    { rewrite Forall_forall in Ht. apply Ht in Hin. simpl in Hin.
      intuition discriminate. }
    destruct (commitFinish_run opts n st2) as (_&_&Hf).
    unfold trace_of in Hf. rewrite Hv in Hf.
    assert (msg = commitMessage (viper st) opts (Z.of_nat n)) as ->.
    { destruct Hf as [Hf|(_&_&[Hf|[_ Hf]])]; rewrite Hf in Hin;
        repeat (apply elem_of_cons in Hin as [Hin|Hin]; try discriminate Hin);
        try (by apply elem_of_nil in Hin); by injection Hin. }
    unfold commitMessage, summary, origin, source.
    by destruct (String.eqb (Cmd opts) "").
  - intros st1 t1 Hacq. unfold commitStage in Hstage.
    rewrite bind_run, Hacq in Hstage.
    unfold result_of, state_of, trace_of in Hstage.
    destruct (commitPersist opts st1) as [[[e|k] st3] t3] eqn:Hp;
      simpl in Hstage; [done|].
    injection Hstage as <- _ _. by eapply commitPersist_result.
Qed.

End message_facts.

Lemma commit_message_format_witness :
  ∃ count : nat,
    "sites: Update admins. Sites changed: 1 (cmd=pugo sync, src=newerpol)"
    = "sites: " +:+ "Update admins" +:+ ". Sites changed: "
        +:+ fmt_d (Z.of_nat count)
        +:+ " (cmd=" +:+ "pugo sync" +:+ ", src=" +:+ "newerpol" +:+ ")".
Proof.
  destruct (commit_message_format (opts_sync false false false)
              (sim_loaded sim_world0 (site_club ["alice"; "bob"]))
              _ _ _ sim_commit_trace) as (n&Hn&_).
  exists n. exact Hn.
Defined.

(* ------------------------------------------------------------------------- *)
(** ** Dry runs *)
(* ------------------------------------------------------------------------- *)

Section dry_run_facts.
Context {W : Type} `{External W}.
Implicit Types (st : @St W).





Lemma commitTargets_valid opts st l :
  l ∈ commitTargets opts st → is_Some (heap st !! l).
Proof.
  unfold commitTargets. intros Hin. apply list_elem_of_omap in Hin as (e&_&He).
  unfold targetOf in He. destruct e.2; [|done].
  destruct (byId (sitesCache st) !! e.1) as [l'|]; [|done].
  destruct (heap st !! l') as [s|] eqn:Hs; [|done].
  destruct (Changed s); [|done]. injection He as <-. by rewrite Hs.
Qed.

(** Every target of the commit is a record of the store that is marked as
    changed and whose id is selected. *)
Lemma commitTargets_changed opts st l :
  l ∈ commitTargets opts st →
  ∃ id s, byId (sitesCache st) !! id = Some l ∧ heap st !! l = Some s ∧
          Changed s = true.
Proof.
  unfold commitTargets. intros Hin. apply list_elem_of_omap in Hin as (e&_&He).
  unfold targetOf in He. destruct e.2; [|done].
  destruct (byId (sitesCache st) !! e.1) as [l'|] eqn:Hid; [|done].
  destruct (heap st !! l') as [s|] eqn:Hs; [|done].
  destruct (Changed s) eqn:Hc; [|done]. injection He as <-. eauto.
Qed.










End dry_run_facts.


(* ------------------------------------------------------------------------- *)
(** ** The order of steps in a sync run *)
(* ------------------------------------------------------------------------- *)

Section trace_facts.
Implicit Types (t : list Event) (cur : option newerpol.AccessRecord).

(** Steps that neither touch the ledger nor the mail queue do not matter. *)
Lemma eau_neutral_app cur t1 t2 :
  Forall (λ e, is_finish e = false ∧ is_enqueue e = false) t1 →
  enqueue_after_update cur t2 → enqueue_after_update cur (t1 ++ t2).
Proof.
  induction 1 as [|e t1 [Hf He] _ IH]; [done|]. intros H2.
  destruct e; simpl in *; try discriminate; auto.
Qed.

Lemma eau_app cur t1 t2 :
  enqueue_after_update cur t1 → (∀ c, enqueue_after_update c t2) →
  enqueue_after_update cur (t1 ++ t2).
Proof.
  revert cur. induction t1 as [|e t1 IH]; intros cur H1 H2; [apply H2|].
  destruct e; simpl in *; try (by apply IH).
  - destruct H1 as [? H1]. split; [done|]. by apply IH.
  - destruct H1 as [? H1]. split; [done|]. by apply IH.
Qed.

(** A message on the queue is preceded by the report that its grant was
    updated, with nothing on the ledger in between. *)
Lemma eau_split cur u o body v :
  enqueue_after_update cur (u ++ EvEnqueue o body :: v) →
  ∃ a, notifies o a ∧
    ((cur = Some a ∧ Forall (λ e, is_finish e = false) u) ∨
     ∃ u0 u1, u = u0 ++ EvFinishGrant a true None :: u1 ∧
              Forall (λ e, is_finish e = false) u1).
Proof.
  revert cur. induction u as [|e u IH]; intros cur Hu.
  { simpl in Hu. destruct Hu as [(a&->&Hn) _]. exists a. split; [done|].
    left. by split. }
  assert (∀ c, enqueue_after_update c (u ++ EvEnqueue o body :: v) →
               is_finish e = true →
               (∀ a, c = Some a → e = EvFinishGrant a true None) →
               ∃ a, notifies o a ∧
                 ((cur = Some a ∧ Forall (λ e, is_finish e = false) (e :: u)) ∨
                  ∃ u0 u1, e :: u = u0 ++ EvFinishGrant a true None :: u1 ∧
                           Forall (λ e, is_finish e = false) u1)) as Hreset.
  { intros c Hc Hfin Hsome. destruct (IH c Hc) as (a&Hn&[[-> Hall]|Hlater]).
    - exists a. split; [done|]. right. exists [], u. split; [|done].
      simpl. f_equal. by apply Hsome.
    - destruct Hlater as (u0&u1&->&Hall). exists a. split; [done|]. right.
      by exists (e :: u0), u1. }
  assert (enqueue_after_update cur (u ++ EvEnqueue o body :: v) →
          is_finish e = false →
          ∃ a, notifies o a ∧
            ((cur = Some a ∧ Forall (λ e, is_finish e = false) (e :: u)) ∨
             ∃ u0 u1, e :: u = u0 ++ EvFinishGrant a true None :: u1 ∧
                      Forall (λ e, is_finish e = false) u1)) as Hkeep.
  { intros Hc Hfin. destruct (IH cur Hc) as (a&Hn&[[-> Hall]|Hlater]).
    - exists a. split; [done|]. left. split; [done|]. by constructor.
    - destruct Hlater as (u0&u1&->&Hall). exists a. split; [done|]. right.
      by exists (e :: u0), u1. }
  destruct e; simpl in Hu; try (by apply Hkeep).
  - apply (Hreset None); [done|done|]. by intros.
  - destruct Hu as [Herr Hu]. destruct updated.
    + pose proof (Herr eq_refl) as ->. apply (Hreset (Some a)); [done|done|].
      by intros ? [= <-].
    + apply (Hreset None); [done|done|]. by intros.
  - destruct Hu as [_ Hu]. by apply Hkeep.
Qed.

(** Where an event of a kind [Q] sits in a trace whose first part has none
    of that kind. *)
Lemma split_after (Q : Event → Prop) (l k t1 t2 : list Event) e :
  Forall (λ x, ¬ Q x) l → Q e → l ++ k = t1 ++ e :: t2 →
  ∃ t1', t1 = l ++ t1' ∧ k = t1' ++ e :: t2.
Proof.
  revert t1. induction l as [|x l IH]; intros t1 Hl He Heq.
  { by exists t1. }
  apply Forall_cons in Hl as [Hx Hl].
  destruct t1 as [|y t1]; simpl in Heq.
  { injection Heq as -> _. done. }
  injection Heq as -> Heq. destruct (IH t1 Hl He Heq) as (t1'&->&->).
  by exists t1'.
Qed.

End trace_facts.

Section sync_facts.
Context {W : Type} `{External W}.
Implicit Types (st : @St W) (a : newerpol.AccessRecord).

Lemma GetSiteById_obeys id :
  obeys (λ _ e, is_read e = true) (λ _ : @St W, tt) (GetSiteById id).
Proof. unfold GetSiteById. obeys_auto. by apply ensure_obeys. Qed.

Lemma processGrants_obeys verb l records :
  obeys (λ _ e, is_read e = true) (λ _ : @St W, tt)
        (processGrants verb l records).
Proof.
  induction records as [|a records IH]; simpl; obeys_auto;
    auto using call_site_obeys, deref_obeys.
Qed.

Lemma processVerb_obeys verb entries :
  obeys (λ _ e, is_read e = true) (λ _ : @St W, tt) (processVerb verb entries).
Proof.
  induction entries as [|[id records] entries IH]; simpl; obeys_auto;
    auto using GetSiteById_obeys, processGrants_obeys.
Qed.

(** Fetching and applying the grants reads the store and nothing else. *)
Lemma syncApply_obeys :
  obeys (λ _ e, is_read e = true) (λ _ : @St W, tt) syncApply.
Proof.
  unfold syncApply, GetGrantsToAdd, GetGrantsToRevoke, GetGrants.
  obeys_auto; auto using processVerb_obeys.
Qed.

(** [CommitSites] does not touch the ledger or the mail queue. *)
Lemma CommitSites_obeys opts :
  obeys (λ _ e, is_commit_sites e = false ∧ is_finish e = false ∧
                is_enqueue e = false)
        (λ _ : @St W, tt) (CommitSites opts).
Proof.
  unfold CommitSites. obeys_step.
  - eapply obeys_weaken; [|by apply commitStage_obeys].
    intros _ [] ?; simpl in *; intuition discriminate.
  - eapply obeys_weaken; [|by apply commitFinish_obeys].
    intros _ e [?|[_ [[-> _]|[cfg ->]]]]; [|done..]. by destruct e.
Qed.

(** The commit step of a sync run reports its outcome once, as its last
    step, and fails exactly when [CommitSites] did. *)
Lemma syncCommit_run opts ids st :
  ∃ tc c st',
    syncCommit opts ids st =
      (match c with Some e => inl ("sync: " +:+ e) | None => inr tt end,
       st', tc ++ [EvCommitSites c]) ∧
    Forall (λ e, is_commit_sites e = false ∧ is_finish e = false ∧
                 is_enqueue e = false) tc.
Proof.
  unfold syncCommit.
  set (commitOpts := mkCommitSitesOptions _ _ _ _ _ _).
  destruct (CommitSites_obeys commitOpts st) as [Ht _].
  unfold mbind, Go_bind, try, emit, check_val, fail, mret, Go_ret, trace_of in *.
  destruct (CommitSites commitOpts st) as [[[e|[]] st1] t1]; simpl in *.
  - by exists t1, (Some e), st1.
  - by exists t1, None, st1.
Qed.

Lemma FinishGrant_obeys a :
  obeys (λ _ e, ∃ q i s, e = EvExec q i s) (λ _ : @St W, tt) (FinishGrant a).
Proof.
  unfold FinishGrant. obeys_auto.
Qed.

Lemma SendEmail_trace o st :
  trace_of (SendEmail o st) = [] ∨ ∃ body, trace_of (SendEmail o st) = [EvEnqueue o body].
Proof.
  unfold SendEmail. destruct (negb _); [by left|].
  unfold mbind, Go_bind, get, emit, mret, Go_ret, trace_of. simpl.
  destruct (template_Execute o (world st)); simpl; [by left|]. right. eauto.
Qed.

(** What [notify] does: it may read the store, and then puts at most one
    message on the queue, which is the one for the grant. *)
Lemma notify_trace opts a st :
  ∃ tr tl, trace_of (notify opts a st) = tr ++ tl ∧
           Forall (λ e, is_read e = true) tr ∧
           (tl = [] ∨ ∃ o body, tl = [EvEnqueue o body] ∧ notifies o a).
Proof.
  unfold notify. rewrite bind_run.
  destruct (obeys_try _ _ _ (GetSiteById_obeys (newerpol.WebsiteId a)) st)
    as [Ht _].
  unfold trace_of, result_of, state_of in *.
  destruct (try (GetSiteById (newerpol.WebsiteId a)) st) as [[[e|r] st1] tr];
    simpl in *.
  { exists tr, []. rewrite app_nil_r. by split_and!; auto. }
  exists tr. eexists. split; [reflexivity|]. split; [done|].
  destruct r as [e|[l|]]; simpl; [by left| |by left].
  unfold mbind, Go_bind, deref, mret, Go_ret.
  destruct (heap st1 !! l) as [s|]; simpl; [|by left].
  destruct (String.eqb _ ""); simpl; [by left|].
  match goal with |- context [SendEmail ?o st1] =>
    assert (notifies o a) as Hn;
    [|destruct (SendEmail_trace o st1) as [Hs|[body Hs]];
      unfold trace_of in Hs;
      destruct (SendEmail o st1) as [[[?|?] ?] ?]; simpl in *; subst;
      rewrite ?app_nil_r; first [by left|right; eauto]]
  end.
  unfold notifies.
  destruct (_ =? newerpol.AccessGrantPending)%Z;
    [|destruct (_ =? newerpol.AccessRevokePending)%Z];
    destruct (negb _); done.
Qed.

End sync_facts.

Section sync_order.
Context {W : Type} `{External W}.
Implicit Types (st : @St W) (a : newerpol.AccessRecord).

Lemma eau_exec_app cur tF t :
  Forall (λ e, ∃ q i s, e = EvExec q i s) tF →
  (∀ c, enqueue_after_update c t) → enqueue_after_update cur (tF ++ t).
Proof.
  intros HF Ht. revert cur.
  induction HF as [|e tF (q&i&s&->) _ IH]; intros cur; [apply Ht|].
  simpl. apply IH.
Qed.

(** The part of the loop of [finishGrants] that deals with one grant. *)
Lemma finishOne_trace opts (se : bool) a st :
  let t := trace_of
    ((if dryRun opts then mret tt
      else
        r ← try (FinishGrant a);
        match r with
        | inl e => emit (EvFinishGrant a false (Some e)) ;; fail ("sync: " +:+ e)
        | inr updated =>
            emit (EvFinishGrant a updated None) ;;
            if updated && se then notify opts a else mret tt
        end) st) in
  Forall (λ e, is_commit_sites e = false) t ∧
  (∀ cur, enqueue_after_update cur t) ∧
  (se = false → Forall (λ e, is_enqueue e = false) t).
Proof.
  destruct (dryRun opts); [by split_and!|].
  rewrite bind_run.
  destruct (obeys_try _ _ _ (FinishGrant_obeys a) st) as [HtF _].
  unfold trace_of, result_of, state_of in *.
  destruct (try (FinishGrant a) st) as [[[e|r] st1] tF]; simpl in *.
  { split_and!.
    - eapply Forall_impl; [exact HtF|]. by intros ? (?&?&?&->).
    - intros cur. rewrite <-(app_nil_r tF). by apply eau_exec_app.
    - intros _. eapply Forall_impl; [exact HtF|]. by intros ? (?&?&?&->). }
  assert (Forall (λ e, is_commit_sites e = false) tF) as Hc1
    by (eapply Forall_impl; [exact HtF|]; by intros ? (?&?&?&->)).
  assert (Forall (λ e, is_enqueue e = false) tF) as He1
    by (eapply Forall_impl; [exact HtF|]; by intros ? (?&?&?&->)).
  destruct r as [e|updated].
  - unfold mbind, Go_bind, emit, fail; simpl. split_and!.
    + apply Forall_app. split; [done|]. by repeat constructor.
    + intros cur. apply eau_exec_app; [done|]. intros c. by simpl.
    + intros _. apply Forall_app. split; [done|]. by repeat constructor.
  - unfold mbind, Go_bind, emit; simpl.
    destruct (updated && se) eqn:Hus.
    + apply andb_true_iff in Hus as [-> ->].
      destruct (notify_trace opts a st1) as (tr&tl&Hn&Hr&Htl).
      unfold trace_of in Hn.
      destruct (notify opts a st1) as [[rn stn] tn]; simpl in *. subst tn.
      assert (Forall (λ e, is_commit_sites e = false) (tr ++ tl)) as Hc2.
      { apply Forall_app. split.
        - eapply Forall_impl; [exact Hr|]. by intros [].
        - destruct Htl as [->|(o&b&->&_)]; by repeat constructor. }
      split_and!.
      * apply Forall_app. split; [done|]. by constructor.
      * intros cur. apply eau_exec_app; [done|]. intros c. simpl.
        split; [done|]. apply eau_neutral_app.
        { eapply Forall_impl; [exact Hr|]. by intros []. }
        destruct Htl as [->|(o&b&->&Hno)]; simpl; eauto.
      * done.
    + unfold mret, Go_ret; simpl. split_and!.
      * apply Forall_app. split; [done|]. by repeat constructor.
      * intros cur. apply eau_exec_app; [done|]. intros c. simpl.
        split; [|done]. intros ->. done.
      * intros _. apply Forall_app. split; [done|]. by repeat constructor.
Qed.

Lemma finishGrants_trace opts (se : bool) grants st :
  let t := trace_of (finishGrants opts se grants st) in
  Forall (λ e, is_commit_sites e = false) t ∧
  (∀ cur, enqueue_after_update cur t) ∧
  (se = false → Forall (λ e, is_enqueue e = false) t).
Proof.
  revert st. induction grants as [|a grants IH]; intros st; simpl.
  { by split_and!. }
  rewrite bind_run.
  destruct (finishOne_trace opts se a st) as (Hc&He&Hn).
  unfold trace_of, result_of, state_of in *.
  match goal with |- context [?m st] =>
    destruct (m st) as [[[e|[]] st1] t1]; simpl in *
  end.
  { by split_and!. }
  destruct (IH st1) as (Hc2&He2&Hn2).
  split_and!.
  - by apply Forall_app.
  - intros cur. by apply eau_app.
  - intros Hse. apply Forall_app. auto.
Qed.

Lemma syncFinish_trace opts grants st :
  let t := trace_of (syncFinish opts grants st) in
  Forall (λ e, is_commit_sites e = false) t ∧
  (∀ cur, enqueue_after_update cur t) ∧
  (dryRun opts = true ∨ noEmail opts = true →
   Forall (λ e, is_enqueue e = false) t).
Proof.
  unfold syncFinish. rewrite bind_run.
  assert (∃ se st1 t1,
    (if negb (dryRun opts) && negb (noEmail opts)
     then r ← StartWorker; mret (match r with Some _ => false | None => true end)
     else mret false) st = (inr se, st1, t1) ∧
    (t1 = [] ∨ t1 = [EvStartWorker]) ∧
    (se = true → dryRun opts = false ∧ noEmail opts = false))
    as (se&st1&t1&->&Ht1&Hse).
  { destruct (dryRun opts), (noEmail opts); simpl;
      try (by eexists false, _, _; split_and!; [reflexivity|left|]).
    unfold StartWorker, mbind, Go_bind, get, modify, emit, mret, Go_ret.
    simpl. destruct (worker_started st); simpl.
    { eexists _, _, _. split_and!; [reflexivity|by left|done]. }
    destruct (smtp_Dial (world st)); simpl.
    - eexists _, _, _. split_and!; [reflexivity|by left|done].
    - eexists _, _, _. split_and!; [reflexivity|by right|done]. }
  unfold result_of, state_of, trace_of; simpl. rewrite bind_run.
  destruct (finishGrants_trace opts se grants st1) as (Hc&He&Hn).
  unfold result_of, state_of, trace_of in *.
  assert (Forall (λ e, is_commit_sites e = false ∧ is_finish e = false ∧
                       is_enqueue e = false) t1) as Hneutral
    by (destruct Ht1 as [->| ->]; by repeat constructor).
  destruct (finishGrants opts se grants st1) as [[[e|[]] st2] t2]; simpl in *.
  - split_and!.
    + apply Forall_app. split; [|done].
      eapply Forall_impl; [exact Hneutral|]. by intros ? (?&?&?).
    + intros cur. apply eau_neutral_app; [|done].
      eapply Forall_impl; [exact Hneutral|]. by intros ? (?&?&?).
    + intros Hoff. apply Forall_app. split.
      * eapply Forall_impl; [exact Hneutral|]. by intros ? (?&?&?).
      * apply Hn. destruct se; [|done]. destruct (Hse eq_refl) as [??].
        destruct Hoff; congruence.
  - assert (∃ t3, ((if se then ShutdownWorker else mret tt) st2).2 = t3 ∧
                  Forall (λ e, is_commit_sites e = false ∧ is_finish e = false ∧
                               is_enqueue e = false) t3) as (t3&->&Hn3).
    { destruct se; eexists; split; try reflexivity; by repeat constructor. }
    split_and!.
    + apply Forall_app. split.
      { eapply Forall_impl; [exact Hneutral|]. by intros ? (?&?&?). }
      apply Forall_app. split; [done|].
      eapply Forall_impl; [exact Hn3|]. by intros ? (?&?&?).
    + intros cur. apply eau_neutral_app.
      { eapply Forall_impl; [exact Hneutral|]. by intros ? (?&?&?). }
      apply eau_app; [done|]. intros c.
      rewrite <-(app_nil_r t3). apply eau_neutral_app; [|done].
      eapply Forall_impl; [exact Hn3|]. by intros ? (?&?&?).
    + intros Hoff. apply Forall_app. split.
      { eapply Forall_impl; [exact Hneutral|]. by intros ? (?&?&?). }
      apply Forall_app. split.
      * apply Hn. destruct se; [|done]. destruct (Hse eq_refl) as [??].
        destruct Hoff; congruence.
      * eapply Forall_impl; [exact Hn3|]. by intros ? (?&?&?).
Qed.

End sync_order.

Section sync_theorem.
Context {W : Type} `{External W}.
Implicit Types (st : @St W) (a : newerpol.AccessRecord).

(** The shape of a sync run: steps that touch neither ledger nor mail
    queue, then the report of the commit step, and, only when that report
    is a success, the finalization. *)
Lemma doSync_shape opts st :
  let t := trace_of (doSync opts st) in
  ∃ tp,
    Forall (λ e, is_commit_sites e = false ∧ is_finish e = false ∧
                 is_enqueue e = false) tp ∧
    (t = tp ∨
     (∃ err, t = tp ++ [EvCommitSites (Some err)]) ∨
     ∃ tf, t = tp ++ EvCommitSites None :: tf ∧
           Forall (λ e, is_commit_sites e = false) tf ∧
           (∀ cur, enqueue_after_update cur tf) ∧
           (dryRun opts = true ∨ noEmail opts = true →
            Forall (λ e, is_enqueue e = false) tf)).
Proof.
  unfold doSync. rewrite bind_run.
  destruct (syncApply_obeys st) as [Hpre _].
  unfold trace_of, result_of, state_of in *.
  assert (Forall (λ e, is_commit_sites e = false ∧ is_finish e = false ∧
                       is_enqueue e = false) (syncApply st).2) as Hpre'.
  { eapply Forall_impl; [exact Hpre|]. by intros []. }
  clear Hpre.
  destruct (syncApply st) as [[[e|r] st1] t1]; simpl in *.
  { exists t1. split; [done|]. by left. }
  rewrite bind_run.
  destruct (syncCommit_run opts r.1 st1) as (tc&c&st2&->&Hc).
  unfold trace_of, result_of, state_of; simpl.
  exists (t1 ++ tc). split; [by apply Forall_app|].
  destruct c as [err|]; simpl.
  - right. left. exists err. by rewrite app_assoc.
  - right. right. destruct (syncFinish_trace opts r.2 st2) as (H1&H2&H3).
    exists (trace_of (syncFinish opts r.2 st2)). split_and!; try done.
    unfold trace_of. by rewrite <-!app_assoc.
Qed.

(** C3.  In a sync run the commit step is reported at most once.  If it
    failed, no statement is run on the ledger, [FinishGrant] never returns
    (it is never called) and nothing is put on the mail queue.  Every step
    of a finalization, and every message put on the queue, comes after the
    report that the commit step succeeded.  Every message put on the queue
    comes, with no ledger step in between, after the return of
    [FinishGrant] for the grant the message is about, which returned
    [updated = true] and no error; and then neither the dry-run nor the
    no-email switch is set. *)
Theorem sync_causal_order opts st :
  let t := trace_of (doSync opts st) in
  length (filter (λ e, is_commit_sites e = true) t) ≤ 1
  ∧ (∀ err, EvCommitSites (Some err) ∈ t →
       Forall (λ e, is_finish e = false ∧ is_enqueue e = false) t)
  ∧ (∀ t1 e t2, t = t1 ++ e :: t2 →
       is_finish e = true ∨ is_enqueue e = true →
       EvCommitSites None ∈ t1)
  ∧ (∀ t1 o body t2, t = t1 ++ EvEnqueue o body :: t2 →
       dryRun opts = false ∧ noEmail opts = false ∧
       ∃ a t0 t0', t1 = t0 ++ EvFinishGrant a true None :: t0' ∧
                   notifies o a ∧
                   Forall (λ e, is_finish e = false) t0').
Proof.
  destruct (doSync_shape opts st) as (tp&Hp&Hshape). cbv zeta in *.
  revert Hshape. generalize (trace_of (doSync opts st)). intros t Hshape.
  assert (∀ l, Forall (λ e, is_commit_sites e = false) l →
               filter (λ e, is_commit_sites e = true) l = []) as Hnone.
  { induction 1 as [|x l Hx _ IH]; [done|].
    rewrite filter_cons_False; [done|congruence]. }
  assert (Forall (λ e, is_commit_sites e = false) tp) as Hp1
    by (eapply Forall_impl; [exact Hp|]; by intros ? (?&?&?)).
  assert (Forall (λ x, ¬ (is_finish x = true ∨ is_enqueue x = true)) tp) as Hp2.
  { eapply Forall_impl; [exact Hp|]. intros ? (?&?&?) [?|?]; congruence. }
  assert (Forall (λ e, is_finish e = false ∧ is_enqueue e = false) tp) as Hp3
    by (eapply Forall_impl; [exact Hp|]; by intros ? (?&?&?)).
  destruct Hshape as [->|[(err'&->)|(tf&->&Hf1&Hf2&Hf3)]].
  - split_and!.
    + rewrite (Hnone _ Hp1). simpl. lia.
    + done.
    + intros t1 e t2 Heq He. exfalso.
      rewrite Forall_forall in Hp2. apply (Hp2 e); [|done].
      rewrite Heq. apply elem_of_app. right. by left.
    + intros t1 o body t2 Heq. exfalso.
      rewrite Forall_forall in Hp2. apply (Hp2 (EvEnqueue o body)); [|by right].
      rewrite Heq. apply elem_of_app. right. by left.
  - assert (Forall (λ x, ¬ (is_finish x = true ∨ is_enqueue x = true))
              (tp ++ [EvCommitSites (Some err')])) as Hall.
    { apply Forall_app. split; [done|]. repeat constructor.
      intros [?|?]; discriminate. }
    split_and!.
    + rewrite filter_app, (Hnone _ Hp1). simpl. lia.
    + intros err _. apply Forall_app. split; [done|]. by repeat constructor.
    + intros t1 e t2 Heq He. exfalso.
      rewrite Forall_forall in Hall. apply (Hall e); [|done].
      rewrite Heq. apply elem_of_app. right. by left.
    + intros t1 o body t2 Heq. exfalso.
      rewrite Forall_forall in Hall. apply (Hall (EvEnqueue o body)); [|by right].
      rewrite Heq. apply elem_of_app. right. by left.
  - assert (Forall (λ x, ¬ (is_finish x = true ∨ is_enqueue x = true))
              (tp ++ [EvCommitSites None])) as Hall.
    { apply Forall_app. split; [done|]. repeat constructor.
      intros [?|?]; discriminate. }
    assert (∀ t1 e t2, tp ++ EvCommitSites None :: tf = t1 ++ e :: t2 →
              is_finish e = true ∨ is_enqueue e = true →
              ∃ t1', t1 = (tp ++ [EvCommitSites None]) ++ t1' ∧
                     tf = t1' ++ e :: t2) as Hsplit.
    { intros t1 e t2 Heq He.
      apply (split_after (λ x, is_finish x = true ∨ is_enqueue x = true));
        [done|done|]. by rewrite <-Heq, <-app_assoc. }
    split_and!.
    + rewrite filter_app, (Hnone _ Hp1), filter_cons_True, (Hnone _ Hf1) by done.
      simpl. lia.
    + intros err Hin. exfalso.
      apply elem_of_app in Hin as [Hin|Hin].
      { rewrite Forall_forall in Hp1. by apply Hp1 in Hin. }
      apply elem_of_cons in Hin as [?|Hin]; [done|].
      rewrite Forall_forall in Hf1. by apply Hf1 in Hin.
    + intros t1 e t2 Heq He.
      destruct (Hsplit t1 e t2 Heq He) as (t1'&->&_).
      apply elem_of_app. left. apply elem_of_app. right. by left.
    + intros t1 o body t2 Heq.
      destruct (Hsplit t1 _ t2 Heq (or_intror eq_refl)) as (t1'&->&Htf).
      assert (dryRun opts = false ∧ noEmail opts = false) as [Hd Hn].
      { destruct (dryRun opts) eqn:Hd, (noEmail opts) eqn:Hn; try done;
          exfalso;
          (assert (Forall (λ e, is_enqueue e = false) tf) as Hoff
             by (apply Hf3; auto));
          rewrite Htf in Hoff; apply Forall_app in Hoff as [_ Hoff];
          apply Forall_cons in Hoff as [Hoff _]; discriminate. }
      split; [done|]. split; [done|].
      specialize (Hf2 None). rewrite Htf in Hf2.
      destruct (eau_split None t1' o body t2 Hf2)
        as (a&Hno&[[? _]|(u0&u1&->&Hu1)]); [done|].
      exists a, ((tp ++ [EvCommitSites None]) ++ u0), u1.
      split; [|done]. by rewrite <-!app_assoc.
Qed.

End sync_theorem.

Lemma sync_causal_order_witness :
  let t := trace_of (doSync sync_opts_default sim_sync_st) in
  t = take 12 t ++ EvExec newerpol.grantPendingToGrantedQuery 7 1 :: drop 13 t ∧
  EvCommitSites None ∈ take 12 t.
Proof.
  intros t.
  assert (t = take 12 t ++
              EvExec newerpol.grantPendingToGrantedQuery 7 1 :: drop 13 t) as Heq
    by (vm_compute; reflexivity).
  split; [exact Heq|].
  exact (proj1 (proj2 (proj2 (sync_causal_order sync_opts_default sim_sync_st)))
           _ _ _ Heq (or_introl eq_refl)).
Defined.

(* ========================================================================= *)
(** * Further properties *)
(* ========================================================================= *)

(* ------------------------------------------------------------------------- *)
(** ** The access list as a collection *)
(* ------------------------------------------------------------------------- *)

Section admins_algebra.
Implicit Types (a l : list string) (u v x : string) (s : Site).

(** Both methods rebuild the record from the one they were given: whatever
    they do is told by the list and the flag they leave. *)
Lemma AddAdmin_shape u s :
  AddAdmin u s = set_changed (changed (AddAdmin u s))
                   (set_Admins (Admins (AddAdmin u s)) s).
Proof.
  unfold AddAdmin. destruct (String.eqb u ""); [by destruct s|].
  destruct (_ && _); by destruct s.
Qed.

Lemma RemoveAdmin_shape u s :
  RemoveAdmin u s = set_changed (changed (RemoveAdmin u s))
                      (set_Admins (Admins (RemoveAdmin u s)) s).
Proof.
  unfold RemoveAdmin. destruct (String.eqb u ""); [by destruct s|].
  destruct (_ && _); by destruct s.
Qed.

Lemma AddAdmin_changed u s :
  changed (AddAdmin u s) = changed s || bool_decide (u ≠ "" ∧ u ∉ Admins s).
Proof.
  destruct (decide (u = "")) as [->|Hu].
  { rewrite AddAdmin_empty, bool_decide_eq_false_2, orb_false_r; [done|].
    by intros [? _]. }
  destruct (AddAdmin_unfold u s Hu) as [Hin Hnin].
  destruct (decide (u ∈ Admins s)) as [H|H].
  - rewrite (Hin H), bool_decide_eq_false_2, orb_false_r; [done|]. by intros [_ ?].
  - rewrite (Hnin H), bool_decide_eq_true_2, orb_true_r; done.
Qed.

Lemma RemoveAdmin_changed u s :
  changed (RemoveAdmin u s) = changed s || bool_decide (u ≠ "" ∧ u ∈ Admins s).
Proof.
  destruct (decide (u = "")) as [->|Hu].
  { rewrite RemoveAdmin_empty, bool_decide_eq_false_2, orb_false_r; [done|].
    by intros [? _]. }
  destruct (RemoveAdmin_unfold u s Hu) as [Hin Hnin].
  destruct (decide (u ∈ Admins s)) as [H|H].
  - destruct (Hin H) as [_ ->]. by rewrite bool_decide_eq_true_2, orb_true_r.
  - rewrite (Hnin H), bool_decide_eq_false_2, orb_false_r; [done|]. by intros [_ ?].
Qed.

Lemma AddAdmin_perm u s :
  Admins (AddAdmin u s) ≡ₚ
    (if decide (u = "" ∨ u ∈ Admins s) then Admins s else u :: Admins s).
Proof.
  destruct (decide (u = "")) as [->|Hu].
  { rewrite AddAdmin_empty. by rewrite decide_True by auto. }
  destruct (AddAdmin_unfold u s Hu) as [Hin Hnin].
  destruct (decide (u ∈ Admins s)) as [H|H].
  - rewrite (Hin H), decide_True by auto. apply Strings_perm.
  - rewrite (Hnin H), decide_False by tauto. simpl.
    by rewrite <-Permutation_middle, take_drop, Strings_perm.
Qed.

(** X1.  [AddAdmin] keeps the entries of the list and adds one entry for the
    name, unless the name is empty or already there; the flag is raised in
    exactly that case. *)
Theorem AddAdmin_entries u s :
  Admins (AddAdmin u s) ≡ₚ
    (if decide (u = "" ∨ u ∈ Admins s) then Admins s else u :: Admins s) ∧
  changed (AddAdmin u s) = changed s || bool_decide (u ≠ "" ∧ u ∉ Admins s).
Proof. split; [apply AddAdmin_perm|apply AddAdmin_changed]. Qed.

Lemma RemoveAdmin_perm u s :
  Admins s ≡ₚ
    (if decide (u ≠ "" ∧ u ∈ Admins s)
     then u :: Admins (RemoveAdmin u s) else Admins (RemoveAdmin u s)).
Proof.
  destruct (decide (u = "")) as [->|Hu].
  { rewrite RemoveAdmin_empty. by rewrite decide_False by (by intros [? _]). }
  destruct (RemoveAdmin_unfold u s Hu) as [Hin Hnin].
  destruct (decide (u ∈ Admins s)) as [H|H].
  - destruct (Hin H) as [Hpos ->]. rewrite decide_True by auto. simpl.
    by rewrite <-(delete_Permutation _ _ _ Hpos), Strings_perm.
  - rewrite (Hnin H), decide_False by tauto. simpl. by rewrite Strings_perm.
Qed.

(** X2.  [RemoveAdmin] takes out one occurrence of a non-empty name that is
    in the list, and no more than one: of a name listed twice, one entry
    stays.  Otherwise it keeps the entries. *)
Theorem RemoveAdmin_entries u s :
  Admins s ≡ₚ
    (if decide (u ≠ "" ∧ u ∈ Admins s)
     then u :: Admins (RemoveAdmin u s) else Admins (RemoveAdmin u s)) ∧
  changed (RemoveAdmin u s) = changed s || bool_decide (u ≠ "" ∧ u ∈ Admins s).
Proof. split; [apply RemoveAdmin_perm|apply RemoveAdmin_changed]. Qed.

Lemma sorted_perm_eq a b :
  StronglySorted String.le a → StronglySorted String.le b → a ≡ₚ b → a = b.
Proof. apply (StronglySorted_unique String.le). Qed.

(** X3.  Adding a name twice is adding it once, on any record. *)
Theorem AddAdmin_idempotent u s : AddAdmin u (AddAdmin u s) = AddAdmin u s.
Proof.
  destruct (decide (u = "")) as [->|Hu]; [done|].
  set (s1 := AddAdmin u s).
  assert (u ∈ Admins s1) as Hin.
  { pose proof (AddAdmin_perm u s) as Hp. fold s1 in Hp. rewrite Hp.
    case_decide as Hc; [by destruct Hc|by left]. }
  destruct (AddAdmin_unfold u s1 Hu) as [H1 _]. rewrite (H1 Hin).
  rewrite Strings_id, set_Admins_id; [done|].
  apply StronglySorted_Sorted. by apply AddAdmin_sorted.
Qed.

Lemma RemoveAdmin_gone u s :
  NoDup (Admins s) → u ≠ "" → u ∉ Admins (RemoveAdmin u s).
Proof.
  intros Hnd Hu. pose proof (RemoveAdmin_perm u s) as Hp.
  case_decide as Hc.
  - rewrite Hp in Hnd. by apply NoDup_cons in Hnd as [? _].
  - intros Hin. apply Hc. split; [done|]. by rewrite Hp.
Qed.

(** X4.  On a list without duplicates, removing a name leaves a list without
    it, and removing it again changes nothing. *)
Theorem RemoveAdmin_idempotent u s :
  NoDup (Admins s) →
  (u ≠ "" → u ∉ Admins (RemoveAdmin u s)) ∧
  RemoveAdmin u (RemoveAdmin u s) = RemoveAdmin u s.
Proof.
  intros Hnd.
  destruct (decide (u = "")) as [->|Hu]; [done|].
  set (s1 := RemoveAdmin u s).
  assert (u ∉ Admins s1) as Hnin by (by apply RemoveAdmin_gone).
  split; [done|].
  destruct (RemoveAdmin_unfold u s1 Hu) as [_ H1]. rewrite (H1 Hnin).
  rewrite Strings_id, set_Admins_id; [done|].
  apply StronglySorted_Sorted. by apply RemoveAdmin_sorted.
Qed.

(** X5.  Adding a new name and removing it again gives back the list, in
    sorted order; so does removing a name listed once and adding it again. *)
Theorem AddAdmin_RemoveAdmin_round_trip u s :
  u ≠ "" →
  (u ∉ Admins s →
     Admins (RemoveAdmin u (AddAdmin u s)) = gosort.Strings (Admins s)) ∧
  (u ∈ Admins s → NoDup (Admins s) →
     Admins (AddAdmin u (RemoveAdmin u s)) = gosort.Strings (Admins s)).
Proof.
  intros Hu. split.
  - intros Hnin. apply sorted_perm_eq;
      [by apply RemoveAdmin_sorted|apply Strings_sorted|].
    rewrite Strings_perm.
    pose proof (AddAdmin_perm u s) as Ha.
    rewrite decide_False in Ha by tauto.
    pose proof (RemoveAdmin_perm u (AddAdmin u s)) as Hr.
    rewrite decide_True in Hr by (split; [done|]; rewrite Ha; by left).
    rewrite Ha in Hr. by apply (inj (u ::.)) in Hr.
  - intros Hin Hnd. apply sorted_perm_eq;
      [by apply AddAdmin_sorted|apply Strings_sorted|].
    rewrite Strings_perm.
    pose proof (RemoveAdmin_perm u s) as Hr.
    rewrite decide_True in Hr by done.
    pose proof (RemoveAdmin_gone u s Hnd) as Hgone.
    pose proof (AddAdmin_perm u (RemoveAdmin u s)) as Ha.
    rewrite decide_False in Ha by (intros [?|?]; [done|by apply Hgone]).
    by rewrite Ha, Hr.
Qed.

Lemma site_shape_eq s a1 c1 a2 c2 s1 s2 :
  s1 = set_changed c1 (set_Admins a1 s) →
  s2 = set_changed c2 (set_Admins a2 s) →
  a1 = a2 → c1 = c2 → s1 = s2.
Proof. by intros -> -> -> ->. Qed.

Lemma AddAdmin_shape_over u s0 s :
  (∃ a c, s = set_changed c (set_Admins a s0)) →
  ∃ a c, AddAdmin u s = set_changed c (set_Admins a s0).
Proof.
  intros (a&c&->). rewrite AddAdmin_shape. by eexists _, _.
Qed.

Lemma RemoveAdmin_shape_over u s0 s :
  (∃ a c, s = set_changed c (set_Admins a s0)) →
  ∃ a c, RemoveAdmin u s = set_changed c (set_Admins a s0).
Proof.
  intros (a&c&->). rewrite RemoveAdmin_shape. by eexists _, _.
Qed.

Lemma shape_refl s : ∃ a c, s = set_changed c (set_Admins a s).
Proof. exists (Admins s), (changed s). by destruct s. Qed.

Lemma shape_over_eq s0 s1 s2 :
  (∃ a c, s1 = set_changed c (set_Admins a s0)) →
  (∃ a c, s2 = set_changed c (set_Admins a s0)) →
  Admins s1 = Admins s2 → changed s1 = changed s2 → s1 = s2.
Proof. intros (a1&c1&->) (a2&c2&->). simpl. by intros -> ->. Qed.

Lemma AddAdmin_elem_of x u s :
  x ∈ Admins (AddAdmin u s) ↔ x ∈ Admins s ∨ (x = u ∧ u ≠ "").
Proof.
  pose proof (AddAdmin_perm u s) as Hp. rewrite Hp.
  case_decide as Hc.
  - split; [by left|]. intros [?|[-> Hu]]; [done|]. by destruct Hc.
  - rewrite elem_of_cons. split; intros [?|?]; tauto.
Qed.

Lemma RemoveAdmin_elem_of_ne x u s :
  x ≠ u → x ∈ Admins (RemoveAdmin u s) ↔ x ∈ Admins s.
Proof.
  intros Hne. pose proof (RemoveAdmin_perm u s) as Hp. rewrite Hp.
  case_decide; [|done]. rewrite elem_of_cons. tauto.
Qed.

(** X6.  Names can be added in any order: the record reached is the same. *)
Theorem AddAdmin_comm u v s :
  AddAdmin u (AddAdmin v s) = AddAdmin v (AddAdmin u s).
Proof.
  destruct (decide (u = "")) as [->|Hu]; [done|].
  destruct (decide (v = "")) as [->|Hv]; [done|].
  destruct (decide (u = v)) as [->|Huv]; [done|].
  apply (shape_over_eq s);
    [by do 2 apply AddAdmin_shape_over; apply shape_refl..| |].
  - apply sorted_perm_eq; [by apply AddAdmin_sorted..|].
    rewrite (AddAdmin_perm u (AddAdmin v s)).
    rewrite (AddAdmin_perm v (AddAdmin u s)).
    pose proof (AddAdmin_perm u s) as Hpu.
    pose proof (AddAdmin_perm v s) as Hpv.
    rewrite (decide_ext (u = "" ∨ u ∈ Admins (AddAdmin v s))
                        (u = "" ∨ u ∈ Admins s))
      by (rewrite AddAdmin_elem_of; intuition congruence).
    rewrite (decide_ext (v = "" ∨ v ∈ Admins (AddAdmin u s))
                        (v = "" ∨ v ∈ Admins s))
      by (rewrite AddAdmin_elem_of; intuition congruence).
    destruct (decide (u = "" ∨ u ∈ Admins s)),
             (decide (v = "" ∨ v ∈ Admins s));
      rewrite Hpu, Hpv; try done.
    apply Permutation_swap.
  - rewrite !AddAdmin_changed.
    rewrite (bool_decide_ext (u ≠ "" ∧ u ∉ Admins (AddAdmin v s))
                             (u ≠ "" ∧ u ∉ Admins s))
      by (rewrite AddAdmin_elem_of; intuition congruence).
    rewrite (bool_decide_ext (v ≠ "" ∧ v ∉ Admins (AddAdmin u s))
                             (v ≠ "" ∧ v ∉ Admins s))
      by (rewrite AddAdmin_elem_of; intuition congruence).
    by destruct (changed s), (bool_decide _), (bool_decide _).
Qed.

(** X7.  A grant and a revocation of different names can be applied in either
    order. *)
Theorem AddAdmin_RemoveAdmin_comm u v s :
  u ≠ v → AddAdmin u (RemoveAdmin v s) = RemoveAdmin v (AddAdmin u s).
Proof.
  intros Huv.
  destruct (decide (u = "")) as [->|Hu]; [done|].
  destruct (decide (v = "")) as [->|Hv]; [done|].
  apply (shape_over_eq s);
    [apply AddAdmin_shape_over, RemoveAdmin_shape_over, shape_refl
    |apply RemoveAdmin_shape_over, AddAdmin_shape_over, shape_refl| |].
  - apply sorted_perm_eq;
      [by apply AddAdmin_sorted|by apply RemoveAdmin_sorted|].
    pose proof (AddAdmin_perm u (RemoveAdmin v s)) as Hau.
    pose proof (RemoveAdmin_perm v (AddAdmin u s)) as Hrv.
    pose proof (AddAdmin_perm u s) as Hpu.
    pose proof (RemoveAdmin_perm v s) as Hpv.
    rewrite (decide_ext _ (u = "" ∨ u ∈ Admins s)) in Hau
      by (rewrite RemoveAdmin_elem_of_ne by done; tauto).
    rewrite (decide_ext _ (v ≠ "" ∧ v ∈ Admins s)) in Hrv
      by (rewrite AddAdmin_elem_of; intuition congruence).
    rewrite Hau. clear Hau.
    destruct (decide (u = "" ∨ u ∈ Admins s)),
             (decide (v ≠ "" ∧ v ∈ Admins s)).
    + rewrite Hpu, Hpv in Hrv. by apply (inj (v ::.)) in Hrv.
    + by rewrite <-Hpv, <-Hrv, Hpu.
    + rewrite Hpu, Hpv, Permutation_swap in Hrv.
      by apply (inj (v ::.)) in Hrv.
    + by rewrite <-Hpv, <-Hrv, Hpu.
  - rewrite AddAdmin_changed, !RemoveAdmin_changed, AddAdmin_changed.
    rewrite (bool_decide_ext (u ≠ "" ∧ u ∉ Admins (RemoveAdmin v s))
                             (u ≠ "" ∧ u ∉ Admins s))
      by (rewrite RemoveAdmin_elem_of_ne by done; tauto).
    rewrite (bool_decide_ext (v ≠ "" ∧ v ∈ Admins (AddAdmin u s))
                             (v ≠ "" ∧ v ∈ Admins s))
      by (rewrite AddAdmin_elem_of; intuition congruence).
    by destruct (changed s), (bool_decide _), (bool_decide _).
Qed.

End admins_algebra.

Lemma RemoveAdmin_idempotent_witness :
  NoDup (Admins site_ac) ∧
  ("alice" ∉ Admins (RemoveAdmin "alice" site_ac)) ∧
  RemoveAdmin "alice" (RemoveAdmin "alice" site_ac) = RemoveAdmin "alice" site_ac.
Proof.
  assert (NoDup (Admins site_ac)) as H
    by (apply (bool_decide_unpack _); vm_compute; exact I).
  split; [exact H|].
  destruct (RemoveAdmin_idempotent "alice" site_ac H) as [Hgone Hsame].
  split; [apply Hgone; discriminate|exact Hsame].
Defined.

Lemma AddAdmin_RemoveAdmin_round_trip_witness :
  Admins (RemoveAdmin "bob" (AddAdmin "bob" site_unsorted)) = ["a"; "b"] ∧
  Admins (AddAdmin "a" (RemoveAdmin "a" site_unsorted)) = ["a"; "b"].
Proof.
  assert ("bob" ≠ "") as Hb by discriminate.
  assert ("a" ≠ "") as Ha by discriminate.
  split.
  - apply (proj1 (AddAdmin_RemoveAdmin_round_trip "bob" site_unsorted Hb)).
    apply (bool_decide_unpack _); vm_compute; exact I.
  - apply (proj2 (AddAdmin_RemoveAdmin_round_trip "a" site_unsorted Ha)).
    + apply (bool_decide_unpack _); vm_compute; exact I.
    + apply (bool_decide_unpack _); vm_compute; exact I.
Defined.

Lemma AddAdmin_RemoveAdmin_comm_witness :
  AddAdmin "bob" (RemoveAdmin "alice" site_ac)
  = RemoveAdmin "alice" (AddAdmin "bob" site_ac).
Proof. apply (AddAdmin_RemoveAdmin_comm "bob" "alice" site_ac). discriminate. Defined.

(* ------------------------------------------------------------------------- *)
(** ** The file of a record *)
(* ------------------------------------------------------------------------- *)

Section path_facts.
Implicit Types (s pre suf : string) (c : ascii).

Lemma string_length_app pre suf :
  String.length (pre +:+ suf) = String.length pre + String.length suf.
Proof. induction pre as [|a pre IH]; simpl; [done|by rewrite IH]. Qed.

Lemma substring_full s : substring 0 (String.length s) s = s.
Proof. induction s as [|a s IH]; simpl; [done|by rewrite IH]. Qed.

Lemma substring_app_l pre suf :
  substring 0 (String.length pre) (pre +:+ suf) = pre.
Proof.
  induction pre as [|a pre IH]; simpl; [by destruct suf|by rewrite IH].
Qed.

Lemma substring_app_r pre suf n :
  substring (String.length pre) n (pre +:+ suf) = substring 0 n suf.
Proof. induction pre as [|a pre IH]; simpl; done. Qed.

Lemma substring_empty s n : substring n 0 s = "".
Proof. revert n. induction s as [|a s IH]; intros [|n]; simpl; auto. Qed.

Lemma string_app_empty s : s +:+ "" = s.
Proof.
  induction s as [|a s IH]; [done|].
  change (String a (s +:+ "") = String a s). by rewrite IH.
Qed.

(** [strings.TrimSuffix] takes off a suffix that is there. *)
Lemma TrimSuffix_app pre suf : TrimSuffix (pre +:+ suf) suf = pre.
Proof.
  unfold TrimSuffix. rewrite string_length_app.
  replace (String.length pre + String.length suf - String.length suf)
    with (String.length pre) by lia.
  rewrite substring_app_r, substring_full, String.eqb_refl, substring_app_l.
  by rewrite (proj2 (Nat.leb_le _ _)) by lia.
Qed.

Lemma after_last_Some c s r :
  after_last c s = Some r → ∃ pre, s = pre +:+ String c r.
Proof.
  revert r. induction s as [|a s IH]; intros r; simpl; [done|].
  destruct (after_last c s) as [r'|].
  - intros [= ->]. destruct (IH r eq_refl) as [pre ->]. by exists (String a pre).
  - destruct (Ascii.eqb_spec a c) as [->|]; [|done].
    intros [= ->]. by exists "".
Qed.

(** A name with the extension [e] is the name without it, followed by [e]. *)
Lemma TrimSuffix_Ext fn : TrimSuffix fn (path_Ext fn) +:+ path_Ext fn = fn.
Proof.
  unfold path_Ext. destruct (after_last "." fn) as [e|] eqn:He.
  - apply after_last_Some in He as [pre ->]. by rewrite TrimSuffix_app.
  - unfold TrimSuffix. simpl.
    rewrite Nat.sub_0_r, substring_empty, substring_full, string_app_empty.
    done.
Qed.

End path_facts.

Section file_facts.
Context {W : Type} `{External W}.
Implicit Types (st : @St W) (s : Site).

(** X8.  A record that [LoadSite] returns was read, in one step that changes
    nothing, from the file [FileName] gives for it, and this is the one file
    [Save] writes it to: the file name handed in, without its directory, in
    the sites directory of the store; and its name is that file name without
    [.yaml]. *)
Theorem LoadSite_Save_same_file fn st s st' t :
  LoadSite fn st = (inr s, st', t) →
  st' = st ∧
  name s +:+ ".yaml" = path_file fn ∧
  t = [EvReadFile (FileName (viper st) s)] ∧
  (∀ w p d, EvWriteFile p d ∈ (Save_site (viper st) s w).2 →
            p = FileName (viper st) s).
Proof.
  unfold LoadSite.
  destruct (String.eqb_spec (path_Ext (path_file fn)) ".yaml") as [Hext|];
    [|done]. simpl.
  unfold mbind, Go_bind, get, emit, check_val, fail, mret, Go_ret. simpl.
  destruct (ioutil_ReadFile _ _) as [e|data]; [done|]. simpl.
  unfold yaml_Unmarshal. destruct (yaml_decode _ _) as [e|s']; [done|]. simpl.
  intros [= <- <- <-].
  match goal with |- _ ∧ name ?x +:+ _ = _ ∧ _ => set (s0 := x) end.
  assert (name s0 +:+ ".yaml" = path_file fn) as Hn.
  { change (TrimSuffix (path_file fn) (path_Ext (path_file fn)) +:+ ".yaml"
            = path_file fn).
    rewrite <-Hext at 1. apply TrimSuffix_Ext. }
  split_and!; [done|exact Hn|unfold FileName; by rewrite Hn|].
  intros w p d. unfold Save_site.
  destruct (yaml_Marshal _) as [e|y]; simpl.
  { by intros [=]%list_elem_of_singleton. }
  destruct (ioutil_WriteFile _ _ _) as [[e|] w']; simpl;
    rewrite !elem_of_cons, elem_of_nil; intros [[=]|[[= -> _]|[]]]; done.
Qed.

End file_facts.

Lemma LoadSite_Save_same_file_witness :
  trace_of (LoadSite "club.yaml" sim_st0) = [EvReadFile "/cdb/sites/club.yaml"].
Proof.
  destruct (LoadSite "club.yaml" sim_st0) as [[r st'] t] eqn:E.
  assert (r = inr (set_name "club" (set_Admins ["alice"] NewSite))) as ->
    by (by vm_compute in E; injection E as <- _ _).
  destruct (LoadSite_Save_same_file _ _ _ _ _ E) as (_&_&->&_).
  reflexivity.
Defined.

(* ------------------------------------------------------------------------- *)
(** ** The ledger *)
(* ------------------------------------------------------------------------- *)

Section grouping_facts.
Implicit Types (rows : list newerpol.AccessRecord) (k : Z).

Lemma group_fold rows (m : gmap Z (list newerpol.AccessRecord)) k :
  fold_left (λ m g, <[newerpol.WebsiteId g :=
                        default [] (m !! newerpol.WebsiteId g) ++ [g]]> m) rows m
    !! k
  = match filter (λ g, newerpol.WebsiteId g = k) rows with
    | [] => m !! k
    | fl => Some (default [] (m !! k) ++ fl)
    end.
Proof.
  revert m. induction rows as [|g rows IH]; intros m; simpl; [done|].
  rewrite IH. destruct (decide (newerpol.WebsiteId g = k)) as [<-|Hne].
  - rewrite filter_cons_True by done. rewrite lookup_insert_eq. simpl.
    destruct (filter _ rows); simpl; [done|]. by rewrite <-app_assoc.
  - rewrite filter_cons_False by done. by rewrite lookup_insert_ne.
Qed.

(** X9.  The grouping loop of [GetGrantsToAdd] and [GetGrantsToRevoke]
    files every row under its website, keeps the rows of a website in the
    order of the result set, and has no entry for a website without rows. *)
Theorem groupByWebsite_lookup rows k :
  groupByWebsite rows !! k
  = match filter (λ g, newerpol.WebsiteId g = k) rows with
    | [] => None
    | fl => Some fl
    end.
Proof. unfold groupByWebsite. by rewrite group_fold, lookup_empty. Qed.

Lemma groupByWebsite_elem_of rows k grp g :
  groupByWebsite rows !! k = Some grp →
  g ∈ grp ↔ g ∈ rows ∧ newerpol.WebsiteId g = k.
Proof.
  unfold groupByWebsite. rewrite group_fold, lookup_empty.
  destruct (filter _ rows) as [|x fl] eqn:Hf; [done|].
  intros [= <-]. rewrite <-Hf, list_elem_of_filter. tauto.
Qed.

End grouping_facts.

Section ledger_more.
Context {W : Type} `{External W}.
Implicit Types (a : newerpol.AccessRecord) (st : @St W).

(** The three outcomes of [FinishGrant]. *)
Lemma FinishGrant_cases a st :
  let status := newerpol.RequestStatus a in
  let id := newerpol.AccessId a in
  let r := FinishGrant a st in
  (∃ e, result_of r = inl e ∧ ledger (state_of r) = ledger st)
  ∨ (result_of r = inr false ∧ ledger (state_of r) = ledger st ∧
     ledger st !! id ≠ Some status)
  ∨ (result_of r = inr true ∧ ledger st !! id = Some status ∧
     status ≠ newerpol.AccessGranted ∧ status ≠ newerpol.AccessRevoked ∧
     ledger (state_of r)
     = <[id := newerpol.stmt_sets (finishing_stmt a)]> (ledger st)).
Proof.
  intros status id r. unfold r, FinishGrant. fold status id.
  destruct (Z.eqb_spec status newerpol.AccessGranted) as [Hg|Hg]; simpl.
  { left. eauto. }
  destruct (Z.eqb_spec status newerpol.AccessRevoked) as [Hr|Hr]; simpl.
  { left. eauto. }
  set (q := finishing_stmt a).
  destruct (exec_update_rows q id status (ledger st)) as (Hrows&Hiff&H1&H0).
  assert (ledger (set_prepared q st) = ledger st) as Hl by (by destruct q).
  unfold mbind, Go_bind, get, emit, check, fail, modify, mret, Go_ret,
    result_of, state_of.
  assert (∀ st0 : @St W, ledger st0 = ledger st →
    let u := newerpol.exec_update q id status (ledger st0) in
    let r := (if (u.1 =? 0)%Z then (inr false, set_ledger u.2 st0, [])
              else (inr true, set_ledger u.2 st0, []))
             : (Err + bool) * St * list Event in
    (r.1.1 = inr false ∧ ledger r.1.2 = ledger st ∧
     ledger st !! id ≠ Some status)
    ∨ (r.1.1 = inr true ∧ ledger st !! id = Some status ∧
       status ≠ newerpol.AccessGranted ∧ status ≠ newerpol.AccessRevoked ∧
       ledger r.1.2 = <[id := newerpol.stmt_sets q]> (ledger st))) as Hfin.
  { intros st0 E. rewrite E. cbv zeta.
    destruct (Z.eqb_spec (newerpol.exec_update q id status (ledger st)).1 0)
      as [Hz|Hz]; simpl.
    - left. split_and!; [done|by apply H0|]. intros Hs. apply Hiff in Hs. lia.
    - right. assert ((newerpol.exec_update q id status (ledger st)).1 = 1%Z)
        as H1' by (destruct Hrows; [done|lia]).
      split_and!; [done|by apply Hiff|done|done|by apply H1]. }
  destruct (prepared q st) eqn:Hp; simpl.
  - destruct (sql_Exec_err q id status (world st)); simpl; [left; eauto|].
    right. specialize (Hfin st eq_refl). cbv zeta in Hfin.
    destruct (_ =? 0)%Z; simpl in *; exact Hfin.
  - destruct (sql_Prepare q (world st)); simpl; [left; eauto|].
    destruct (sql_Exec_err q id status (world st)); simpl;
      [left; eexists; split; [done|exact Hl]|].
    right. specialize (Hfin (set_prepared q st) Hl). cbv zeta in Hfin.
    destruct (_ =? 0)%Z; simpl in *; exact Hfin.
Qed.

Lemma ledger_moves_refl (t : gmap Z Z) : ledger_moves t t.
Proof. intros id. by left. Qed.

Lemma ledger_moves_trans (t1 t2 t3 : gmap Z Z) :
  ledger_moves t1 t2 → ledger_moves t2 t3 → ledger_moves t1 t3.
Proof.
  intros H12 H23 id. specialize (H12 id). specialize (H23 id).
  unfold newerpol.AccessGrantPending, newerpol.AccessGranted,
    newerpol.AccessRevoked in *.
  destruct H12 as [E12|[[E1 E2]|(c&E1&?&?&?&E2)]];
    destruct H23 as [E23|[[E2' E3]|(c'&E2'&?&?&?&E3)]];
    first
      [ left; congruence
      | right; left; split; congruence
      | right; right; exists c; split_and!; congruence
      | right; right; exists c'; split_and!; congruence
      | exfalso; congruence ].
Qed.

Lemma FinishGrant_moves a st :
  ledger_moves (ledger st) (ledger (state_of (FinishGrant a st))).
Proof.
  destruct (FinishGrant_cases a st) as [(e&_&->)|[(_&->&_)|(_&Hrow&Hg&Hr&->)]];
    [apply ledger_moves_refl..|].
  intros id. destruct (decide (id = newerpol.AccessId a)) as [->|Hne];
    [|left; by rewrite lookup_insert_ne].
  rewrite lookup_insert_eq, Hrow. right. unfold finishing_stmt.
  destruct (Z.eqb_spec (newerpol.RequestStatus a) newerpol.AccessGrantPending)
    as [->|Hp]; simpl; [by left|].
  right. eauto 10.
Qed.

(** X10.  Whatever [FinishGrant] returns, it leaves every row of the ledger
    but the grant's own as it was, adds and deletes none, and moves the
    grant's row, if at all, out of the very status the grant carries: from
    grant-pending to granted, and from any other unfinished status to
    revoked. *)
Theorem FinishGrant_ledger_moves a st :
  let t' := ledger (state_of (FinishGrant a st)) in
  ledger_moves (ledger st) t' ∧
  (∀ id, id ≠ newerpol.AccessId a → t' !! id = ledger st !! id) ∧
  (t' ≠ ledger st →
   ledger st !! newerpol.AccessId a = Some (newerpol.RequestStatus a)).
Proof.
  cbv zeta.
  destruct (FinishGrant_cases a st) as [(e&_&->)|[(_&->&_)|(_&Hrow&Hg&Hr&->)]].
  - split_and!; [apply ledger_moves_refl|done..].
  - split_and!; [apply ledger_moves_refl|done..].
  - split_and!; [|by intros; rewrite lookup_insert_ne|done].
    intros id. destruct (decide (id = newerpol.AccessId a)) as [->|Hne];
      [|left; by rewrite lookup_insert_ne].
    rewrite lookup_insert_eq, Hrow. right. unfold finishing_stmt.
    destruct (Z.eqb_spec (newerpol.RequestStatus a) newerpol.AccessGrantPending)
      as [->|Hp]; simpl; [by left|].
    right. eauto 10.
Qed.

(** X11.  A grant is finished once: after a call that returned
    [updated = true] the row is in the finished status, and a second call
    for the same grant does not return true and leaves the ledger alone. *)
Theorem FinishGrant_once a st st1 t1 :
  FinishGrant a st = (inr true, st1, t1) →
  ledger st !! newerpol.AccessId a = Some (newerpol.RequestStatus a) ∧
  ledger st1 !! newerpol.AccessId a
  = Some (newerpol.stmt_sets (finishing_stmt a)) ∧
  result_of (FinishGrant a st1) ≠ inr true ∧
  ledger (state_of (FinishGrant a st1)) = ledger st1.
Proof.
  intros E.
  destruct (FinishGrant_cases a st) as [(e&He&_)|[(He&_)|(_&Hrow&Hg&Hr&Hl)]];
    rewrite E in *; try discriminate.
  unfold state_of in Hl; simpl in Hl.
  assert (ledger st1 !! newerpol.AccessId a
          = Some (newerpol.stmt_sets (finishing_stmt a))) as Hnew
    by (by rewrite Hl, lookup_insert_eq).
  split_and!; [done..| |].
  - destruct (FinishGrant_cases a st1) as [(e&->&_)|[(->&_)|(_&Hrow1&_)]];
      [done..|].
    rewrite Hnew in Hrow1. exfalso. injection Hrow1 as Hs.
    unfold finishing_stmt in Hs.
    destruct (_ =? _)%Z; simpl in Hs; congruence.
  - destruct (FinishGrant_cases a st1) as [(e&_&->)|[(_&->&_)|(_&Hrow1&_)]];
      [done..|].
    rewrite Hnew in Hrow1. exfalso. injection Hrow1 as Hs.
    unfold finishing_stmt in Hs.
    destruct (_ =? _)%Z; simpl in Hs; congruence.
Qed.

End ledger_more.

Lemma FinishGrant_once_witness :
  ledger (state_of (FinishGrant grant7 sim_ledger_st)) !! 7%Z
  = Some newerpol.AccessGranted ∧
  result_of (FinishGrant grant7 (state_of (FinishGrant grant7 sim_ledger_st)))
  ≠ inr true.
Proof.
  destruct (FinishGrant_once grant7 sim_ledger_st
              (state_of (FinishGrant grant7 sim_ledger_st))
              (trace_of (FinishGrant grant7 sim_ledger_st)))
    as (_&Hrow&Hres&_); [reflexivity|].
  split; [exact Hrow|exact Hres].
Defined.

(* ------------------------------------------------------------------------- *)
(** ** Properties of the state that a run keeps *)
(* ------------------------------------------------------------------------- *)

Section keeps_facts.
Context {W : Type} `{External W}.
Context (I : @St W → Prop).

Lemma keeps_ret {A} (a : A) : keeps I (mret a).
Proof. by intros st. Qed.

Lemma keeps_fail {A} e : keeps I (fail (A:=A) e).
Proof. by intros st. Qed.

Lemma keeps_get : keeps I get.
Proof. by intros st. Qed.

Lemma keeps_emit ev : keeps I (emit ev).
Proof. by intros st. Qed.

Lemma keeps_check wrap r : keeps I (check wrap r).
Proof. destruct r; [apply keeps_fail|apply keeps_ret]. Qed.

Lemma keeps_check_val {A} wrap (r : Err + A) : keeps I (check_val wrap r).
Proof. destruct r; [apply keeps_fail|apply keeps_ret]. Qed.

Lemma keeps_modify g : (∀ st, I st → I (g st)) → keeps I (modify g).
Proof. intros Hg st. apply Hg. Qed.

Lemma keeps_bind {A B} (m : Go A) (k : A → Go B) :
  keeps I m → (∀ a, keeps I (k a)) → keeps I (m ≫= k).
Proof.
  intros Hm Hk st Hst. rewrite bind_run. specialize (Hm st Hst).
  unfold state_of in *. destruct (m st) as [[[e|a] st1] t1]; simpl in *; [done|].
  by apply Hk.
Qed.

Lemma keeps_try {A} (m : Go A) : keeps I m → keeps I (try m).
Proof.
  intros Hm st Hst. specialize (Hm st Hst). unfold try, state_of in *.
  by destruct (m st) as [[r st1] t1].
Qed.

Lemma keeps_fatalf {A} p (m : Go A) : keeps I m → keeps I (fatalf p m).
Proof.
  intros Hm st Hst. specialize (Hm st Hst). unfold fatalf, state_of in *.
  by destruct (m st) as [[[e|a] st1] t1].
Qed.

Lemma keeps_ext ev g :
  (∀ w st, I st → I (set_world w st)) → keeps I (ext ev g).
Proof.
  intros Hw st Hst. unfold ext. destruct (g (world st)) as [r w'].
  by apply Hw.
Qed.

Lemma keeps_deref l : keeps I (deref l).
Proof. intros st. unfold deref. by destruct (heap st !! l). Qed.

Lemma keeps_call_site l m :
  (∀ st s, I st → heap st !! l = Some s →
           I (set_heap (<[l := m s]> (heap st)) st)) →
  keeps I (call_site l m).
Proof.
  intros Hm st Hst. unfold call_site.
  destruct (heap st !! l) as [s|] eqn:Hl; [|done]. by apply Hm.
Qed.

End keeps_facts.

Create HintDb keeps discriminated.

#[global] Hint Resolve keeps_ret keeps_fail keeps_get keeps_emit keeps_check
  keeps_check_val keeps_try keeps_fatalf keeps_deref : keeps.

Ltac keeps_step :=
  lazymatch goal with
  | |- keeps _ (mbind _ _) => apply keeps_bind; [|intros ?]
  | |- keeps _ (mret _) => apply keeps_ret
  | |- keeps _ (fail _) => apply keeps_fail
  | |- keeps _ get => apply keeps_get
  | |- keeps _ (emit _) => apply keeps_emit
  | |- keeps _ (check _ _) => apply keeps_check
  | |- keeps _ (check_val _ _) => apply keeps_check_val
  | |- keeps _ (try _) => apply keeps_try
  | |- keeps _ (fatalf _ _) => apply keeps_fatalf
  | |- keeps _ (deref _) => apply keeps_deref
  | |- keeps _ (if ?b then _ else _) => destruct b
  | |- keeps _ (match ?x with _ => _ end) => destruct x
  end.

Ltac keeps_auto := repeat keeps_step; eauto with keeps.

(* ------------------------------------------------------------------------- *)
(** ** What the lookups of the store return *)
(* ------------------------------------------------------------------------- *)

Section store_invariants.
Context {W : Type} `{External W}.
Implicit Types (st : @St W) (s : Site).

Lemma LoadSite_state fn st : state_of (LoadSite fn st) = st.
Proof.
  unfold LoadSite. destruct (negb _); [done|].
  unfold mbind, Go_bind, get, emit, check_val, fail, mret, Go_ret, state_of.
  simpl. destruct (ioutil_ReadFile _ _); simpl; [done|].
  by destruct (yaml_Unmarshal _ _).
Qed.

(** The items sent by the loading goroutines: all of them arrive, the state
    is as before, and no site among them is marked as changed. *)
Lemma loadEntries_items names st :
  ∃ its t, loadEntries names st = (inr its, st, t) ∧
           Forall (λ it, ∀ s, it = inr (Some s) → changed s = false) its.
Proof.
  induction names as [|n names IH]; simpl.
  { by exists [], []. }
  destruct IH as (its&t&E&Hits).
  unfold mbind, Go_bind, try, mret, Go_ret.
  assert (∃ it t0, loadEntry n st = (it, st, t0) ∧
                   ∀ s, it = inr (Some s) → changed s = false)
    as (it&t0&E0&Hit).
  { unfold loadEntry. destruct (negb _); [by eexists _, _|].
    pose proof (LoadSite_state n st) as Hst.
    pose proof (LoadSite_changed n st) as Hch.
    unfold mbind, Go_bind, mret, Go_ret, state_of in *.
    destruct (LoadSite n st) as [[[e|s] st1] t1]; simpl in *; subst st1.
    - by eexists _, _.
    - eexists _, _. split; [done|]. intros s' [= <-]. eauto. }
  rewrite E0, E. simpl. eexists _, _. split; [done|].
  by constructor.
Qed.

Lemma cache_add_wf s st : cache_wf st → cache_wf (cache_add s st).
Proof.
  intros (Hid&Hname&Hslice). unfold cache_wf, cache_add; simpl.
  assert (∀ l, l ∈ slice (sitesCache st) → l ∈ slice (sitesCache st) ++ [length (heap st)])
    as Hin by (intros; apply elem_of_app; by left).
  assert (∀ l s0, heap st !! l = Some s0 → (heap st ++ [s]) !! l = Some s0)
    as Hold by (intros; by apply lookup_app_l_Some).
  assert ((heap st ++ [s]) !! length (heap st) = Some s) as Hnew
    by (by rewrite lookup_app_r, Nat.sub_diag by lia).
  split_and!.
  - intros id l. destruct (decide (Id s = id)) as [<-|Hne].
    + rewrite lookup_insert_eq. intros [= <-].
      split; [apply elem_of_app; right; by left|eauto].
    + rewrite lookup_insert_ne by done. intros Hl.
      destruct (Hid id l Hl) as (?&s0&?&?). split; [auto|]. eauto.
  - intros n l. destruct (decide (name s = n)) as [<-|Hne].
    + rewrite lookup_insert_eq. intros [= <-].
      split; [apply elem_of_app; right; by left|eauto].
    + rewrite lookup_insert_ne by done. intros Hl.
      destruct (Hname n l Hl) as (?&s0&?&?). split; [auto|]. eauto.
  - intros l [Hl|Hl%list_elem_of_singleton]%elem_of_app.
    + destruct (Hslice l Hl) as [s0 ?]. eauto.
    + subst l. eauto.
Qed.

Lemma collectItems_wf items : keeps (@cache_wf W) (collectItems items).
Proof.
  induction items as [|[e|[s|]] items IH]; simpl; keeps_auto.
  apply keeps_modify. intros st. apply cache_add_wf.
Qed.

Lemma initSitesCache_wf : keeps (@cache_wf W) initSitesCache.
Proof.
  unfold initSitesCache. keeps_step; [keeps_auto|].
  keeps_step; [keeps_auto|].
  keeps_step; [keeps_auto|].
  keeps_step; [keeps_auto|].
  keeps_step.
  { intros st Hst. by destruct (loadEntries_items a1 st) as (its&t&->&_). }
  keeps_step; [|apply collectItems_wf].
  apply keeps_modify. intros st (_&_&Hslice).
  unfold cache_wf; simpl. split_and!; [by intros ??; rewrite lookup_empty..|done].
Qed.

Lemma ensure_wf : keeps (@cache_wf W) ensureSitesCacheLoaded.
Proof.
  unfold ensureSitesCacheLoaded. keeps_step; [keeps_auto|].
  keeps_step; [|keeps_auto].
  keeps_step; [keeps_auto|].
  keeps_step; [apply keeps_try, initSitesCache_wf|].
  by apply keeps_modify.
Qed.

(** What a lookup returns in terms of the loading step it starts with. *)
Lemma lookup_run {A} (get_it : sitesCacheStruct → A) st :
  let r := ensureSitesCacheLoaded st in
  (x ← ensureSitesCacheLoaded; check (λ e, e) x ;;
   st' ← get; mret (get_it (sitesCache st'))) st
  = (match initError (sitesCache (state_of r)) with
     | Some e => inl e
     | None => inr (get_it (sitesCache (state_of r)))
     end, state_of r, trace_of r).
Proof.
  intros r. unfold r. rewrite bind_run. destruct (ensure_post st) as [_ Hres].
  unfold result_of, state_of, trace_of in *.
  destruct (ensureSitesCacheLoaded st) as [[x st1] t1]; simpl in *. subst x.
  unfold mbind, Go_bind, check, fail, get, mret, Go_ret.
  destruct (initError (sitesCache st1)); simpl; by rewrite app_nil_r.
Qed.

(** X12.  Once the pointers of the cache lead to sites, they always do, and
    the lookups return such pointers: [GetSiteById] returns nil or a pointer
    to a site with that id, [GetSiteByName] nil or a pointer to a site with
    that name, and [GetAllSites] pointers to sites only. *)
Theorem store_lookups_sound st :
  cache_wf st →
  (∀ id, let r := GetSiteById id st in
     cache_wf (state_of r) ∧
     ∀ l, result_of r = inr (Some l) →
          ∃ s, heap (state_of r) !! l = Some s ∧ Id s = id)
  ∧ (∀ n, let r := GetSiteByName n st in
     cache_wf (state_of r) ∧
     ∀ l, result_of r = inr (Some l) →
          ∃ s, heap (state_of r) !! l = Some s ∧ name s = n)
  ∧ (let r := GetAllSites st in
     cache_wf (state_of r) ∧
     ∀ sites l, result_of r = inr sites → l ∈ sites →
                is_Some (heap (state_of r) !! l)).
Proof.
  intros Hwf. pose proof (ensure_wf st Hwf) as Hwf1.
  split_and!.
  - intros id. cbv zeta. unfold GetSiteById.
    rewrite (lookup_run (λ c, byId c !! id)).
    split; [done|]. intros l. unfold result_of; simpl.
    destruct (initError _); [done|]. intros [= Hl].
    destruct Hwf1 as (Hid&_&_). by destruct (Hid id l Hl) as (_&?).
  - intros n. cbv zeta. unfold GetSiteByName.
    rewrite (lookup_run (λ c, byName c !! n)).
    split; [done|]. intros l. unfold result_of; simpl.
    destruct (initError _); [done|]. intros [= Hl].
    destruct Hwf1 as (_&Hname&_). by destruct (Hname n l Hl) as (_&?).
  - cbv zeta. unfold GetAllSites. rewrite (lookup_run slice).
    split; [done|]. intros sites l. unfold result_of; simpl.
    destruct (initError _); [done|]. intros [= <-] Hl.
    destruct Hwf1 as (_&_&Hslice). by apply Hslice.
Qed.

Lemma initial_state_wf (w : W) cfg t : cache_wf (initial_state w cfg t).
Proof.
  unfold cache_wf; simpl.
  split_and!; [by intros ??; rewrite lookup_empty..|by intros ? ?%elem_of_nil].
Qed.

End store_invariants.

Lemma store_lookups_sound_witness :
  ∃ s, heap (state_of (GetSiteByName "club" sim_st0)) !! 0 = Some s ∧
       name s = "club".
Proof.
  apply (proj2 (proj1 (proj2 (store_lookups_sound sim_st0
           (initial_state_wf sim_world0 sim_cfg ∅))) "club")).
  reflexivity.
Defined.

(* ------------------------------------------------------------------------- *)
(** ** Calls of [CommitSites] that have nothing to save *)
(* ------------------------------------------------------------------------- *)

Section unchanged_facts.
Context {W : Type} `{External W}.
Implicit Types (st : @St W) (s : Site).

Lemma collectItems_unchanged items st :
  Forall (λ it, ∀ s, it = inr (Some s) → changed s = false) items →
  all_unchanged st → all_unchanged (state_of (collectItems items st)).
Proof.
  intros Hits. revert st.
  induction Hits as [|[e|[s|]] items Hit _ IH]; intros st Hst; simpl; [done..| |].
  - unfold mbind, Go_bind, modify.
    specialize (IH (cache_add s st)). unfold state_of in *.
    destruct (collectItems items (cache_add s st)) as [[r st2] t2]; simpl in *.
    apply IH. unfold all_unchanged, cache_add; simpl.
    apply Forall_app. split; [done|]. constructor; [|done]. by apply Hit.
  - by apply IH.
Qed.

Lemma initSitesCache_unchanged st :
  all_unchanged st → all_unchanged (state_of (initSitesCache st)).
Proof.
  intros Hst. unfold initSitesCache.
  unfold mbind at 1, Go_bind at 1, get.
  destruct (String.eqb _ ""); [done|].
  unfold mbind at 1, Go_bind at 1, emit.
  unfold mbind at 1, Go_bind at 1, check_val.
  destruct (ioutil_ReadDir _ _) as [e|dirEnts]; [done|].
  unfold mret at 1, Go_ret at 1.
  unfold mbind at 1, Go_bind at 1.
  destruct (loadEntries_items dirEnts st) as (its&t&->&Hits).
  unfold mbind at 1, Go_bind at 1, modify.
  match goal with |- context [collectItems its ?st0] =>
    pose proof (collectItems_unchanged its st0 Hits Hst) as Hc;
    unfold state_of in *;
    by destruct (collectItems its st0) as [[r st2] t2]
  end.
Qed.

Lemma ensure_unchanged : keeps (@all_unchanged W) ensureSitesCacheLoaded.
Proof.
  unfold ensureSitesCacheLoaded. keeps_step; [keeps_auto|].
  keeps_step; [|keeps_auto].
  keeps_step; [keeps_auto|].
  keeps_step; [|by apply keeps_modify].
  apply keeps_try. intros st. apply initSitesCache_unchanged.
Qed.

Lemma commitAcquire_obeys {X} (f : @St W → X) :
  (∀ w st, f (set_world w st) = f st) →
  (∀ h st, f (set_heap h st) = f st) →
  (∀ c st, f (set_sitesCache c st) = f st) →
  obeys (λ _ e, is_read e = true ∨ is_wt e = true) f commitAcquire.
Proof.
  intros Hw Hh Hc. unfold commitAcquire.
  obeys_step; [|obeys_step; [obeys_auto|]].
  - eapply obeys_weaken; [|by apply ensure_obeys]. intros; tauto.
  - eapply obeys_weaken; [|by apply GetWorktree_obeys]. intros; tauto.
Qed.

Lemma commitAcquire_unchanged : keeps (@all_unchanged W) commitAcquire.
Proof.
  unfold commitAcquire. keeps_step; [apply ensure_unchanged|].
  keeps_step; [keeps_auto|].
  intros st Hst. unfold all_unchanged.
  by destruct (GetWorktree_obeys heap (λ _ _, eq_refl) st) as [_ ->].
Qed.

Lemma commitTargets_unchanged opts st :
  all_unchanged st → commitTargets opts st = [].
Proof.
  intros Hst. destruct (commitTargets opts st) as [|l ls] eqn:E; [done|].
  assert (l ∈ commitTargets opts st) as Hl by (rewrite E; by left).
  apply commitTargets_changed in Hl as (id&s&_&Hs&Hc).
  unfold all_unchanged in Hst. rewrite Forall_forall in Hst.
  apply list_elem_of_lookup_2 in Hs. apply Hst in Hs.
  unfold Changed in Hc. congruence.
Qed.

(** X13.  When no site in memory is marked as changed, as in a process that
    has only loaded the store, [CommitSites] saves and stages nothing and
    marks nothing; a commit it creates all the same, the working tree being
    dirty by then, says [Sites changed: 0]. *)
Theorem CommitSites_nothing_changed opts st :
  all_unchanged st →
  let r := CommitSites opts st in
  Forall (λ e, is_save e = false ∧ is_stage e = false) (trace_of r) ∧
  all_unchanged (state_of r) ∧
  (∀ msg author mail, EvCommit msg author mail ∈ trace_of r →
     msg = commitMessage (viper st) opts 0).
Proof.
  intros Hst r. unfold r, CommitSites, commitStage.
  rewrite bind_assoc_run, bind_run.
  pose proof (commitAcquire_unchanged st Hst) as Hst1.
  destruct (commitAcquire_obeys (λ _, tt) (λ _ _, eq_refl) (λ _ _, eq_refl)
              (λ _ _, eq_refl) st) as [Ht1 _].
  destruct (commitAcquire_obeys viper (λ _ _, eq_refl) (λ _ _, eq_refl)
              (λ _ _, eq_refl) st) as [_ Hv].
  assert (Forall (λ e, is_save e = false ∧ is_stage e = false ∧
                       is_commit e = false) (trace_of (commitAcquire st)))
    as Ht1'.
  { eapply Forall_impl; [exact Ht1|]. by intros [] [?|?]. }
  unfold state_of, trace_of in *.
  destruct (commitAcquire st) as [[[e|[]] st1] t1]; simpl in *.
  { split_and!; [by eapply Forall_impl; [exact Ht1'|]; intros ? (?&?&?)|done|].
    intros msg au ma Hin. rewrite Forall_forall in Ht1'.
    by destruct (Ht1' _ Hin) as (_&_&?). }
  assert (commitPersist opts st1 = (inr 0, st1, [])) as Hp.
  { unfold commitPersist. rewrite bind_run. simpl.
    rewrite (commitTargets_unchanged opts st1 Hst1). simpl.
    unfold mbind, Go_bind, mret, Go_ret. simpl. by destruct (DryRun opts). }
  rewrite bind_run, Hp. simpl.
  destruct (commitFinish_obeys heap (λ _ _, eq_refl) opts 0 st1) as [_ Hh].
  destruct (commitFinish_run opts 0 st1) as (_&_&Hfin).
  unfold state_of, trace_of in *.
  destruct (commitFinish opts 0 st1) as [[r2 st2] t2]; simpl in *.
  assert (Forall (λ e, (is_save e = false ∧ is_stage e = false) ∧
                       ∀ msg au ma, e = EvCommit msg au ma →
                                    msg = commitMessage (viper st) opts 0) t2)
    as Ht2.
  { rewrite <-Hv.
    destruct Hfin as [->|(_&_&[->| [_ ->]])];
      repeat (apply Forall_cons_2;
              [split; [done|first [by intros ??? [= -> _ _]|by intros ??? [=]]]|]);
      apply Forall_nil_2. }
  split_and!.
  - apply Forall_app. split.
    + eapply Forall_impl; [exact Ht1'|]. by intros ? (?&?&?).
    + eapply Forall_impl; [exact Ht2|]. by intros ? [? _].
  - unfold all_unchanged. by rewrite Hh.
  - intros msg au ma [Hin|Hin]%elem_of_app.
    + rewrite Forall_forall in Ht1'. by destruct (Ht1' _ Hin) as (_&_&?).
    + rewrite Forall_forall in Ht2. by eapply (proj2 (Ht2 _ Hin)).
Qed.

End unchanged_facts.

Lemma CommitSites_nothing_changed_witness :
  Forall (λ e, is_save e = false ∧ is_stage e = false)
         (trace_of (CommitSites (opts_sync false false false) sim_st0)).
Proof.
  apply (CommitSites_nothing_changed (opts_sync false false false) sim_st0).
  constructor.
Defined.

(* ------------------------------------------------------------------------- *)
(** ** A working tree that is not clean *)
(* ------------------------------------------------------------------------- *)

Section dirty_facts.
Context {W : Type} `{External W}.
Implicit Types (st : @St W).

Lemma GetWorktree_dirty st :
  git_Status (world st) ≠ inr true →
  ∃ e t, GetWorktree st = (inl e, st, t) ∧ (t = [] ∨ t = [EvStatus]).
Proof.
  intros Hdirty. unfold GetWorktree.
  unfold mbind at 1, Go_bind at 1, get.
  destruct (String.eqb _ ""); [by eexists _, _; split; [|left]|].
  unfold mbind, Go_bind, check, fail, mret, Go_ret, checkWorktreeClean, get,
    emit.
  destruct (git_PlainOpen _ _); simpl; [by eexists _, _; split; [|left]|].
  destruct (git_Worktree _); simpl; [by eexists _, _; split; [|left]|].
  destruct (git_Status (world st)) as [e|[]]; simpl; [|done|];
    by eexists _, _; split; [|right].
Qed.

(** X14.  If the working tree is not clean when [CommitSites] is called, or
    its status cannot be read, the call fails: it has loaded the store if
    that was still to do and asked for the status at most once; it has
    saved, staged, checked out, pulled, committed and pushed nothing, and
    left the outside world as it was. *)
Theorem CommitSites_refuses_dirty_tree opts st :
  git_Status (world st) ≠ inr true →
  let r := CommitSites opts st in
  (∃ e, result_of r = inl e) ∧
  world (state_of r) = world st ∧
  ∃ tr ts, trace_of r = tr ++ ts ∧ Forall (λ e, is_read e = true) tr ∧
           (ts = [] ∨ ts = [EvStatus]).
Proof.
  intros Hdirty r. unfold r, CommitSites, commitStage, commitAcquire.
  rewrite !bind_assoc_run, bind_run.
  destruct (ensure_obeys world (λ _ _, eq_refl) (λ _ _, eq_refl) st)
    as [Ht Hw].
  unfold result_of, state_of, trace_of in *.
  destruct (ensureSitesCacheLoaded st) as [[[e|x] st1] t1]; simpl in *.
  { split_and!; [by eauto|done|]. exists t1, []. rewrite app_nil_r. auto. }
  rewrite !bind_assoc_run, bind_run.
  destruct x as [e|]; simpl.
  { split_and!; [by eauto|done|]. exists t1, []. auto. }
  rewrite bind_run. rewrite <-Hw in Hdirty.
  destruct (GetWorktree_dirty st1 Hdirty) as (e&t&->&Ht2). simpl.
  split_and!; [by eauto|done|]. exists t1, t. auto.
Qed.

End dirty_facts.

Lemma CommitSites_refuses_dirty_tree_witness :
  ∃ e, result_of (CommitSites (opts_sync false false false)
         (sim_loaded (snd (sim_write "/cdb/sites/club.yaml" "bob" sim_world0))
                     (site_club ["alice"]))) = inl e.
Proof.
  apply (CommitSites_refuses_dirty_tree (opts_sync false false false)
           (sim_loaded (snd (sim_write "/cdb/sites/club.yaml" "bob" sim_world0))
                       (site_club ["alice"]))).
  vm_compute. discriminate.
Defined.

(* ------------------------------------------------------------------------- *)
(** ** The end of a call of [CommitSites] *)
(* ------------------------------------------------------------------------- *)

Section push_facts.
Context {W : Type} `{External W}.
Implicit Types (st : @St W).

(** How a call of [CommitSites] ends. *)
Lemma CommitSites_tail opts st :
  ∃ t0 tf,
    trace_of (CommitSites opts st) = t0 ++ tf ∧
    Forall (λ e, is_commit e = false ∧ is_push e = false) t0 ∧
    (tf = [] ∨ tf = [EvStatus] ∨
     ∃ msg author mail,
       DryRun opts = false ∧
       (tf = [EvStatus; EvCommit msg author mail] ∨
        NoPush opts = false ∧
        tf = [EvStatus; EvCommit msg author mail; EvPush])).
Proof.
  unfold CommitSites. rewrite bind_run.
  destruct (commitStage_obeys (λ _, tt) opts (λ _ _, eq_refl)
              (λ _ _, eq_refl) (λ _ _, eq_refl) st) as [Ht _].
  assert (Forall (λ e, is_commit e = false ∧ is_push e = false)
                 (trace_of (commitStage opts st))) as Ht'.
  { eapply Forall_impl; [exact Ht|]. intros [] ?; simpl in *;
      intuition discriminate. }
  unfold trace_of in *.
  destruct (commitStage opts st) as [[[e|n] st1] t1]; simpl in *.
  { exists t1, []. rewrite app_nil_r. auto. }
  exists t1, (commitFinish opts n st1).2. split; [done|]. split; [done|].
  destruct (commitFinish_run opts n st1) as (_&_&Hfin). unfold trace_of in Hfin.
  destruct Hfin as [->|(Hd&_&[->|[Hp ->]])]; eauto 10.
Qed.

(** X15.  A call of [CommitSites] creates at most one commit and pushes at
    most once.  The commit, if any, directly follows the second status
    check, and is made only when [DryRun] is off; the push, if any, directly
    follows the commit and is the last step of the call, and is made only
    when [NoPush] is off as well. *)
Theorem CommitSites_ends_with_commit_push opts st :
  ∃ t0 tf,
    trace_of (CommitSites opts st) = t0 ++ tf ∧
    Forall (λ e, is_commit e = false ∧ is_push e = false) t0 ∧
    (tf = [] ∨ tf = [EvStatus] ∨
     ∃ msg author mail,
       DryRun opts = false ∧
       (tf = [EvStatus; EvCommit msg author mail] ∨
        NoPush opts = false ∧
        tf = [EvStatus; EvCommit msg author mail; EvPush])).
Proof. apply CommitSites_tail. Qed.

End push_facts.

(* ------------------------------------------------------------------------- *)
(** ** What [CommitSites] writes and stages *)
(* ------------------------------------------------------------------------- *)

Section save_facts.
Context {W : Type} `{External W}.
Implicit Types (st : @St W) (s : Site) (l : nat).

Lemma set_changed_twice c c' s :
  set_changed c (set_changed c' s) = set_changed c s.
Proof. done. Qed.

Lemma set_changed_id s : set_changed (changed s) s = s.
Proof. by destruct s. Qed.

Lemma flags_cleared_refl targets h : flags_cleared targets h h.
Proof. split; [done|]. by left. Qed.

Lemma flags_cleared_weaken targets targets' h h' :
  targets ⊆ targets' → flags_cleared targets h h' → flags_cleared targets' h h'.
Proof.
  intros Hsub [Hlen Hc]. split; [done|]. intros l.
  destruct (Hc l) as [?|[? ?]]; [by left|right]. split; [by apply Hsub|done].
Qed.

Lemma flags_cleared_trans targets h1 h2 h3 :
  flags_cleared targets h1 h2 → flags_cleared targets h2 h3 →
  flags_cleared targets h1 h3.
Proof.
  intros [Hl12 H12] [Hl23 H23]. split; [congruence|]. intros l.
  destruct (H12 l) as [E12|(Hin&s&E1&E2)], (H23 l) as [E23|(Hin'&s'&E2'&E3)].
  - left. congruence.
  - right. split; [done|]. exists s'. split; congruence.
  - right. split; [done|]. exists s. split; congruence.
  - right. split; [done|]. exists s. split; [done|].
    rewrite E3. rewrite E2 in E2'. by injection E2' as <-.
Qed.

(** The outcomes of [Save] through a pointer. *)
Lemma Save_cases l st s :
  heap st !! l = Some s →
  ∃ r s' w' t,
    Save l st = (inr r, set_world w' (set_heap (<[l := s']> (heap st)) st), t) ∧
    (r = None ∧ s' = set_changed false s ∧
     (∃ d, yaml_Marshal s = inr d ∧
           t = [EvSave (name s); EvWriteFile (FileName (viper st) s) d])
     ∨ r ≠ None ∧ s' = s ∧
       (t = [EvSave (name s)] ∨
        ∃ d, yaml_Marshal s = inr d ∧
             t = [EvSave (name s); EvWriteFile (FileName (viper st) s) d])).
Proof.
  intros Hl. unfold Save. rewrite Hl. unfold Save_site.
  destruct (yaml_Marshal s) as [e|d].
  - eexists _, s, _, _. split; [done|]. right. split_and!; [done|done|by left].
  - destruct (ioutil_WriteFile _ _ _) as [[e|] w'];
      eexists _, _, _, _; (split; [done|]).
    + right. split_and!; [done|done|]. right. eauto.
    + left. split_and!; [done|done|]. eauto.
Qed.

(** With the gate shut, the saving goroutines do nothing. *)
Lemma saveSites_shut opts targets st :
  negb (DryRun opts) || ForceUpdateTree opts = false →
  ∃ errs, saveSites opts targets st = (inr (errs, []), st, []) ∧
          Forall (λ r, r = None) errs.
Proof.
  intros Hgate. induction targets as [|l targets (errs&IH&Herrs)]; simpl.
  { by exists []. }
  rewrite Hgate. unfold mbind, Go_bind, mret, Go_ret. rewrite IH. simpl.
  exists (None :: errs). split; [done|]. by constructor.
Qed.

(** With the gate open: what the saving goroutines leave, write and send. *)
Lemma saveSites_open opts targets st :
  negb (DryRun opts) || ForceUpdateTree opts = true →
  (∀ l, l ∈ targets → is_Some (heap st !! l)) →
  ∃ rs st' t,
    saveSites opts targets st = (inr rs, st', t) ∧
    viper st' = viper st ∧ sitesCache st' = sitesCache st ∧
    flags_cleared targets (heap st) (heap st') ∧
    (Forall (λ r, r = None) rs.1 →
     ∀ l, l ∈ targets → ∃ s, heap st' !! l = Some s ∧ changed s = false) ∧
    (∀ p d, EvWriteFile p d ∈ t →
       ∃ l s c, l ∈ targets ∧ heap st !! l = Some s ∧
                yaml_Marshal (set_changed c s) = inr d ∧
                p = FileName (viper st) s) ∧
    (∀ fn, fn ∈ rs.2 →
       ∃ l s d, l ∈ targets ∧ heap st !! l = Some s ∧ fn = FileNameRepo s ∧
                EvSave (name s) ∈ t ∧
                EvWriteFile (FileName (viper st) s) d ∈ t).
Proof.
  intros Hgate. revert st.
  induction targets as [|l0 targets IH]; intros st Hvalid; simpl.
  { exists ([], []), st, []. split_and!; try done.
    - apply flags_cleared_refl.
    - by intros _ ? ?%elem_of_nil.
    - by intros ?? ?%elem_of_nil.
    - by intros ? ?%elem_of_nil. }
  rewrite Hgate.
  destruct (Hvalid l0) as [s0 Hl0]; [by left|].
  destruct (Save_cases l0 st s0 Hl0) as (r&s0'&w'&t0&HS&Hcase).
  set (st1 := set_world w' (set_heap (<[l0 := s0']> (heap st)) st)) in *.
  assert (heap st1 !! l0 = Some s0') as Hl0'.
  { unfold st1; simpl. apply list_lookup_insert_eq.
    by apply lookup_lt_is_Some. }
  assert (∃ c0, s0' = set_changed c0 s0) as [c0 Hs0'].
  { destruct Hcase as [(_&->&_)|(_&->&_)]; [by exists false|].
    exists (changed s0). by rewrite set_changed_id. }
  assert (∀ l s1, heap st1 !! l = Some s1 →
            ∃ s c, heap st !! l = Some s ∧ s1 = set_changed c s) as Hback.
  { intros l s1. unfold st1; simpl.
    destruct (decide (l = l0)) as [->|Hne].
    - rewrite list_lookup_insert_eq by (by apply lookup_lt_is_Some).
      intros [= <-]. eauto.
    - rewrite list_lookup_insert_ne by done. intros Hl.
      exists s1, (changed s1). by rewrite set_changed_id. }
  destruct (IH st1) as (rs&st2&t&HR&Hv&Hc&Hfl&Hdone&Hwr&Hst).
  { intros l Hl. unfold st1; simpl. apply lookup_lt_is_Some.
    rewrite length_insert. apply lookup_lt_is_Some, Hvalid. by right. }
  assert (flags_cleared (l0 :: targets) (heap st) (heap st1)) as Hfl0.
  { split; [unfold st1; simpl; by rewrite length_insert|].
    intros l. unfold st1; simpl.
    destruct (decide (l = l0)) as [->|Hne];
      [|left; by rewrite list_lookup_insert_ne].
    rewrite list_lookup_insert_eq by (by apply lookup_lt_is_Some).
    destruct Hcase as [(_&->&_)|(_&->&_)]; [|by left].
    right. split; [by left|]. eauto. }
  exists (r :: rs.1, (if r is None then [FileNameRepo s0'] else []) ++ rs.2),
         st2, (t0 ++ t).
  split_and!.
  - unfold mbind, Go_bind, deref, mret, Go_ret. rewrite HS. fold st1.
    rewrite Hl0'. simpl. rewrite HR. simpl. by rewrite !app_nil_r.
  - by rewrite Hv.
  - by rewrite Hc.
  - eapply flags_cleared_trans; [exact Hfl0|].
    eapply flags_cleared_weaken; [|exact Hfl]. intros x Hx. by right.
  - simpl. intros Hall l Hl. apply Forall_cons in Hall as [-> Hall].
    apply elem_of_cons in Hl as [->|Hl]; [|by apply Hdone].
    destruct Hcase as [(_&->&_)|(?&_)]; [|done].
    destruct Hfl as [_ Hfl]. destruct (Hfl l0) as [E|(_&s&E1&E2)].
    + rewrite E, Hl0'. eauto.
    + rewrite E2. eauto.
  - intros p d [Hin|Hin]%elem_of_app.
    + exists l0, s0, (changed s0). rewrite set_changed_id.
      split; [by left|]. split; [done|].
      destruct Hcase as [(_&_&d'&Hm&->)|(_&_&[->|(d'&Hm&->)])];
        rewrite ?elem_of_cons, ?elem_of_nil in Hin;
        destruct Hin as [[=]|Hin]; try done;
        destruct Hin as [[= -> ->]|[]]; done.
    + destruct (Hwr p d Hin) as (l&s1&c&Hl&Hs1&Hm&->).
      destruct (Hback l s1 Hs1) as (s&c'&Hs&->).
      exists l, s, c. split_and!; [by right|done|done|done].
  - simpl. intros fn [Hin|Hin]%elem_of_app.
    + destruct Hcase as [(->&->&d&Hm&->)|(Hr&_)];
        [|by destruct r; [apply elem_of_nil in Hin|]].
      apply list_elem_of_singleton in Hin as ->.
      exists l0, s0, d. split_and!; [by left|done|done| |].
      * apply elem_of_app. left. by left.
      * apply elem_of_app. left. right. by left.
    + destruct (Hst fn Hin) as (l&s1&d&Hl&Hs1&->&Hsave&Hw).
      destruct (Hback l s1 Hs1) as (s&c'&Hs&->).
      exists l, s, d.
      split_and!; [by right|done|done| |]; apply elem_of_app; by right.
Qed.

End save_facts.

Section persist_facts.
Context {W : Type} `{External W}.
Implicit Types (st : @St W) (s : Site) (l : nat).

Lemma firstError_run errs st :
  (Forall (λ r, r = None) errs ∧ firstError errs st = (inr tt, st, []))
  ∨ ∃ e, firstError errs st = (inl e, st, []).
Proof.
  induction errs as [|[e|] errs IH]; simpl.
  - by left.
  - right. by exists e.
  - destruct IH as [[? ?]|?]; [left|by right]. split; [by constructor|done].
Qed.

(** The files staged are a front part of the files handed in, and staging
    touches the outside world only. *)
Lemma stageFiles_run fns st :
  ∃ k, trace_of (stageFiles fns st) = EvStage <$> take k fns.
Proof.
  revert st. induction fns as [|fn fns IH]; intros st; simpl.
  { by exists 0. }
  unfold mbind, Go_bind, ext, check, fail, mret, Go_ret, trace_of.
  destruct (git_Add fn (world st)) as [[e|] w']; simpl.
  { by exists 1. }
  destruct (IH (set_world w' st)) as [k Hk]. unfold trace_of in Hk.
  destruct (stageFiles fns (set_world w' st)) as [[[e|n] st2] t2];
    simpl in *; exists (S k); simpl; by rewrite ?app_nil_r, Hk.
Qed.

(** The saving and staging part of [CommitSites]. *)
Lemma commitPersist_facts opts st :
  (∀ l, l ∈ commitTargets opts st → is_Some (heap st !! l)) →
  let r := commitPersist opts st in
  ∃ ts tg,
    trace_of r = ts ++ tg ∧
    Forall (λ e, is_save e = true) ts ∧
    Forall (λ e, is_stage e = true) tg ∧
    (DryRun opts = true → tg = []) ∧
    sitesCache (state_of r) = sitesCache st ∧
    viper (state_of r) = viper st ∧
    flags_cleared (commitTargets opts st) (heap st) (heap (state_of r)) ∧
    (negb (DryRun opts) || ForceUpdateTree opts = true →
     (∃ n, result_of r = inr n) →
     ∀ l, l ∈ commitTargets opts st →
          ∃ s, heap (state_of r) !! l = Some s ∧ changed s = false) ∧
    (∀ p d, EvWriteFile p d ∈ ts →
       ∃ l s c, l ∈ commitTargets opts st ∧ heap st !! l = Some s ∧
                yaml_Marshal (set_changed c s) = inr d ∧
                p = FileName (viper st) s) ∧
    (∀ fn, EvStage fn ∈ tg →
       ∃ l s d, l ∈ commitTargets opts st ∧ heap st !! l = Some s ∧
                fn = FileNameRepo s ∧ EvSave (name s) ∈ ts ∧
                EvWriteFile (FileName (viper st) s) d ∈ ts).
Proof.
  intros Hvalid r. unfold r, commitPersist, mbind, Go_bind, get, mret, Go_ret.
  simpl. set (targets := commitTargets opts st) in *.
  destruct (negb (DryRun opts) || ForceUpdateTree opts) eqn:Hgate.
  - destruct (saveSites_open opts targets st Hgate Hvalid)
      as (rs&st1&ts&HR&Hv&Hc&Hfl&Hdone&Hwr&Hst).
    destruct (saveSites_obeys (λ _ : @St W, tt) (λ _ _, eq_refl)
                (λ _ _, eq_refl) opts targets st) as [Hts _].
    rewrite HR in Hts. unfold trace_of in Hts; simpl in Hts.
    rewrite HR.
    destruct (firstError_run rs.1 st1) as [[Hnone ->]|[e ->]]; simpl.
    + destruct (DryRun opts) eqn:Hdry; simpl.
      { exists ts, []. rewrite !app_nil_r.
        split_and!; try done; [by intros _ _; apply Hdone|].
        by intros ? ?%elem_of_nil. }
      destruct (stageFiles_run rs.2 st1) as [k Hk].
      destruct (stageFiles_obeys
                  (λ st : @St W, (sitesCache st, viper st, heap st))
                  (λ _ _, eq_refl) rs.2 st1) as [Hstg Hsame].
      unfold trace_of, state_of, result_of in *.
      assert (∀ fn, EvStage fn ∈ (stageFiles rs.2 st1).2 → fn ∈ rs.2) as Hsub.
      { intros fn Hin. rewrite Hk in Hin.
        apply list_elem_of_fmap in Hin as (fn'&[= <-]&Hin).
        by apply (subseteq_take k). }
      destruct (stageFiles rs.2 st1) as [[[e|n] st2] tg]; simpl in *;
        injection Hsame as Hc2 Hv2 Hh2;
        exists ts, tg; rewrite ?app_nil_r;
        (split_and!; try done; try congruence;
         [by intros _ _; rewrite Hh2; apply Hdone|
          by intros fn Hin; apply Hst, Hsub]).
    + exists ts, []. rewrite !app_nil_r.
      split_and!; try done; [by intros _ [? [=]]|by intros ? ?%elem_of_nil].
  - destruct (saveSites_shut opts targets st Hgate) as (errs&HR&Hnone).
    rewrite HR. cbn [fst snd].
    destruct (firstError_run errs st) as [[_ ->]|[e ->]]; simpl.
    + assert (DryRun opts = true) as ->
        by (destruct (DryRun opts); [done|by destruct (ForceUpdateTree opts)]).
      simpl. exists [], []. split_and!; try done.
      * apply flags_cleared_refl.
      * by intros ?? ?%elem_of_nil.
      * by intros ? ?%elem_of_nil.
    + exists [], []. split_and!; try done.
      * apply flags_cleared_refl.
      * by intros ?? ?%elem_of_nil.
      * by intros ? ?%elem_of_nil.
Qed.

End persist_facts.

Section commit_run_facts.
Context {W : Type} `{External W}.
Implicit Types (st : @St W) (s : Site) (l : nat).

(** A call of [CommitSites], part by part. *)
Lemma CommitSites_run opts st :
  CommitSites opts st =
  match commitAcquire st with
  | (inl e, st1, t1) => (inl e, st1, t1)
  | (inr _, st1, t1) =>
      match commitPersist opts st1 with
      | (inl e, st2, t2) => (inl e, st2, t1 ++ t2)
      | (inr n, st2, t2) =>
          (result_of (commitFinish opts n st2),
           state_of (commitFinish opts n st2),
           t1 ++ t2 ++ trace_of (commitFinish opts n st2))
      end
  end.
Proof.
  unfold CommitSites, commitStage. rewrite bind_assoc_run.
  unfold mbind, Go_bind, result_of, state_of, trace_of.
  destruct (commitAcquire st) as [[[e|[]] st1] t1]; [done|].
  destruct (commitPersist opts st1) as [[[e|n] st2] t2]; [done|].
  by destruct (commitFinish opts n st2) as [[r st3] t3].
Qed.

Lemma commitFinish_steps opts n st :
  Forall (λ e, is_save e = false ∧ is_read e = false ∧ is_stage e = false)
         (trace_of (commitFinish opts n st)) ∧
  heap (state_of (commitFinish opts n st)) = heap st ∧
  sitesCache (state_of (commitFinish opts n st)) = sitesCache st.
Proof.
  destruct (commitFinish_obeys (λ st : @St W, (heap st, sitesCache st))
              (λ _ _, eq_refl) opts n st) as [Ht Hs].
  injection Hs as Hh Hc. split_and!; [|done..].
  eapply Forall_impl; [exact Ht|].
  intros e [?|[_ [[-> _]|[cfg ->]]]]; [by destruct e|done..].
Qed.

Lemma commitAcquire_steps st :
  Forall (λ e, is_save e = false ∧ is_stage e = false)
         (trace_of (commitAcquire st)) ∧
  viper (state_of (commitAcquire st)) = viper st.
Proof.
  destruct (commitAcquire_obeys viper (λ _ _, eq_refl) (λ _ _, eq_refl)
              (λ _ _, eq_refl) st) as [Ht Hv].
  split; [|done]. eapply Forall_impl; [exact Ht|]. by intros [] [?|?].
Qed.

(** X16.  A file is staged only after it was written in the same call:
    every staging step of [CommitSites] is for the file [sites/<name>.yaml]
    of a site that [Save] was called on and whose file was written earlier
    in the call, it is taken only when [DryRun] is off, and no site is
    saved once staging has begun. *)
Theorem CommitSites_stages_saved opts st t1 fn t2 :
  trace_of (CommitSites opts st) = t1 ++ EvStage fn :: t2 →
  DryRun opts = false ∧
  Forall (λ e, is_save e = false ∧ is_read e = false) t2 ∧
  ∃ n d,
    fn = path_Join ["sites"; n +:+ ".yaml"] ∧ EvSave n ∈ t1 ∧
    EvWriteFile
      (path_Join [GetString (viper st) "cdb.path"; "sites"; n +:+ ".yaml"]) d
    ∈ t1.
Proof.
  rewrite CommitSites_run.
  destruct (commitAcquire_steps st) as [Hacq Hv].
  unfold trace_of, state_of in *.
  destruct (commitAcquire st) as [[[e|[]] st1] ta]; simpl in *.
  { intros ->. apply Forall_app in Hacq as [_ Hacq].
    apply Forall_cons in Hacq as [[_ [=]] _]. }
  pose proof (commitPersist_facts opts st1 (commitTargets_valid opts st1))
    as (ts&tg&Ht&Hts&Htg&Hdry&_&_&_&_&_&Hstg).
  unfold trace_of, state_of, result_of in *.
  assert (∃ tf, Forall (λ e, is_save e = false ∧ is_read e = false ∧
                             is_stage e = false) tf ∧
            ∀ r0 st0 t0,
              match commitPersist opts st1 with
              | (inl e, st2, t2) => (inl e, st2, ta ++ t2)
              | (inr n, st2, t2) =>
                  ((commitFinish opts n st2).1.1, (commitFinish opts n st2).1.2,
                   ta ++ t2 ++ (commitFinish opts n st2).2)
              end = (r0, st0, t0) → t0 = (ta ++ ts) ++ (tg ++ tf))
    as (tf&Htf&Hshape).
  { destruct (commitPersist opts st1) as [[[e|n] st2] tp]; simpl in *; subst tp.
    - exists []. split; [done|]. intros ??? [= _ _ <-].
      by rewrite app_nil_r, app_assoc.
    - exists (commitFinish opts n st2).2.
      split; [apply (commitFinish_steps opts n st2)|].
      intros ??? [= _ _ <-]. by rewrite <-!app_assoc. }
  intros Htr.
  destruct (commitPersist opts st1) as [[rp stp] tp] eqn:Ep.
  assert (ta ++ ts ++ tg ++ tf = t1 ++ EvStage fn :: t2) as Heq.
  { rewrite <-Htr. rewrite app_assoc.
    destruct rp; simpl in *; symmetry; by eapply Hshape. }
  rewrite app_assoc in Heq.
  apply (split_after (λ e, is_stage e = true)) in Heq as (t1'&->&Heq);
    [| |done].
  2:{ apply Forall_app. split.
      - eapply Forall_impl; [exact Hacq|]. intros ? [_ ->]. done.
      - eapply Forall_impl; [exact Hts|]. by intros []. }
  assert (EvStage fn ∈ tg) as Hin.
  { assert (EvStage fn ∈ tg ++ tf) as [?|Hin]%elem_of_app; [|done|].
    - rewrite Heq. apply elem_of_app. right. by left.
    - rewrite Forall_forall in Htf. by destruct (Htf _ Hin) as (_&_&[=]). }
  split_and!.
  - destruct (DryRun opts); [|done]. rewrite Hdry in Hin by done.
    by apply elem_of_nil in Hin.
  - assert (Forall (λ e, is_save e = false ∧ is_read e = false) (tg ++ tf))
      as Hall.
    { apply Forall_app. split.
      - eapply Forall_impl; [exact Htg|]. by intros [].
      - eapply Forall_impl; [exact Htf|]. by intros ? (?&?&?). }
    rewrite Heq in Hall. apply Forall_app in Hall as [_ Hall].
    by apply Forall_cons in Hall as [_ Hall].
  - destruct (Hstg fn Hin) as (l&s&d&_&_&->&Hsave&Hwrite).
    exists (name s), d. rewrite <-Hv.
    split_and!; [done| |]; apply elem_of_app; left; apply elem_of_app; by right.
Qed.

(** Where the files that [CommitSites] writes come from. *)
Lemma CommitSites_writes_from opts st p d :
  EvWriteFile p d ∈ trace_of (CommitSites opts st) →
  (DryRun opts = false ∨ ForceUpdateTree opts = true) ∧
  ∃ st1 t1 l s c,
    commitAcquire st = (inr tt, st1, t1) ∧
    l ∈ commitTargets opts st1 ∧ heap st1 !! l = Some s ∧
    Changed s = true ∧
    yaml_Marshal (set_changed c s) = inr d ∧
    p = FileName (viper st) s.
Proof.
  rewrite CommitSites_run.
  destruct (commitAcquire_steps st) as [Hacq Hv].
  unfold trace_of, state_of in *.
  destruct (commitAcquire st) as [[[e|[]] st1] ta]; simpl in *.
  { intros Hin. rewrite Forall_forall in Hacq.
    by destruct (Hacq _ Hin) as [[=] _]. }
  pose proof (commitPersist_facts opts st1 (commitTargets_valid opts st1))
    as (ts&tg&Ht&Hts&Htg&Hdry&_&_&_&_&Hwr&_).
  unfold trace_of, state_of, result_of in *.
  intros Hin.
  assert (EvWriteFile p d ∈ ts) as Hin'.
  { destruct (commitPersist opts st1) as [[[e|n] st2] tp]; simpl in *; subst tp.
    - apply elem_of_app in Hin as [Hin|[Hin|Hin]%elem_of_app]; [|done|].
      + rewrite Forall_forall in Hacq. by destruct (Hacq _ Hin) as [[=] _].
      + rewrite Forall_forall in Htg. by apply Htg in Hin.
    - destruct (commitFinish_steps opts n st2) as [Hfin _].
      unfold trace_of in Hfin.
      rewrite <-app_assoc in Hin.
      apply elem_of_app in Hin
        as [Hin|[Hin|[Hin|Hin]%elem_of_app]%elem_of_app]; [|done| |].
      + rewrite Forall_forall in Hacq. by destruct (Hacq _ Hin) as [[=] _].
      + rewrite Forall_forall in Htg. by apply Htg in Hin.
      + rewrite Forall_forall in Hfin. by destruct (Hfin _ Hin) as [[=] _]. }
  split.
  - destruct (DryRun opts) eqn:Hd; [|by left].
    destruct (ForceUpdateTree opts) eqn:Hf; [by right|].
    exfalso. clear Hin.
    destruct (saveSites_shut opts (commitTargets opts st1) st1) as (errs&HR&_);
      [by rewrite Hd, Hf|].
    revert Ht. unfold commitPersist, mbind, Go_bind, get, mret, Go_ret. simpl.
    rewrite HR, Hd. cbn [fst snd].
    destruct (firstError_run errs st1) as [[_ ->]|[e ->]]; simpl;
      intros Ht; symmetry in Ht; apply app_eq_nil in Ht as [-> _];
      by apply elem_of_nil in Hin'.
  - destruct (Hwr p d Hin') as (l&s&c&Hl&Hs&Hm&->).
    destruct (commitTargets_changed opts st1 l Hl) as (id&s'&_&Hs'&Hc).
    rewrite Hs in Hs'. injection Hs' as <-.
    exists st1, ta, l, s, c. by rewrite Hv.
Qed.

(** X17.  Every file that [CommitSites] writes is the file of a targeted
    site that was marked as changed when the saving began, and holds the
    marshalled form of that site (taken with the flag as it is at that
    moment); and files are written only when [DryRun] is off or
    [ForceUpdateTree] is on. *)
Theorem CommitSites_writes_targets opts st p d :
  EvWriteFile p d ∈ trace_of (CommitSites opts st) →
  (DryRun opts = false ∨ ForceUpdateTree opts = true) ∧
  ∃ st1 t1 l s c,
    commitAcquire st = (inr tt, st1, t1) ∧
    l ∈ commitTargets opts st1 ∧ heap st1 !! l = Some s ∧
    Changed s = true ∧
    yaml_Marshal (set_changed c s) = inr d ∧
    p = FileName (viper st) s.
Proof. apply CommitSites_writes_from. Qed.

End commit_run_facts.

Lemma CommitSites_stages_saved_witness :
  ∃ n d,
    "sites/club.yaml" = path_Join ["sites"; n +:+ ".yaml"] ∧
    EvSave n ∈ [EvStatus; EvPull; EvSave "club";
                EvWriteFile "/cdb/sites/club.yaml" "club: alice,bob"] ∧
    EvWriteFile
      (path_Join [GetString sim_cfg "cdb.path"; "sites"; n +:+ ".yaml"]) d
    ∈ [EvStatus; EvPull; EvSave "club";
       EvWriteFile "/cdb/sites/club.yaml" "club: alice,bob"].
Proof.
  apply (CommitSites_stages_saved (opts_sync false false false)
           (sim_loaded sim_world0 (site_club ["alice"; "bob"]))
           [EvStatus; EvPull; EvSave "club";
            EvWriteFile "/cdb/sites/club.yaml" "club: alice,bob"]
           "sites/club.yaml"
           [EvStatus;
            EvCommit
              "sites: Update admins. Sites changed: 1 (cmd=pugo sync, src=newerpol)"
              "pugo" "pugo@example.com";
            EvPush]).
  vm_compute. reflexivity.
Defined.

Lemma CommitSites_writes_targets_witness :
  ∃ st1 t1 l s c,
    commitAcquire (sim_loaded sim_world0 (site_club ["alice"; "bob"]))
    = (inr tt, st1, t1) ∧
    l ∈ commitTargets (opts_sync false false false) st1 ∧
    heap st1 !! l = Some s ∧ Changed s = true ∧
    yaml_Marshal (set_changed c s) = inr "club: alice,bob" ∧
    "/cdb/sites/club.yaml" = FileName sim_cfg s.
Proof.
  apply (CommitSites_writes_targets (opts_sync false false false)
           (sim_loaded sim_world0 (site_club ["alice"; "bob"]))
           "/cdb/sites/club.yaml" "club: alice,bob").
  assert (trace_of (CommitSites (opts_sync false false false)
                      (sim_loaded sim_world0 (site_club ["alice"; "bob"]))) =
          [EvStatus; EvPull; EvSave "club";
           EvWriteFile "/cdb/sites/club.yaml" "club: alice,bob";
           EvStage "sites/club.yaml"; EvStatus;
           EvCommit
             "sites: Update admins. Sites changed: 1 (cmd=pugo sync, src=newerpol)"
             "pugo" "pugo@example.com";
           EvPush]) as -> by (vm_compute; reflexivity).
  do 3 apply list_elem_of_further. apply list_elem_of_here.
Defined.

Section clear_facts.
Context {W : Type} `{External W}.
Implicit Types (st : @St W) (s : Site) (l : nat).

(** X18.  A call of [CommitSites] that returns nil, having saved (that is,
    with [DryRun] off or [ForceUpdateTree] on), leaves none of the sites it
    was asked for marked as changed: the same request, made again, has
    nothing to save. *)
Theorem CommitSites_clears_flags opts st st' t :
  CommitSites opts st = (inr tt, st', t) →
  DryRun opts = false ∨ ForceUpdateTree opts = true →
  commitTargets opts st' = [].
Proof.
  rewrite CommitSites_run. intros Hrun Hgate.
  assert (negb (DryRun opts) || ForceUpdateTree opts = true) as Hgate'.
  { destruct Hgate as [-> | ->]; [done|by rewrite orb_true_r]. }
  destruct (commitAcquire st) as [[[e|[]] st1] ta]; [done|].
  pose proof (commitPersist_facts opts st1 (commitTargets_valid opts st1))
    as (ts&tg&_&_&_&_&Hc&_&[_ Hfl]&Hdone&_&_).
  specialize (Hdone Hgate').
  unfold trace_of, state_of, result_of in *.
  destruct (commitPersist opts st1) as [[[e|n] st2] tp]; [done|]. simpl in *.
  specialize (Hdone (ex_intro _ n eq_refl)).
  destruct (commitFinish_steps opts n st2) as (_&Hh&Hc').
  unfold state_of in *. injection Hrun as _ Hst' _. rewrite Hst' in *.
  destruct (commitTargets opts st') as [|l0 ls] eqn:E; [done|]. exfalso.
  assert (l0 ∈ commitTargets opts st') as Hl0 by (rewrite E; by left).
  unfold commitTargets in Hl0. apply list_elem_of_omap in Hl0 as (e&Hin&He).
  unfold targetOf in He. destruct e.2 eqn:He2; [|done].
  rewrite Hc', Hc in Hin, He.
  destruct (byId (sitesCache st1) !! e.1) as [l|] eqn:Hid; [|done].
  rewrite Hh in He.
  destruct (heap st2 !! l) as [s|] eqn:Hs; [|done].
  destruct (Changed s) eqn:Hch; [|done]. injection He as ->.
  assert (heap st1 !! l0 = Some s) as Hs1.
  { destruct (Hfl l0) as [E1|(_&s1&_&E2)]; [congruence|].
    rewrite Hs in E2. injection E2 as ->. done. }
  assert (l0 ∈ commitTargets opts st1) as Hl1.
  { unfold commitTargets. apply list_elem_of_omap. exists e. split; [done|].
    unfold targetOf. by rewrite He2, Hid, Hs1, Hch. }
  destruct (Hdone l0 Hl1) as (s2&Hs2&Hch2).
  rewrite Hs in Hs2. injection Hs2 as <-. unfold Changed in Hch. congruence.
Qed.

End clear_facts.

Lemma CommitSites_clears_flags_witness :
  commitTargets (opts_sync false false false)
    (state_of (CommitSites (opts_sync false false false)
                 (sim_loaded sim_world0 (site_club ["alice"; "bob"])))) = [].
Proof.
  apply (CommitSites_clears_flags (opts_sync false false false)
           (sim_loaded sim_world0 (site_club ["alice"; "bob"]))
           (state_of (CommitSites (opts_sync false false false)
                        (sim_loaded sim_world0 (site_club ["alice"; "bob"]))))
           (trace_of (CommitSites (opts_sync false false false)
                        (sim_loaded sim_world0 (site_club ["alice"; "bob"]))))).
  - vm_compute. reflexivity.
  - left. reflexivity.
Defined.

(* ------------------------------------------------------------------------- *)
(** ** A sync run and the ledger *)
(* ------------------------------------------------------------------------- *)

Section sync_frames.
Context {W : Type} `{External W}.
Context {X : Type} (f : @St W → X).
Hypothesis f_world : ∀ w st, f (set_world w st) = f st.
Hypothesis f_heap : ∀ h st, f (set_heap h st) = f st.
Hypothesis f_cache : ∀ c st, f (set_sitesCache c st) = f st.

Lemma GetSiteById_frame id : obeys (λ _ _, True) f (GetSiteById id).
Proof.
  unfold GetSiteById. obeys_auto.
  eapply obeys_weaken; [|by apply ensure_obeys]. done.
Qed.

Lemma processGrants_frame verb l records :
  obeys (λ _ _, True) f (processGrants verb l records).
Proof.
  induction records as [|a records IH]; simpl; obeys_auto;
    auto using call_site_obeys, deref_obeys.
Qed.

Lemma processVerb_frame verb entries :
  obeys (λ _ _, True) f (processVerb verb entries).
Proof.
  induction entries as [|[id records] entries IH]; simpl; obeys_auto;
    auto using GetSiteById_frame, processGrants_frame.
Qed.

(** Fetching and applying the grants leaves alone what is neither the
    outside world, nor a site, nor the cache. *)
Lemma syncApply_frame : obeys (λ _ _, True) f syncApply.
Proof.
  unfold syncApply, GetGrantsToAdd, GetGrantsToRevoke, GetGrants.
  obeys_auto; auto using processVerb_frame.
Qed.

Lemma CommitSites_frame opts : obeys (λ _ _, True) f (CommitSites opts).
Proof.
  unfold CommitSites. obeys_step.
  - eapply obeys_weaken; [|by apply commitStage_obeys]. done.
  - eapply obeys_weaken; [|by apply commitFinish_obeys]. done.
Qed.

Lemma syncCommit_frame opts ids : obeys (λ _ _, True) f (syncCommit opts ids).
Proof. unfold syncCommit. obeys_auto. apply CommitSites_frame. Qed.

End sync_frames.

Section sync_ledger.
Context {W : Type} `{External W}.
Implicit Types (st : @St W) (a : newerpol.AccessRecord).

Lemma StartWorker_frame {X} (f : @St W → X) :
  (∀ b st, f (set_worker_started b st) = f st) →
  obeys (λ _ _, True) f StartWorker.
Proof. intros Hf. unfold StartWorker. obeys_auto. Qed.

Lemma SendEmail_frame {X} (f : @St W → X) o :
  obeys (λ _ _, True) f (SendEmail o).
Proof. unfold SendEmail. obeys_auto. Qed.

Lemma notify_frame {X} (f : @St W → X) opts a :
  (∀ w st, f (set_world w st) = f st) →
  (∀ h st, f (set_heap h st) = f st) →
  (∀ c st, f (set_sitesCache c st) = f st) →
  obeys (λ _ _, True) f (notify opts a).
Proof.
  intros Hw Hh Hc. unfold notify. obeys_step.
  { apply obeys_try. by apply GetSiteById_frame. }
  obeys_auto; auto using deref_obeys, SendEmail_frame.
Qed.

(** One round of the finishing loop moves rows of the ledger the way
    [FinishGrant] does. *)
Lemma finishOne_ledger opts se a st :
  let m := (r ← try (FinishGrant a);
            match r with
            | inl e =>
                emit (EvFinishGrant a false (Some e)) ;;
                fail ("sync: " +:+ e)
            | inr updated =>
                emit (EvFinishGrant a updated None) ;;
                if updated && se then notify opts a else mret tt
            end) in
  ledger_moves (ledger st) (ledger (state_of (m st))).
Proof.
  cbv zeta. rewrite bind_run.
  pose proof (FinishGrant_moves a st) as Hmv.
  unfold try, state_of in *.
  destruct (FinishGrant a st) as [[[e|updated] st1] t1]; simpl in *; [done|].
  destruct (updated && se); [|done].
  destruct (notify_frame ledger opts a (λ _ _, eq_refl) (λ _ _, eq_refl)
              (λ _ _, eq_refl) st1) as [_ Hn].
  unfold mbind, Go_bind, emit, state_of in *.
  destruct (notify opts a st1) as [[r2 st2] t2]; simpl in *. by rewrite Hn.
Qed.

(** The finishing loop moves rows of the ledger the way [FinishGrant]
    does, and with the dry-run switch set it does not touch the ledger. *)
Lemma finishGrants_ledger opts se grants st :
  let t' := ledger (state_of (finishGrants opts se grants st)) in
  ledger_moves (ledger st) t' ∧ (dryRun opts = true → t' = ledger st).
Proof.
  cbv zeta. revert st. induction grants as [|a grants IH]; intros st; simpl.
  { split; [apply ledger_moves_refl|done]. }
  rewrite bind_run. destruct (dryRun opts) eqn:Hdry.
  { simpl. destruct (IH st) as [IH1 IH2]. split; [done|]. intros _. by apply IH2. }
  pose proof (finishOne_ledger opts se a st) as Hone. cbv zeta in Hone.
  unfold state_of in *.
  match goal with |- context [match ?m st with _ => _ end] =>
    destruct (m st) as [[[e|[]] st1] t1] end; simpl in *.
  { split; [done|discriminate]. }
  destruct (IH st1) as [IH1 _]. split; [|discriminate].
  by eapply ledger_moves_trans.
Qed.

Lemma syncFinish_ledger opts grants st :
  let t' := ledger (state_of (syncFinish opts grants st)) in
  ledger_moves (ledger st) t' ∧ (dryRun opts = true → t' = ledger st).
Proof.
  cbv zeta. unfold syncFinish. rewrite bind_run.
  assert (∃ se st1 t1,
    (if negb (dryRun opts) && negb (noEmail opts)
     then r ← StartWorker;
          mret (match r with Some _ => false | None => true end)
     else mret false) st = (inr se, st1, t1) ∧ ledger st1 = ledger st)
    as (se&st1&t1&->&Hl).
  { destruct (negb (dryRun opts) && negb (noEmail opts));
      [|by eexists _, _, _].
    destruct (StartWorker_frame ledger (λ _ _, eq_refl) st) as [_ Hl].
    unfold mbind, Go_bind, mret, Go_ret, state_of in *.
    unfold StartWorker in *.
    unfold mbind, Go_bind, get, modify, emit, mret, Go_ret in *.
    destruct (worker_started st); simpl in *; [by eexists _, _, _|].
    destruct (smtp_Dial (world st)); simpl in *; by eexists _, _, _. }
  simpl. rewrite bind_run.
  destruct (finishGrants_ledger opts se grants st1) as [Hmv Hdry].
  rewrite Hl in Hmv, Hdry. unfold state_of in *.
  destruct (finishGrants opts se grants st1) as [[[e|[]] st2] t2];
    simpl in *; [done|].
  assert (ledger (state_of ((if se then ShutdownWorker else mret tt) st2))
          = ledger st2) as Hs by (by destruct se).
  unfold state_of in Hs.
  destruct ((if se then ShutdownWorker else mret tt) st2) as [[r3 st3] t3].
  simpl in *. rewrite Hs. done.
Qed.

(** X19.  A sync run never adds or deletes a row of the ledger and never
    touches a row that is granted or revoked; a row it changes goes from
    grant-pending to granted or from another unfinished status to revoked.
    With the dry-run switch set the ledger is left as it was, and no
    statement is run on it and nothing is put on the mail queue. *)
Theorem doSync_ledger opts st :
  let r := doSync opts st in
  ledger_moves (ledger st) (ledger (state_of r)) ∧
  (dryRun opts = true →
   ledger (state_of r) = ledger st ∧
   Forall (λ e, is_finish e = false ∧ is_enqueue e = false ∧
                is_commit e = false ∧ is_push e = false ∧ is_stage e = false)
          (trace_of r)).
Proof.
  cbv zeta. split.
  - unfold doSync. rewrite bind_run.
    destruct (syncApply_frame ledger (λ _ _, eq_refl) (λ _ _, eq_refl) st)
      as [_ Ha].
    unfold state_of in *.
    destruct (syncApply st) as [[[e|r] st1] t1]; simpl in *.
    { rewrite Ha. apply ledger_moves_refl. }
    rewrite bind_run.
    destruct (syncCommit_frame ledger (λ _ _, eq_refl) (λ _ _, eq_refl)
                (λ _ _, eq_refl) opts r.1 st1) as [_ Hc].
    unfold state_of in *.
    destruct (syncCommit opts r.1 st1) as [[[e|[]] st2] t2]; simpl in *.
    { rewrite Hc, Ha. apply ledger_moves_refl. }
    destruct (syncFinish_ledger opts r.2 st2) as [Hmv _].
    unfold state_of in Hmv. by rewrite Hc, Ha in Hmv.
  - intros Hdry. unfold doSync. rewrite bind_run.
    destruct (syncApply_frame ledger (λ _ _, eq_refl) (λ _ _, eq_refl) st)
      as [_ Ha].
    destruct (syncApply_obeys st) as [Hta _].
    assert (Forall (λ e, is_finish e = false ∧ is_enqueue e = false ∧
                         is_commit e = false ∧ is_push e = false ∧
                         is_stage e = false) (trace_of (syncApply st))) as Hta'.
    { eapply Forall_impl; [exact Hta|]. by intros []. }
    unfold state_of, trace_of in *.
    destruct (syncApply st) as [[[e|r] st1] t1]; simpl in *; [done|].
    rewrite bind_run.
    destruct (syncCommit_frame ledger (λ _ _, eq_refl) (λ _ _, eq_refl)
                (λ _ _, eq_refl) opts r.1 st1) as [_ Hc].
    assert (Forall (λ e, is_finish e = false ∧ is_enqueue e = false ∧
                         is_commit e = false ∧ is_push e = false ∧
                         is_stage e = false)
                   (trace_of (syncCommit opts r.1 st1))) as Htc.
    { unfold syncCommit.
      set (commitOpts := mkCommitSitesOptions _ _ _ _ _ _).
      assert (DryRun commitOpts = true) as Hd by done.
      pose proof (CommitSites_tail commitOpts st1)
        as (t0&tf&Ht&Ht0&Htf).
      destruct (commitStage_obeys (λ _, tt) commitOpts (λ _ _, eq_refl)
                  (λ _ _, eq_refl) (λ _ _, eq_refl) st1) as [Hstage _].
      destruct (CommitSites_obeys commitOpts st1) as [Hcs _].
      pose proof (CommitSites_run commitOpts st1) as Hrun.
      assert (Forall (λ e, is_stage e = false)
                     (trace_of (CommitSites commitOpts st1))) as Hns.
      { rewrite Hrun.
        destruct (commitAcquire_steps st1) as [Hacq _].
        unfold trace_of, state_of in *.
        destruct (commitAcquire st1) as [[[e|[]] st1'] ta]; simpl in *.
        { eapply Forall_impl; [exact Hacq|]. by intros ? [_ ?]. }
        pose proof (commitPersist_facts commitOpts st1'
                      (commitTargets_valid commitOpts st1'))
          as (ts&tg&Htp&Hts&_&Hdry'&_).
        rewrite (Hdry' Hd), app_nil_r in Htp. unfold trace_of in Htp.
        assert (Forall (λ e, is_stage e = false) ts) as Hts'
          by (eapply Forall_impl; [exact Hts|]; by intros []).
        destruct (commitPersist commitOpts st1') as [[[e|n] st2'] tp];
          simpl in *; subst tp.
        - apply Forall_app. split; [|done].
          eapply Forall_impl; [exact Hacq|]. by intros ? [_ ?].
        - destruct (commitFinish_steps commitOpts n st2') as [Hfin _].
          unfold trace_of in Hfin.
          repeat (apply Forall_app; split); [|done|].
          + eapply Forall_impl; [exact Hacq|]. by intros ? [_ ?].
          + eapply Forall_impl; [exact Hfin|]. by intros ? (_&_&?). }
      assert (Forall (λ e, is_commit e = false ∧ is_push e = false)
                     (trace_of (CommitSites commitOpts st1))) as Hncp.
      { rewrite Ht. apply Forall_app. split; [done|].
        destruct Htf as [->|[->|(?&?&?&Hd'&_)]]; [done|by repeat constructor|].
        rewrite Hd in Hd'. discriminate. }
      unfold mbind, Go_bind, try, emit, check_val, fail, mret, Go_ret,
        trace_of in *.
      destruct (CommitSites commitOpts st1) as [[[e|[]] st2] t2]; simpl in *;
        rewrite ?app_nil_r; apply Forall_app; (split; [|by repeat constructor]);
        rewrite Forall_forall in Hcs, Hns, Hncp; apply Forall_forall;
        intros x Hx; destruct (Hcs x Hx) as (?&?&?);
        destruct (Hncp x Hx) as (?&?); specialize (Hns x Hx); done. }
    unfold state_of, trace_of in *.
    destruct (syncCommit opts r.1 st1) as [[[e|[]] st2] t2]; simpl in *.
    { split; [congruence|]. by apply Forall_app. }
    destruct (syncFinish_ledger opts r.2 st2) as [_ Hl].
    specialize (Hl Hdry). unfold state_of in Hl.
    split; [congruence|].
    apply Forall_app. split; [done|]. apply Forall_app. split; [done|].
    unfold syncFinish. rewrite Hdry. simpl.
    unfold mbind, Go_bind, mret, Go_ret.
    assert (∀ grants st0, finishGrants opts false grants st0 = (inr tt, st0, []))
      as Hfg.
    { induction grants as [|a grants IH]; intros st0; simpl; [done|].
      rewrite Hdry. unfold mbind, Go_bind, mret, Go_ret. by rewrite IH. }
    by rewrite Hfg.
Qed.

End sync_ledger.

Lemma doSync_ledger_witness :
  ledger (state_of (doSync (mkSyncOptions true false false false "")
                           sim_sync_st))
  = {[7%Z := newerpol.AccessGrantPending]}.
Proof.
  apply (proj2 (doSync_ledger (mkSyncOptions true false false false "")
                              sim_sync_st)).
  reflexivity.
Defined.

(* ------------------------------------------------------------------------- *)
(** ** The messages of a sync run *)
(* ------------------------------------------------------------------------- *)

Section sync_messages.
Context {W : Type} `{External W}.
Implicit Types (st : @St W) (a : newerpol.AccessRecord).

Lemma SendEmail_obeys (Q : email.EmailOptions → Prop) o' :
  (email.allowedTypes (email.Type_ o') = true → Q o') →
  obeys (λ _ e, ∀ o body, e = EvEnqueue o body → Q o) (λ _ : @St W, tt)
        (SendEmail o').
Proof.
  intros HQ. unfold SendEmail.
  destruct (email.allowedTypes (email.Type_ o')); simpl; [|obeys_auto].
  obeys_auto.
  match goal with E : EvEnqueue _ _ = EvEnqueue _ _ |- _ =>
    injection E as <- _ end.
  by apply HQ.
Qed.

(** The message [notify] puts on the queue, if any. *)
Lemma notify_addressed opts a :
  obeys (λ _ e, ∀ o body, e = EvEnqueue o body →
                  notifies o a ∧ addressed (recipientOverride opts) a o)
        (λ _ : @St W, tt) (notify opts a).
Proof.
  unfold notify. obeys_step.
  { apply obeys_try. eapply obeys_weaken; [|apply GetSiteById_obeys].
    by intros _ []. }
  destruct a0 as [e|[l|]]; [obeys_auto| |obeys_auto].
  obeys_step; [by apply deref_obeys|]. simpl.
  destruct (String.eqb_spec (newerpol.Email a) "") as [|Hmail]; [obeys_auto|].
  obeys_step; [|obeys_auto].
  apply SendEmail_obeys.
  unfold notifies, addressed.
  destruct (Z.eqb_spec (newerpol.RequestStatus a) newerpol.AccessGrantPending)
    as [Hg|Hg];
    [|destruct (Z.eqb_spec (newerpol.RequestStatus a)
                           newerpol.AccessRevokePending) as [Hr|Hr]];
    destruct (String.eqb_spec (recipientOverride opts) "") as [Ho|Ho];
    simpl; try done; intros _; (split; [done|]);
    (split; [tauto|]); (split; [done|]);
    [rewrite decide_True by done|rewrite decide_False by done
    |rewrite decide_True by done|rewrite decide_False by done]; done.
Qed.

(** The part of the loop of [finishGrants] that deals with one grant: a
    message is put on the queue only after the finalization of that grant
    was reported with [updated = true], and it is the message for it. *)
Lemma finishOne_message opts (se : bool) a st o body :
  let t := trace_of
    ((if dryRun opts then mret tt
      else
        r ← try (FinishGrant a);
        match r with
        | inl e => emit (EvFinishGrant a false (Some e)) ;; fail ("sync: " +:+ e)
        | inr updated =>
            emit (EvFinishGrant a updated None) ;;
            if updated && se then notify opts a else mret tt
        end) st) in
  EvEnqueue o body ∈ t →
  EvFinishGrant a true None ∈ t ∧
  notifies o a ∧ addressed (recipientOverride opts) a o.
Proof.
  destruct (dryRun opts); [by intros ? ?%elem_of_nil|].
  cbv zeta. rewrite bind_run.
  destruct (obeys_try _ _ _ (FinishGrant_obeys a) st) as [HtF _].
  unfold trace_of, result_of, state_of in *.
  rewrite Forall_forall in HtF.
  destruct (try (FinishGrant a) st) as [[[e|r] st1] tF]; simpl in *.
  { intros Hin. by destruct (HtF _ Hin) as (?&?&?&[=]). }
  destruct r as [e|updated].
  - unfold mbind, Go_bind, emit, fail; simpl.
    intros [Hin|Hin]%elem_of_app.
    + by destruct (HtF _ Hin) as (?&?&?&[=]).
    + by apply list_elem_of_singleton in Hin.
  - unfold mbind, Go_bind, emit; simpl.
    destruct (updated && se) eqn:Hus.
    + apply andb_true_iff in Hus as [-> ->].
      destruct (notify_addressed opts a st1) as [Hn _]. unfold trace_of in Hn.
      rewrite Forall_forall in Hn.
      destruct (notify opts a st1) as [[rn stn] tn]; simpl in *.
      intros [Hin|[Hin|Hin]%elem_of_cons]%elem_of_app.
      * by destruct (HtF _ Hin) as (?&?&?&[=]).
      * done.
      * split; [apply elem_of_app; right; by left|].
        by apply (Hn _ Hin o body).
    + unfold mret, Go_ret; simpl.
      intros [Hin|Hin]%elem_of_app.
      * by destruct (HtF _ Hin) as (?&?&?&[=]).
      * by apply list_elem_of_singleton in Hin.
Qed.

Lemma finishGrants_messages opts se grants st o body :
  EvEnqueue o body ∈ trace_of (finishGrants opts se grants st) →
  ∃ a, a ∈ grants ∧
       EvFinishGrant a true None ∈ trace_of (finishGrants opts se grants st) ∧
       notifies o a ∧ addressed (recipientOverride opts) a o.
Proof.
  revert st. induction grants as [|a grants IH]; intros st; simpl.
  { by intros ?%elem_of_nil. }
  rewrite bind_run.
  pose proof (finishOne_message opts se a st o body) as H1. cbv zeta in H1.
  unfold trace_of, result_of, state_of in *.
  match goal with |- context [?m st] =>
    destruct (m st) as [[[e|[]] st1] t1]; simpl in *
  end.
  { intros Hin. destruct (H1 Hin) as (?&?&?). exists a.
    split_and!; [by left|done..]. }
  intros [Hin|Hin]%elem_of_app.
  - destruct (H1 Hin) as (?&?&?). exists a.
    split_and!; [by left|apply elem_of_app; by left|done..].
  - destruct (IH st1 Hin) as (a'&?&?&?&?). exists a'.
    split_and!; [by right|apply elem_of_app; by right|done..].
Qed.

Lemma syncFinish_messages opts grants st o body :
  EvEnqueue o body ∈ trace_of (syncFinish opts grants st) →
  ∃ a, a ∈ grants ∧
       EvFinishGrant a true None ∈ trace_of (syncFinish opts grants st) ∧
       notifies o a ∧ addressed (recipientOverride opts) a o.
Proof.
  unfold syncFinish. rewrite bind_run.
  assert (∃ se st1 t1,
    (if negb (dryRun opts) && negb (noEmail opts)
     then r ← StartWorker; mret (match r with Some _ => false | None => true end)
     else mret false) st = (inr se, st1, t1) ∧
    (t1 = [] ∨ t1 = [EvStartWorker]))
    as (se&st1&t1&->&Ht1).
  { destruct (negb (dryRun opts) && negb (noEmail opts));
      [|by eexists _, _, _; split; [|left]].
    unfold StartWorker, mbind, Go_bind, get, modify, emit, mret, Go_ret.
    destruct (worker_started st); simpl; [by eexists _, _, _; split; [|left]|].
    destruct (smtp_Dial (world st)); simpl; eexists _, _, _;
      (split; [done|]); auto. }
  unfold result_of, state_of, trace_of; simpl. rewrite bind_run.
  pose proof (finishGrants_messages opts se grants st1 o body) as Hm.
  unfold result_of, state_of, trace_of in *.
  assert (EvEnqueue o body ∉ t1) as Hno1.
  { destruct Ht1 as [->| ->]; [by intros ?%elem_of_nil|].
    by intros ?%list_elem_of_singleton. }
  destruct (finishGrants opts se grants st1) as [[[e|[]] st2] t2]; simpl in *.
  - intros [Hin|Hin]%elem_of_app; [done|].
    destruct (Hm Hin) as (a&?&?&?&?). exists a.
    split_and!; [done|apply elem_of_app; by right|done..].
  - intros [Hin|[Hin|Hin]%elem_of_app]%elem_of_app; [done| |].
    + destruct (Hm Hin) as (a&?&?&?&?). exists a.
      split_and!; [done| |done..].
      apply elem_of_app; right. apply elem_of_app; by left.
    + exfalso. destruct se; simpl in Hin.
      * unfold ShutdownWorker, mbind, Go_bind, emit, modify in Hin.
        simpl in Hin. by apply list_elem_of_singleton in Hin.
      * by apply elem_of_nil in Hin.
Qed.

End sync_messages.

(* ------------------------------------------------------------------------- *)
(** ** Applying the grants of one site *)
(* ------------------------------------------------------------------------- *)

Section apply_pure.
Implicit Types (u x : string) (s : Site) (logins : list string).

Lemma AddAdmin_NoDup u s : NoDup (Admins s) → NoDup (Admins (AddAdmin u s)).
Proof.
  intros Hnd. rewrite (AddAdmin_perm u s).
  case_decide as Hc; [done|]. apply NoDup_cons. split; [tauto|done].
Qed.

Lemma RemoveAdmin_NoDup u s :
  NoDup (Admins s) → NoDup (Admins (RemoveAdmin u s)).
Proof.
  intros Hnd. pose proof (RemoveAdmin_perm u s) as Hp.
  case_decide; rewrite Hp in Hnd; [by apply NoDup_cons in Hnd as [_ ?]|done].
Qed.

Lemma RemoveAdmin_elem_of x u s :
  NoDup (Admins s) →
  x ∈ Admins (RemoveAdmin u s) ↔ x ∈ Admins s ∧ ¬ (x = u ∧ u ≠ "").
Proof.
  intros Hnd. destruct (decide (x = u)) as [->|Hne].
  - destruct (decide (u = "")) as [->|Hu].
    + rewrite RemoveAdmin_empty. tauto.
    + pose proof (RemoveAdmin_gone u s Hnd Hu) as Hgone.
      split; [by intros ?%Hgone|tauto].
  - rewrite RemoveAdmin_elem_of_ne by done. tauto.
Qed.

Lemma foldl_AddAdmin_elem_of x logins s :
  x ∈ Admins (foldl (λ s u, AddAdmin u s) s logins)
  ↔ x ∈ Admins s ∨ (x ∈ logins ∧ x ≠ "").
Proof.
  revert s. induction logins as [|u logins IH]; intros s; simpl.
  { rewrite elem_of_nil. tauto. }
  rewrite IH, AddAdmin_elem_of, elem_of_cons.
  split; [intros [[?|[-> ?]]|[? ?]]|intros [?|[[->|?] ?]]]; tauto.
Qed.

Lemma foldl_RemoveAdmin_elem_of x logins s :
  NoDup (Admins s) →
  x ∈ Admins (foldl (λ s u, RemoveAdmin u s) s logins)
  ↔ x ∈ Admins s ∧ ¬ (x ∈ logins ∧ x ≠ "").
Proof.
  revert s. induction logins as [|u logins IH]; intros s Hnd; simpl.
  { rewrite elem_of_nil. tauto. }
  rewrite IH by (by apply RemoveAdmin_NoDup).
  rewrite RemoveAdmin_elem_of by done. rewrite elem_of_cons.
  split.
  - intros [[? ?] ?]. split; [done|]. intros [[->|?] ?]; tauto.
  - intros [? Hn]. split; [split; [done|]|].
    + intros [-> ?]. apply Hn. auto.
    + intros [? ?]. apply Hn. auto.
Qed.

Lemma AddAdmin_Id_name u s :
  Id (AddAdmin u s) = Id s ∧ name (AddAdmin u s) = name s.
Proof. by rewrite AddAdmin_shape. Qed.

Lemma RemoveAdmin_Id_name u s :
  Id (RemoveAdmin u s) = Id s ∧ name (RemoveAdmin u s) = name s.
Proof. by rewrite RemoveAdmin_shape. Qed.

End apply_pure.

Section apply_facts.
Context {W : Type} `{External W}.
Implicit Types (st : @St W) (s : Site) (l : nat).

(** X21.  The goroutine that applies the grants of one site calls
    [AddAdmin], or [RemoveAdmin], with the login of each record in turn, on
    that site and on no other; it forwards every record for finalization,
    in order, whether the call changed the list or not; and it reports the
    site's own id, at least once if and only if the site is marked as
    changed at the end. *)
Theorem processGrants_effect verb l records st s :
  heap st !! l = Some s →
  let op := λ (s : Site) (a : newerpol.AccessRecord),
              match verb with
              | VAdd => AddAdmin (newerpol.Login a) s
              | VRevoke => RemoveAdmin (newerpol.Login a) s
              end in
  let s' := foldl op s records in
  ∃ ids st',
    processGrants verb l records st = (inr (ids, records), st', []) ∧
    heap st' = <[l := s']> (heap st) ∧
    sitesCache st' = sitesCache st ∧ world st' = world st ∧
    ledger st' = ledger st ∧
    Id s' = Id s ∧ name s' = name s ∧
    (∀ id, id ∈ ids → id = Id s) ∧
    (records ≠ [] → (ids ≠ [] ↔ changed s' = true)).
Proof.
  intros Hl op s'. unfold s'. clear s'.
  revert st s Hl. induction records as [|a records IH]; intros st s Hl; simpl.
  { exists [], st. split_and!; try done.
    - by rewrite list_insert_id.
    - by intros ? ?%elem_of_nil. }
  set (s1 := op s a).
  set (st1 := set_heap (<[l := s1]> (heap st)) st).
  assert (heap st1 !! l = Some s1) as Hl1.
  { unfold st1; simpl. apply list_lookup_insert_eq. by apply lookup_lt_is_Some. }
  destruct (IH st1 s1 Hl1) as (ids&st'&HR&Hh&Hc&Hw&Hled&Hid&Hname&Hids&Hch).
  assert (Id s1 = Id s ∧ name s1 = name s) as [Hid1 Hname1].
  { unfold s1, op. destruct verb;
      [apply AddAdmin_Id_name|apply RemoveAdmin_Id_name]. }
  assert (changed s1 = true → changed (foldl op s1 records) = true) as Hmono.
  { generalize s1. clear.
    induction records as [|a' records IH]; intros s0 Hc; simpl; [done|].
    apply IH. unfold op.
    destruct verb; [by apply AddAdmin_keeps_changed
                   |by apply RemoveAdmin_keeps_changed]. }
  exists ((if Changed s1 then [Id s1] else []) ++ ids), st'.
  split_and!.
  - unfold mbind, Go_bind, call_site, deref, mret, Go_ret. rewrite Hl.
    fold st1. assert (match verb with
                      | VAdd => AddAdmin (newerpol.Login a)
                      | VRevoke => RemoveAdmin (newerpol.Login a)
                      end s = s1) as -> by (unfold s1, op; by destruct verb).
    fold st1. rewrite Hl1, HR. done.
  - rewrite Hh. unfold st1; simpl. by rewrite list_insert_insert_eq.
  - by rewrite Hc.
  - by rewrite Hw.
  - by rewrite Hled.
  - congruence.
  - congruence.
  - intros id [Hin|Hin]%elem_of_app.
    + destruct (Changed s1); [|by apply elem_of_nil in Hin].
      apply list_elem_of_singleton in Hin. congruence.
    + rewrite (Hids id Hin). done.
  - intros _. unfold Changed. destruct (changed s1) eqn:Hc1.
    + split; [intros _; by apply Hmono|done].
    + simpl. destruct records as [|a' records]; [|apply Hch; done].
      simpl in *. injection HR as <- _. by rewrite Hc1.
Qed.

End apply_facts.

Lemma processGrants_effect_witness :
  ∃ ids st',
    processGrants VAdd 0 [grant7] (sim_loaded sim_world0 (site_club ["alice"]))
    = (inr (ids, [grant7]), st', []) ∧
    heap st' = [AddAdmin "bob" (site_club ["alice"])].
Proof.
  destruct (processGrants_effect VAdd 0 [grant7]
              (sim_loaded sim_world0 (site_club ["alice"]))
              (site_club ["alice"]) eq_refl) as (ids&st'&Hrun&Hheap&_).
  exists ids, st'. split; [exact Hrun|exact Hheap].
Defined.

(** X22.  What a batch of grants, and a batch of revocations, leaves in the
    access list: after the grants, a name is listed if and only if it was
    listed before or is a non-empty login of the batch; after the
    revocations, on a list without duplicates, if and only if it was listed
    before and is not a non-empty login of the batch. *)
Theorem batch_membership (logins : list string) (s : Site) (x : string) :
  (x ∈ Admins (foldl (λ s u, AddAdmin u s) s logins)
   ↔ x ∈ Admins s ∨ (x ∈ logins ∧ x ≠ ""))
  ∧ (NoDup (Admins s) →
     x ∈ Admins (foldl (λ s u, RemoveAdmin u s) s logins)
     ↔ x ∈ Admins s ∧ ¬ (x ∈ logins ∧ x ≠ "")).
Proof.
  split; [apply foldl_AddAdmin_elem_of|apply foldl_RemoveAdmin_elem_of].
Qed.

Lemma batch_membership_witness :
  "carol" ∈ Admins (foldl (λ s u, RemoveAdmin u s) site_ac ["alice"; ""])
  ↔ "carol" ∈ Admins site_ac ∧ ¬ ("carol" ∈ ["alice"; ""] ∧ "carol" ≠ "").
Proof.
  apply (proj2 (batch_membership ["alice"; ""] site_ac "carol")).
  apply (bool_decide_unpack _); vm_compute; exact I.
Defined.

(* ------------------------------------------------------------------------- *)
(** ** Grants for sites that the store does not hold *)
(* ------------------------------------------------------------------------- *)

Section loaded_facts.
Context {W : Type} `{External W}.
Implicit Types (st : @St W) (a : newerpol.AccessRecord).
Context (c : sitesCacheStruct).

Lemma loaded_GetSiteById id : keeps (@loaded_as W c) (GetSiteById id).
Proof. intros st [Hd Hc]. by rewrite GetSiteById_loaded. Qed.

Lemma loaded_call_site l m : keeps (@loaded_as W c) (call_site l m).
Proof. by apply keeps_call_site. Qed.

Lemma loaded_processGrants verb l records :
  keeps (@loaded_as W c) (processGrants verb l records).
Proof.
  induction records as [|a records IH]; simpl; keeps_auto.
  apply loaded_call_site.
Qed.

Lemma loaded_processVerb verb entries :
  keeps (@loaded_as W c) (processVerb verb entries).
Proof.
  induction entries as [|[id records] entries IH]; simpl; keeps_auto;
    auto using loaded_GetSiteById, loaded_processGrants.
Qed.

Lemma loaded_CommitSites opts : keeps (@loaded_as W c) (CommitSites opts).
Proof.
  intros st [Hd Hc]. destruct (CommitSites_loaded opts st Hd) as (_&Hs&_).
  split; by rewrite Hs.
Qed.

Lemma loaded_syncCommit opts ids : keeps (@loaded_as W c) (syncCommit opts ids).
Proof. unfold syncCommit. keeps_auto. apply loaded_CommitSites. Qed.

Lemma loaded_FinishGrant a : keeps (@loaded_as W c) (FinishGrant a).
Proof.
  unfold FinishGrant. keeps_auto; apply keeps_modify; intros st; try done.
  by destruct (finishing_stmt a).
Qed.

Lemma loaded_notify opts a : keeps (@loaded_as W c) (notify opts a).
Proof.
  unfold notify. keeps_step; [apply keeps_try, loaded_GetSiteById|].
  unfold SendEmail. keeps_auto.
Qed.

Lemma loaded_finishGrants opts se grants :
  keeps (@loaded_as W c) (finishGrants opts se grants).
Proof.
  induction grants as [|a grants IH]; simpl; keeps_auto;
    auto using loaded_FinishGrant, loaded_notify.
Qed.

Lemma loaded_syncFinish opts grants :
  keeps (@loaded_as W c) (syncFinish opts grants).
Proof.
  unfold syncFinish, StartWorker, ShutdownWorker.
  keeps_auto; try (by apply keeps_modify); apply loaded_finishGrants.
Qed.

End loaded_facts.

Section known_facts.
Context {W : Type} `{External W}.
Implicit Types (st : @St W) (a : newerpol.AccessRecord).

Lemma processGrants_forwards verb l records st ids gs :
  result_of (processGrants verb l records st) = inr (ids, gs) → gs = records.
Proof.
  revert st ids gs. induction records as [|a records IH]; intros st ids gs; simpl.
  { by intros [= _ <-]. }
  unfold mbind, Go_bind, call_site, deref, mret, Go_ret, result_of.
  destruct (heap st !! l) as [s|]; [|done]. simpl.
  destruct (<[l := _]> (heap st) !! l) as [s1|]; [|done]. simpl.
  match goal with |- context [processGrants verb l records ?st1] =>
    specialize (IH st1); unfold result_of in IH;
    destruct (processGrants verb l records st1) as [[[e|[ids' gs']] st2] t2]
  end; simpl; [done|].
  intros [= _ <-]. f_equal. by eapply IH.
Qed.

Lemma fatalf_GetSiteById_run p id st :
  let st0 := state_of (ensureSitesCacheLoaded st) in
  initOnce (sitesCache st0) = true ∧
  ∃ t, (∃ e, fatalf p (GetSiteById id) st = (inl e, st0, t))
       ∨ fatalf p (GetSiteById id) st
         = (inr (byId (sitesCache st0) !! id), st0, t).
Proof.
  intros st0. split; [apply ensure_post|].
  unfold fatalf, GetSiteById. rewrite (lookup_run (λ c, byId c !! id)).
  fold st0. destruct (initError (sitesCache st0)); eauto.
Qed.

(** The records that the loop over the sites forwards belong to sites that
    the store holds. *)
Lemma processVerb_known verb entries st ids gs :
  let r := processVerb verb entries st in
  result_of r = inr (ids, gs) →
  (entries ≠ [] → initOnce (sitesCache (state_of r)) = true) ∧
  ∀ a, a ∈ gs →
       ∃ id rs, (id, rs) ∈ entries ∧ a ∈ rs ∧
                is_Some (byId (sitesCache (state_of r)) !! id).
Proof.
  cbv zeta. revert st ids gs.
  induction entries as [|[id rs] entries IH]; intros st ids gs; simpl.
  { intros [= _ <-]. split; [done|]. by intros ? ?%elem_of_nil. }
  rewrite bind_run.
  destruct (fatalf_GetSiteById_run "sync: " id st) as [Hd (t0&[[e ->]| ->])];
    [done|].
  set (st0 := state_of (ensureSitesCacheLoaded st)) in *.
  set (site := byId (sitesCache st0) !! id) in *.
  rewrite bind_run.
  assert (loaded_as (sitesCache st0) st0) as Hl0 by done.
  set (m1 := match site with
             | Some l => processGrants verb l rs
             | None => mret ([], [])
             end).
  assert (keeps (loaded_as (sitesCache st0)) m1) as Hk1.
  { unfold m1. destruct site; [apply loaded_processGrants|apply keeps_ret]. }
  pose proof (Hk1 st0 Hl0) as Hl1.
  assert (∀ ids1 gs1, result_of (m1 st0) = inr (ids1, gs1) →
            ∀ a, a ∈ gs1 → a ∈ rs ∧ is_Some site) as Hgs1.
  { unfold m1. intros ids1 gs1. destruct site as [l|].
    - intros ->%processGrants_forwards. eauto.
    - intros [= _ <-] ? ?%elem_of_nil. done. }
  unfold result_of, state_of in *.
  destruct (m1 st0) as [[[e|[ids1 gs1]] st1] t1]; simpl in *; [done|].
  rewrite bind_run.
  pose proof (loaded_processVerb (sitesCache st0) verb entries st1 Hl1) as Hl2.
  specialize (IH st1). unfold result_of, state_of in *.
  destruct (processVerb verb entries st1) as [[[e|[ids2 gs2]] st2] t2];
    simpl in *; [done|].
  intros [= _ <-]. destruct Hl2 as [Hd2 Hc2].
  split; [done|]. intros a [Hin|Hin]%elem_of_app.
  - destruct (Hgs1 _ _ eq_refl a Hin) as [? ?].
    exists id, rs. split_and!; [by left|done|]. by rewrite Hc2.
  - destruct (IH _ _ eq_refl) as [_ IH2].
    destruct (IH2 a Hin) as (id'&rs'&?&?&?).
    exists id', rs'. split_and!; [by right|done|done].
Qed.

Lemma notify_steps opts a :
  obeys (λ _ e, is_read e = true ∨ is_enqueue e = true) (λ _ : @St W, tt)
        (notify opts a).
Proof.
  unfold notify. obeys_step.
  { apply obeys_try. eapply obeys_weaken; [|apply GetSiteById_obeys].
    intros; tauto. }
  unfold SendEmail. obeys_auto; try tauto. by apply deref_obeys.
Qed.

Lemma finishGrants_finishes_given opts se grants :
  obeys (λ _ e, ∀ a u er, e = EvFinishGrant a u er → a ∈ grants)
        (λ _ : @St W, tt) (finishGrants opts se grants).
Proof.
  induction grants as [|a grants IH]; simpl; [obeys_auto|].
  obeys_step.
  - destruct (dryRun opts); [obeys_auto|].
    obeys_step.
    { apply obeys_try. eapply obeys_weaken; [|apply FinishGrant_obeys].
      by intros _ ? (?&?&?&->). }
    destruct a0 as [e|updated].
    + obeys_auto. match goal with E : _ = EvFinishGrant _ _ _ |- _ =>
        injection E as <- _ _ end. by left.
    + obeys_step.
      { obeys_auto. match goal with E : _ = EvFinishGrant _ _ _ |- _ =>
          injection E as <- _ _ end. by left. }
      destruct (updated && se); [|obeys_auto].
      eapply obeys_weaken; [|apply notify_steps].
      simpl. intros _ e He a' u er ->. simpl in He. by destruct He.
  - eapply obeys_weaken; [|apply IH].
    intros _ e He a' u er ->. right. by eapply He.
Qed.

End known_facts.

Section known_theorem.
Context {W : Type} `{External W}.
Implicit Types (st : @St W) (a : newerpol.AccessRecord).

Lemma GetGrants_run status st :
  (∃ e, GetGrants status st = (inl e, st, []))
  ∨ ∃ rows, GetGrants status st = (inr (groupByWebsite rows), st, []).
Proof.
  unfold GetGrants, mbind, Go_bind, get, check_val, fail, mret, Go_ret.
  destruct (sql_Queryx status (world st)) as [e|rows]; simpl; eauto.
Qed.

Lemma fatalf_GetGrants_run p status st :
  (∃ e, fatalf p (GetGrants status) st = (inl e, st, []))
  ∨ ∃ rows, fatalf p (GetGrants status) st
            = (inr (groupByWebsite rows), st, []).
Proof.
  unfold fatalf.
  destruct (GetGrants_run status st) as [[e ->]|[rows ->]]; eauto.
Qed.

Lemma grouped_entry rows id rs a :
  (id, rs) ∈ map_to_list (groupByWebsite rows) → a ∈ rs →
  newerpol.WebsiteId a = id.
Proof.
  intros Hin%elem_of_map_to_list Ha.
  by apply (groupByWebsite_elem_of rows id rs a Hin) in Ha as [_ ?].
Qed.

(** The grants that the first part of a sync run hands on belong to sites
    that the store holds, and the store is loaded if there are any. *)
Lemma syncApply_known st ids gs :
  result_of (syncApply st) = inr (ids, gs) →
  (gs ≠ [] → initOnce (sitesCache (state_of (syncApply st))) = true) ∧
  ∀ a, a ∈ gs →
       is_Some (byId (sitesCache (state_of (syncApply st)))
                  !! newerpol.WebsiteId a).
Proof.
  unfold syncApply. rewrite bind_run. simpl. rewrite bind_run.
  destruct (sql_Connect (world st)); simpl; [done|].
  rewrite bind_run. unfold GetGrantsToAdd, GetGrantsToRevoke.
  destruct (fatalf_GetGrants_run "sync: " newerpol.AccessGrantPending st)
    as [[e ->]|[rows1 ->]]; [done|]. simpl.
  rewrite bind_run.
  destruct (fatalf_GetGrants_run "sync: " newerpol.AccessRevokePending st)
    as [[e ->]|[rows2 ->]]; [done|]. simpl.
  rewrite bind_run.
  pose proof (processVerb_known VAdd (map_to_list (groupByWebsite rows1)) st)
    as K1. cbv zeta in K1.
  unfold result_of, state_of in *.
  destruct (processVerb VAdd (map_to_list (groupByWebsite rows1)) st)
    as [[[e|[ids1 gs1]] st1] t1] eqn:E1; simpl in *; [done|].
  destruct (K1 _ _ eq_refl) as [Hd1 Hk1]. clear K1.
  rewrite bind_run.
  pose proof (processVerb_known VRevoke (map_to_list (groupByWebsite rows2)) st1)
    as K2. cbv zeta in K2.
  pose proof (loaded_processVerb (sitesCache st1) VRevoke
                (map_to_list (groupByWebsite rows2)) st1) as L2.
  unfold result_of, state_of in *.
  destruct (processVerb VRevoke (map_to_list (groupByWebsite rows2)) st1)
    as [[[e|[ids2 gs2]] st2] t2] eqn:E2; simpl in *; [done|].
  destruct (K2 _ _ eq_refl) as [Hd2 Hk2]. clear K2.
  intros [= _ <-].
  assert (∀ a, a ∈ gs1 →
            initOnce (sitesCache st2) = true ∧
            is_Some (byId (sitesCache st2) !! newerpol.WebsiteId a)) as H1.
  { intros a Ha. destruct (Hk1 a Ha) as (id&rs&Hin&Hars&Hsome).
    destruct L2 as [Hd Hc].
    { split; [|done]. apply Hd1. intros E. rewrite E in Hin.
      by apply elem_of_nil in Hin. }
    split; [done|].
    rewrite (grouped_entry rows1 id rs a Hin Hars). by rewrite Hc. }
  assert (∀ a, a ∈ gs2 →
            initOnce (sitesCache st2) = true ∧
            is_Some (byId (sitesCache st2) !! newerpol.WebsiteId a)) as H2.
  { intros a Ha. destruct (Hk2 a Ha) as (id&rs&Hin&Hars&Hsome).
    split.
    - apply Hd2. intros E. rewrite E in Hin. by apply elem_of_nil in Hin.
    - by rewrite (grouped_entry rows2 id rs a Hin Hars). }
  split.
  - intros Hne. destruct (gs1 ++ gs2) as [|a0 rest] eqn:E; [done|].
    assert (a0 ∈ gs1 ++ gs2) as [Ha|Ha]%elem_of_app by (rewrite E; by left).
    + by destruct (H1 a0 Ha).
    + by destruct (H2 a0 Ha).
  - intros a [Ha|Ha]%elem_of_app; [by destruct (H1 a Ha)|by destruct (H2 a Ha)].
Qed.

(** X23.  A sync run finalizes only grants whose website the store holds:
    [FinishGrant] is not called for a grant of a site that was not found
    when the grants were applied, so the row of such a grant stays as it
    is. *)
Theorem doSync_finishes_known_sites opts st a updated err :
  EvFinishGrant a updated err ∈ trace_of (doSync opts st) →
  is_Some (byId (sitesCache (state_of (doSync opts st)))
             !! newerpol.WebsiteId a).
Proof.
  unfold doSync. rewrite bind_run.
  destruct (syncApply_obeys st) as [Hta _].
  pose proof (syncApply_known st) as Hknown.
  unfold result_of, state_of, trace_of in *.
  destruct (syncApply st) as [[[e|[ids gs]] st1] t1]; simpl in *.
  { intros Hin. rewrite Forall_forall in Hta. by apply Hta in Hin. }
  destruct (Hknown _ _ eq_refl) as [Hd Hk]. clear Hknown.
  rewrite bind_run.
  destruct (syncCommit_run opts ids st1) as (tc&c&st2&Hrun&Htc).
  pose proof (loaded_syncCommit (sitesCache st1) opts ids st1) as Lc.
  rewrite Hrun in Lc |- *. unfold state_of in Lc; simpl in Lc.
  pose proof (loaded_syncFinish (sitesCache st1) opts gs st2) as Lf.
  assert (Forall (λ e, ∀ a u er, e = EvFinishGrant a u er → a ∈ gs)
                 (trace_of (syncFinish opts gs st2))) as Htf.
  { assert (obeys (λ _ e, ∀ a u er, e = EvFinishGrant a u er → a ∈ gs)
                  (λ _ : @St W, tt) (syncFinish opts gs)) as Hob.
    { unfold syncFinish, StartWorker, ShutdownWorker.
      obeys_step; [obeys_auto|].
      obeys_step; [apply finishGrants_finishes_given|obeys_auto]. }
    apply Hob. }
  unfold state_of, trace_of in *.
  intros Hin.
  assert (a ∈ gs) as Ha.
  { apply elem_of_app in Hin as [Hin|Hin].
    { rewrite Forall_forall in Hta. by apply Hta in Hin. }
    destruct c as [e|]; simpl in Hin.
    - apply elem_of_app in Hin as [Hin|Hin].
      + rewrite Forall_forall in Htc. by destruct (Htc _ Hin) as (_&[=]&_).
      + by apply list_elem_of_singleton in Hin.
    - apply elem_of_app in Hin as [[Hin|Hin]%elem_of_app|Hin].
      + rewrite Forall_forall in Htc. by destruct (Htc _ Hin) as (_&[=]&_).
      + by apply list_elem_of_singleton in Hin.
      + rewrite Forall_forall in Htf. by eapply Htf. }
  assert (loaded_as (sitesCache st1) st1) as L1.
  { split; [|done]. apply Hd. intros ->. by apply elem_of_nil in Ha. }
  specialize (Lc L1). destruct c as [e|]; simpl.
  - destruct Lc as [_ ->]. by apply Hk.
  - destruct (Lf Lc) as [_ Hc]. unfold state_of in Hc.
    destruct (syncFinish opts gs st2) as [[r3 st3] t3]; simpl in *.
    rewrite Hc. by apply Hk.
Qed.

End known_theorem.

Lemma doSync_finishes_known_sites_witness :
  is_Some (byId (sitesCache (state_of (doSync sync_opts_default sim_sync_st)))
             !! newerpol.WebsiteId grant0).
Proof.
  apply (doSync_finishes_known_sites sync_opts_default sim_sync_st
           grant0 true None).
  assert (trace_of (doSync sync_opts_default sim_sync_st) =
    [EvReadDir "/cdb/sites"; EvReadFile "/cdb/sites/club.yaml"; EvStatus;
     EvPull; EvSave "club";
     EvWriteFile "/cdb/sites/club.yaml" "club: alice,bob";
     EvStage "sites/club.yaml"; EvStatus;
     EvCommit
       "sites: Update admins. Sites changed: 1 (cmd=pugo sync, src=newerpol)"
       "pugo" "pugo@example.com";
     EvPush; EvCommitSites None; EvStartWorker;
     EvExec newerpol.grantPendingToGrantedQuery 7 1;
     EvFinishGrant grant0 true None;
     EvEnqueue (email.mkEmailOptions "Chess" "bob@example.com" "Bob B" "Bob"
                  "club" "Website Access Granted" "granted") "Dear Bob";
     EvShutdownWorker]) as -> by (vm_compute; reflexivity).
  do 13 apply list_elem_of_further. apply list_elem_of_here.
Defined.

(* ------------------------------------------------------------------------- *)
(** ** Whom the messages of a sync run are for *)
(* ------------------------------------------------------------------------- *)

Section message_theorem.
Context {W : Type} `{External W}.
Implicit Types (st : @St W) (a : newerpol.AccessRecord).

Lemma fatalf_GetGrants_rows p status st :
  (∃ e, fatalf p (GetGrants status) st = (inl e, st, []))
  ∨ ∃ rows, sql_Queryx status (world st) = inr rows ∧
            fatalf p (GetGrants status) st
            = (inr (groupByWebsite rows), st, []).
Proof.
  unfold fatalf, GetGrants, mbind, Go_bind, get, check_val, fail, mret, Go_ret.
  destruct (sql_Queryx status (world st)) as [e|rows]; simpl; eauto.
Qed.

(** The grants that the first part of a sync run hands on are rows of its
    two lookups. *)
Lemma syncApply_fetched st ids gs :
  result_of (syncApply st) = inr (ids, gs) →
  ∀ a, a ∈ gs → fetched (world st) a.
Proof.
  unfold syncApply. rewrite bind_run. simpl. rewrite bind_run.
  destruct (sql_Connect (world st)); simpl; [done|].
  rewrite bind_run. unfold GetGrantsToAdd, GetGrantsToRevoke.
  destruct (fatalf_GetGrants_rows "sync: " newerpol.AccessGrantPending st)
    as [[e ->]|(rows1&Hq1&->)]; [done|]. simpl.
  rewrite bind_run.
  destruct (fatalf_GetGrants_rows "sync: " newerpol.AccessRevokePending st)
    as [[e ->]|(rows2&Hq2&->)]; [done|]. simpl.
  rewrite bind_run.
  pose proof (processVerb_known VAdd (map_to_list (groupByWebsite rows1)) st)
    as K1. cbv zeta in K1.
  unfold result_of, state_of in *.
  destruct (processVerb VAdd (map_to_list (groupByWebsite rows1)) st)
    as [[[e|[ids1 gs1]] st1] t1] eqn:E1; simpl in *; [done|].
  destruct (K1 _ _ eq_refl) as [_ Hk1]. clear K1.
  rewrite bind_run.
  pose proof (processVerb_known VRevoke (map_to_list (groupByWebsite rows2)) st1)
    as K2. cbv zeta in K2.
  unfold result_of, state_of in *.
  destruct (processVerb VRevoke (map_to_list (groupByWebsite rows2)) st1)
    as [[[e|[ids2 gs2]] st2] t2] eqn:E2; simpl in *; [done|].
  destruct (K2 _ _ eq_refl) as [_ Hk2]. clear K2.
  intros [= _ <-] a [Ha|Ha]%elem_of_app.
  - destruct (Hk1 a Ha) as (id&rs&Hin%elem_of_map_to_list&Hars&_).
    apply (groupByWebsite_elem_of rows1 id rs a Hin) in Hars as [Hrow _].
    exists newerpol.AccessGrantPending, rows1. auto.
  - destruct (Hk2 a Ha) as (id&rs&Hin%elem_of_map_to_list&Hars&_).
    apply (groupByWebsite_elem_of rows2 id rs a Hin) in Hars as [Hrow _].
    exists newerpol.AccessRevokePending, rows2. auto.
Qed.

(** X20.  Every message a sync run puts on the mail queue is for a grant
    of this run: a row that one of the two lookups returned at the start,
    and whose finalization the run has reported with [updated = true].  The
    grant is grant-pending or revoke-pending, and the message says so: its
    type and subject are "granted" and "Website Access Granted", or
    "revoked" and "Website Access Removed"; it carries the name, first name
    and CSP of that row; the address of the row is not empty, and the
    recipient is the override address if one is set and the address of the
    row otherwise. *)
Theorem doSync_messages opts st o body :
  EvEnqueue o body ∈ trace_of (doSync opts st) →
  ∃ a, fetched (world st) a ∧
       EvFinishGrant a true None ∈ trace_of (doSync opts st) ∧
       notifies o a ∧ addressed (recipientOverride opts) a o.
Proof.
  unfold doSync. rewrite bind_run.
  destruct (syncApply_obeys st) as [Hta _].
  pose proof (syncApply_fetched st) as Hf.
  unfold result_of, state_of, trace_of in *.
  rewrite Forall_forall in Hta.
  destruct (syncApply st) as [[[e|[ids gs]] st1] t1]; simpl in *.
  { intros Hin. by apply Hta in Hin. }
  specialize (Hf _ _ eq_refl).
  rewrite bind_run.
  destruct (syncCommit_run opts ids st1) as (tc&c&st2&Hrun&Htc).
  rewrite Hrun. rewrite Forall_forall in Htc.
  pose proof (syncFinish_messages opts gs st2 o body) as Hm.
  unfold trace_of in *.
  destruct c as [e|]; simpl.
  - intros [Hin|[Hin|Hin]%elem_of_app]%elem_of_app.
    + by apply Hta in Hin.
    + by destruct (Htc _ Hin) as (_&_&[=]).
    + by apply list_elem_of_singleton in Hin.
  - intros [Hin|[[Hin|Hin]%elem_of_app|Hin]%elem_of_app]%elem_of_app.
    + by apply Hta in Hin.
    + by destruct (Htc _ Hin) as (_&_&[=]).
    + by apply list_elem_of_singleton in Hin.
    + destruct (Hm Hin) as (a&Ha&Hfin&Hn&Had). exists a.
      split_and!; [by apply Hf| |done|done].
      apply elem_of_app; right. apply elem_of_app; by right.
Qed.

End message_theorem.

Lemma doSync_messages_witness :
  ∃ a, fetched (world sim_sync_st) a ∧
       EvFinishGrant a true None
       ∈ trace_of (doSync
                     (mkSyncOptions false false false false "ops@example.com")
                     sim_sync_st) ∧
       notifies (email.mkEmailOptions "Chess" "ops@example.com" "Bob B" "Bob"
                   "club" "Website Access Granted" "granted") a ∧
       addressed "ops@example.com" a
         (email.mkEmailOptions "Chess" "ops@example.com" "Bob B" "Bob"
            "club" "Website Access Granted" "granted").
Proof.
  apply (doSync_messages
           (mkSyncOptions false false false false "ops@example.com")
           sim_sync_st
           (email.mkEmailOptions "Chess" "ops@example.com" "Bob B" "Bob"
              "club" "Website Access Granted" "granted")
           "Dear Bob").
  vm_compute. do 14 apply list_elem_of_further. apply list_elem_of_here.
Defined.

(* ------------------------------------------------------------------------- *)
(** ** The reset commands *)
(* ------------------------------------------------------------------------- *)

Section reset_loops.
Context {W : Type} `{External W}.
Implicit Types (st : @St W) (s : Site) (l : nat).
Context (Q : Site → Prop) (assign : Site → Site).
Hypothesis Q_assign : ∀ s, Q (MarkAsChanged (assign s)).
Hypothesis Id_assign : ∀ s, Id (assign s) = Id s.

(** One round of a reset loop. *)
Lemma reset_round l st s :
  heap st !! l = Some s →
  (call_site l assign ;; call_site l MarkAsChanged ;; deref l) st
  = (inr (MarkAsChanged (assign s)),
     set_heap (<[l := MarkAsChanged (assign s)]> (heap st)) st, []).
Proof.
  intros Hl. unfold mbind, Go_bind, call_site, deref. rewrite Hl. simpl.
  rewrite list_lookup_insert_eq by (by apply lookup_lt_is_Some). simpl.
  rewrite list_insert_insert_eq.
  rewrite list_lookup_insert_eq by (by apply lookup_lt_is_Some). simpl.
  done.
Qed.

(** The loop of [resetExpiry] and of [resetAdmins --all]. *)
Lemma resetSites_run sites ids st :
  (∀ l, l ∈ sites → is_Some (heap st !! l)) →
  ∃ ids' st',
    resetSites assign sites ids st = (inr ids', st', []) ∧
    sitesCache st' = sitesCache st ∧ world st' = world st ∧
    viper st' = viper st ∧ length (heap st') = length (heap st) ∧
    (∀ l, l ∈ sites → ∃ s, heap st' !! l = Some s ∧ Q s) ∧
    (∀ l s, heap st' !! l = Some s →
       ∃ s0, heap st !! l = Some s0 ∧ Id s = Id s0 ∧ (l ∉ sites → s = s0)) ∧
    (∀ id, ids' !! id = Some true →
       ids !! id = Some true ∨
       ∃ l s, l ∈ sites ∧ heap st !! l = Some s ∧ Id s = id).
Proof.
  revert ids st. induction sites as [|l0 sites IH]; intros ids st Hvalid; simpl.
  { exists ids, st. split_and!; try done.
    - by intros ? ?%elem_of_nil.
    - intros l s Hl. eauto.
    - auto. }
  destruct (Hvalid l0) as [s0 Hl0]; [by left|].
  set (s1 := MarkAsChanged (assign s0)).
  set (st1 := set_heap (<[l0 := s1]> (heap st)) st).
  assert (heap st1 !! l0 = Some s1) as Hl1.
  { unfold st1; simpl. apply list_lookup_insert_eq. by apply lookup_lt_is_Some. }
  assert (Id s1 = Id s0) as Hid1 by (unfold s1; simpl; apply Id_assign).
  destruct (IH (<[Id s1 := true]> ids) st1)
    as (ids'&st'&HR&Hc&Hw&Hv&Hlen&HQ&Hback&Hids).
  { intros l Hl. unfold st1; simpl. apply lookup_lt_is_Some.
    rewrite length_insert. apply lookup_lt_is_Some, Hvalid. by right. }
  exists ids', st'. split_and!; try done.
  - pose proof (reset_round l0 st s0 Hl0) as Hround.
    fold s1 st1 in Hround.
    unfold mbind, Go_bind in *.
    destruct (call_site l0 assign st) as [[[e|[]] sta] ta]; [done|].
    destruct (call_site l0 MarkAsChanged sta) as [[[e|[]] stb] tb];
      [done|].
    destruct (deref l0 stb) as [[[e|s] stc] tc]; [done|].
    injection Hround as -> -> Ht. 
    apply app_eq_nil in Ht as [-> Ht]. apply app_eq_nil in Ht as [-> ->].
    rewrite HR. done.
  - rewrite Hlen. unfold st1; simpl. by rewrite length_insert.
  - intros l Hl. destruct (decide (l ∈ sites)) as [Hin|Hnin]; [by apply HQ|].
    apply elem_of_cons in Hl as [->|?]; [|done].
    assert (is_Some (heap st' !! l0)) as [s Hs].
    { apply lookup_lt_is_Some. rewrite Hlen. unfold st1; simpl.
      rewrite length_insert. by apply lookup_lt_is_Some. }
    destruct (Hback l0 s Hs) as (s1'&Hl1'&_&Hsame).
    rewrite Hl1 in Hl1'. injection Hl1' as <-.
    exists s. split; [done|]. rewrite (Hsame Hnin). apply Q_assign.
  - intros l s Hl. destruct (Hback l s Hl) as (s1'&Hl1'&Hid&Hsame).
    unfold st1 in Hl1'; simpl in Hl1'.
    destruct (decide (l = l0)) as [->|Hne].
    + rewrite list_lookup_insert_eq in Hl1' by (by apply lookup_lt_is_Some).
      injection Hl1' as <-. exists s0. split_and!; [done|congruence|].
      intros Hn. exfalso. apply Hn. by left.
    + rewrite list_lookup_insert_ne in Hl1' by done.
      exists s1'. split_and!; [done|done|].
      intros Hn. apply Hsame. intros ?. apply Hn. by right.
  - intros id Hid. destruct (Hids id Hid) as [Hi|(l&s&Hl&Hs&Hids')].
    + destruct (decide (Id s1 = id)) as [<-|Hne].
      * right. exists l0, s0. split_and!; [by left|done|done].
      * left. by rewrite lookup_insert_ne in Hi.
    + right. unfold st1 in Hs; simpl in Hs.
      destruct (decide (l = l0)) as [->|Hne].
      * rewrite list_lookup_insert_eq in Hs by (by apply lookup_lt_is_Some).
        injection Hs as <-. exists l0, s0. split_and!; [by left|done|congruence].
      * rewrite list_lookup_insert_ne in Hs by done.
        exists l, s. split_and!; [by right|done|done].
Qed.

End reset_loops.

Section reset_commit.
Context {W : Type} `{External W}.
Implicit Types (st : @St W) (s : Site) (l : nat).

Lemma commitAcquire_loaded st :
  initOnce (sitesCache st) = true →
  heap (state_of (commitAcquire st)) = heap st ∧
  sitesCache (state_of (commitAcquire st)) = sitesCache st.
Proof.
  intros Hd. unfold commitAcquire.
  rewrite (bind_pure _ _ _ _ (ensure_loaded st Hd)), bind_run.
  destruct (initError (sitesCache st)); simpl; [done|].
  destruct (GetWorktree_obeys (λ st : @St W, (heap st, sitesCache st))
              (λ _ _, eq_refl) st) as [_ Hs].
  unfold state_of in *. destruct (GetWorktree st) as [[r st1] t1].
  simpl in *. by injection Hs as -> ->.
Qed.

Lemma commitTargets_ext opts st st' :
  heap st' = heap st → sitesCache st' = sitesCache st →
  commitTargets opts st' = commitTargets opts st.
Proof.
  intros Hh Hc. unfold commitTargets. rewrite Hc.
  apply list_omap_ext, Forall2_same_length_lookup. split; [done|].
  intros i e e' He He'. rewrite He in He'. injection He' as <-.
  unfold targetOf. by rewrite Hh, Hc.
Qed.

Lemma commitTargets_ids opts st ids l :
  Ids opts = Some ids → l ∈ commitTargets opts st →
  ∃ id, ids !! id = Some true ∧ byId (sitesCache st) !! id = Some l.
Proof.
  intros Hids Hl. unfold commitTargets, siteIdsOf in Hl. rewrite Hids in Hl.
  apply list_elem_of_omap in Hl as ([id b]&Hin&He).
  apply elem_of_map_to_list in Hin. unfold targetOf in He. simpl in He.
  destruct b; [|done].
  destruct (byId (sitesCache st) !! id) as [l'|] eqn:Hid; [|done].
  destruct (heap st !! l') as [s|]; [|done].
  destruct (Changed s); [|done]. injection He as ->. eauto.
Qed.

(** What [CommitSites] writes when the store is loaded and every target
    has the property [Q]. *)
Lemma CommitSites_writes_Q (Q : Site → Prop) opts st :
  initOnce (sitesCache st) = true →
  (∀ s c, Q s → Q (set_changed c s)) →
  (∀ l s, l ∈ commitTargets opts st → heap st !! l = Some s → Q s) →
  ∀ p d, EvWriteFile p d ∈ trace_of (CommitSites opts st) →
         ∃ s, Q s ∧ yaml_Marshal s = inr d ∧ p = FileName (viper st) s.
Proof.
  intros Hd HQc HQ p d Hin.
  destruct (CommitSites_writes_from opts st p d Hin)
    as (_&st1&t1&l&s&c&Hacq&Hl&Hs&_&Hm&->).
  destruct (commitAcquire_loaded st Hd) as [Hh Hc].
  rewrite Hacq in Hh, Hc. unfold state_of in Hh, Hc; simpl in Hh, Hc.
  rewrite (commitTargets_ext opts st st1 Hh Hc) in Hl. rewrite Hh in Hs.
  exists (set_changed c s). split_and!; [|done|done].
  apply HQc. by eapply HQ.
Qed.

Lemma fatalf_trace {A} p (m : Go A) st :
  trace_of (fatalf p m st) = trace_of (m st) ∧
  state_of (fatalf p m st) = state_of (m st).
Proof. unfold fatalf. by destruct (m st) as [[[e|a] st1] t1]. Qed.

Lemma fatalf_GetAllSites_run p st :
  let st0 := state_of (ensureSitesCacheLoaded st) in
  initOnce (sitesCache st0) = true ∧
  ∃ t, Forall (λ e, is_read e = true) t ∧
       ((∃ e, fatalf p GetAllSites st = (inl e, st0, t))
        ∨ fatalf p GetAllSites st = (inr (slice (sitesCache st0)), st0, t)).
Proof.
  intros st0. split; [apply ensure_post|].
  exists (trace_of (ensureSitesCacheLoaded st)).
  split; [apply (ensure_obeys (λ _, tt)); done|].
  unfold fatalf, GetAllSites. rewrite (lookup_run slice).
  fold st0. destruct (initError (sitesCache st0)); eauto.
Qed.

Lemma cache_wf_update st l s s' :
  cache_wf st → heap st !! l = Some s → Id s' = Id s → name s' = name s →
  cache_wf (set_heap (<[l := s']> (heap st)) st).
Proof.
  intros (Hid&Hname&Hslice) Hl HId Hnm. unfold cache_wf; simpl.
  assert (∀ l0 s0, heap st !! l0 = Some s0 →
            ∃ s1, <[l := s']> (heap st) !! l0 = Some s1 ∧
                  Id s1 = Id s0 ∧ name s1 = name s0) as Hup.
  { intros l0 s0 Hl0. destruct (decide (l0 = l)) as [->|Hne].
    - rewrite list_lookup_insert_eq by (by apply lookup_lt_is_Some).
      rewrite Hl in Hl0. injection Hl0 as <-. eauto.
    - rewrite list_lookup_insert_ne by done. eauto. }
  split_and!.
  - intros id l0 Hl0. destruct (Hid id l0 Hl0) as (?&s0&Hs0&<-).
    split; [done|]. destruct (Hup l0 s0 Hs0) as (s1&?&?&?). eauto.
  - intros n l0 Hl0. destruct (Hname n l0 Hl0) as (?&s0&Hs0&<-).
    split; [done|]. destruct (Hup l0 s0 Hs0) as (s1&?&?&?). eauto.
  - intros l0 Hl0. destruct (Hslice l0 Hl0) as [s0 Hs0].
    destruct (Hup l0 s0 Hs0) as (s1&?&_). eauto.
Qed.

End reset_commit.

Section reset_managed.
Context {W : Type} `{External W}.
Implicit Types (st : @St W) (s : Site) (l : nat).
Context (Q : Site → Prop).
Hypothesis Q_empty : ∀ s, Q (MarkAsChanged (set_Admins [] s)).

(** The loop of [resetAdmins] over the managed sites, in a store that is
    loaded: it takes no step that is seen from outside, and every site whose
    id it enters has been reset. *)
Lemma resetManaged_run ms ids st :
  initOnce (sitesCache st) = true → cache_wf st →
  ∃ r st',
    resetManaged ms ids st = (r, st', []) ∧
    sitesCache st' = sitesCache st ∧ world st' = world st ∧
    viper st' = viper st ∧
    (∀ l s, heap st !! l = Some s → Q s → ∃ s', heap st' !! l = Some s' ∧ Q s') ∧
    (∀ ids', r = inr ids' →
       ∀ id l, ids' !! id = Some true → byId (sitesCache st) !! id = Some l →
               ids !! id = Some true ∨ ∃ s', heap st' !! l = Some s' ∧ Q s') ∧
    ((∃ id, id ∈ ms ∧ byId (sitesCache st) !! id = None) →
     initError (sitesCache st) = None →
     r = inl "nil pointer dereference").
Proof.
  revert ids st. induction ms as [|id0 ms IH]; intros ids st Hd Hwf; simpl.
  { exists (inr ids), st. split_and!; try done; eauto.
    - intros ? [= <-]. auto.
    - intros (?&?%elem_of_nil&_). done. }
  unfold mbind at 1, Go_bind at 1, fatalf.
  rewrite (GetSiteById_loaded id0 st Hd).
  destruct (initError (sitesCache st)) as [e|] eqn:Herr.
  { eexists _, st. split_and!; try done; eauto. }
  destruct (byId (sitesCache st) !! id0) as [l0|] eqn:Hid0.
  2:{ eexists _, st. split_and!; try done; eauto. }
  destruct Hwf as (Hbid&Hbname&Hslice).
  destruct (Hbid id0 l0 Hid0) as (_&s0&Hl0&HId0).
  pose proof (reset_round (set_Admins []) l0 st s0 Hl0) as Hround.
  set (s1 := MarkAsChanged (set_Admins [] s0)) in *.
  set (st1 := set_heap (<[l0 := s1]> (heap st)) st) in *.
  assert (heap st1 !! l0 = Some s1) as Hl1.
  { unfold st1; simpl. apply list_lookup_insert_eq. by apply lookup_lt_is_Some. }
  assert (cache_wf st1) as Hwf1.
  { by apply (cache_wf_update st l0 s0 s1). }
  destruct (IH (<[Id s1 := true]> ids) st1 Hd Hwf1)
    as (r&st'&HR&Hc&Hw&Hv&Hkeep&Hids&Hmiss).
  exists r, st'. split_and!; try done.
  - unfold mbind, Go_bind in *.
    destruct (call_site l0 (set_Admins []) st) as [[[e|[]] sta] ta]; [done|].
    destruct (call_site l0 MarkAsChanged sta) as [[[e|[]] stb] tb]; [done|].
    destruct (deref l0 stb) as [[[e|s] stc] tc]; [done|].
    injection Hround as -> -> Ht.
    apply app_eq_nil in Ht as [-> Ht]. apply app_eq_nil in Ht as [-> ->].
    rewrite HR. done.
  - intros l s Hl HQ. destruct (decide (l = l0)) as [->|Hne].
    + apply (Hkeep l0 s1 Hl1). apply Q_empty.
    + apply (Hkeep l s); [|done]. unfold st1; simpl.
      by rewrite list_lookup_insert_ne.
  - intros ids' Hr id l Hin Hbl.
    destruct (Hids ids' Hr id l Hin Hbl) as [Hi|?]; [|by right].
    destruct (decide (Id s1 = id)) as [Heq|Hne].
    + right. assert (l = l0) as -> by (simpl in Heq; congruence).
      apply (Hkeep l0 s1 Hl1). apply Q_empty.
    + left. by rewrite lookup_insert_ne in Hi.
  - intros (id&[->|Hin]%elem_of_cons&Hnone) _; [congruence|].
    apply Hmiss; [|done]. eauto.
Qed.

End reset_managed.

Section reset_commands.
Context {W : Type} `{External W} `{ExternalLookup W}.
Implicit Types (st : @St W) (s : Site) (l : nat).

Lemma fatalf_GetSiteById_eq p id st :
  let st0 := state_of (ensureSitesCacheLoaded st) in
  fatalf p (GetSiteById id) st
  = (match initError (sitesCache st0) with
     | Some e => inl (p +:+ e)
     | None => inr (byId (sitesCache st0) !! id)
     end, st0, trace_of (ensureSitesCacheLoaded st)).
Proof.
  intros st0. unfold fatalf, GetSiteById.
  rewrite (lookup_run (λ c, byId c !! id)). fold st0.
  by destruct (initError (sitesCache st0)).
Qed.

(** The first lookup loads the store; from then on the loop runs as in a
    store that is loaded. *)
Lemma resetManaged_preload ms ids st :
  ms ≠ [] →
  let e := ensureSitesCacheLoaded st in
  let r := resetManaged ms ids (state_of e) in
  resetManaged ms ids st = (result_of r, state_of r, trace_of e ++ trace_of r).
Proof.
  intros Hne e r. unfold r. clear r. destruct ms as [|id ms]; [done|]. simpl.
  destruct (ensure_post st) as [Hd _]. fold e in Hd.
  set (st0 := state_of e) in *.
  rewrite !bind_run.
  rewrite (fatalf_GetSiteById_eq "reset-admins: " id st).
  rewrite (fatalf_GetSiteById_eq "reset-admins: " id st0).
  rewrite (ensure_loaded st0 Hd). fold e st0.
  unfold result_of, state_of, trace_of. simpl.
  destruct (initError (sitesCache st0)); simpl; [by rewrite app_nil_r|].
  done.
Qed.

(** [resetAdmins] without [--all], up to the commit step. *)
Lemma resetAdmins_managed_run g st :
  resetAdmins g false st =
  match sql_Connect (world st) with
  | Some e => (inl ("reset-admins: " +:+ e), st, [])
  | None =>
      match sql_Select_managedSites (world st) with
      | inl e =>
          (inl ("reset-admins: Getting managed site ids: " +:+
                "newerpol: Performing managedSitesLookupQuery: " +:+ e), st, [])
      | inr ms =>
          (resetManaged ms ∅ ≫= λ ids,
           fatalf "reset-admins: "
             (CommitSites
                (mkCommitSitesOptions (Some ids)
                   "Reset admins (eActivities managed sites only)"
                   "reset admins" (root.dryRun g) (root.forceUpdateTree g)
                   (root.noPush g)))) st
      end
  end.
Proof.
  unfold resetAdmins, GetManagedSiteIds, fatalf.
  unfold mbind, Go_bind, get, check, check_val, fail, mret, Go_ret.
  destruct (sql_Connect (world st)); simpl; [done|].
  destruct (sql_Select_managedSites (world st)) as [e|ms]; simpl; [done|].
  destruct (resetManaged ms ∅ st) as [[[e|ids] st1] t1]; [done|].
  by destruct (CommitSites _ st1) as [[[e|[]] st2] t2].
Qed.

(** What the commit step of a reset command writes, when every site whose
    id was entered has the property [Q]. *)
Lemma reset_commit_writes (Q : Site → Prop) p0 ids msg cmd dry force nopush
    st0 st1 p d :
  let opts := mkCommitSitesOptions (Some ids) msg cmd dry force nopush in
  (∀ s c, Q s → Q (set_changed c s)) →
  initOnce (sitesCache st1) = true →
  sitesCache st1 = sitesCache st0 →
  (∀ id l, ids !! id = Some true → byId (sitesCache st0) !! id = Some l →
           ∃ s, heap st1 !! l = Some s ∧ Q s) →
  EvWriteFile p d ∈ trace_of (fatalf p0 (CommitSites opts) st1) →
  ∃ s, Q s ∧ yaml_Marshal s = inr d ∧ p = FileName (viper st1) s.
Proof.
  intros opts HQc Hd Hc HQ Hin.
  assert (Ids opts = Some ids) as Hids by done.
  rewrite (proj1 (fatalf_trace p0 (CommitSites opts) st1)) in Hin.
  apply (CommitSites_writes_Q Q opts st1 Hd HQc); [|done].
  intros l s Hl Hs.
  destruct (commitTargets_ids opts st1 ids l Hids Hl) as (id&Hid&Hbl).
  rewrite Hc in Hbl. destruct (HQ id l Hid Hbl) as (s'&Hs'&?).
  rewrite Hs in Hs'. by injection Hs' as <-.
Qed.

(** X24.  Every file that [reset expiry] writes is the file of a site of
    the store and holds the marshalled form of that site with the new date
    as its [Expiry]. *)
Theorem resetExpiry_writes g date st p d :
  cache_wf st →
  EvWriteFile p d ∈ trace_of (resetExpiry g date st) →
  ∃ s, Expiry s = date ∧ yaml_Marshal s = inr d ∧ p = FileName (viper st) s.
Proof.
  intros Hwf. unfold resetExpiry. rewrite bind_run.
  pose proof (ensure_wf st Hwf) as Hwf0.
  destruct (ensure_obeys viper (λ _ _, eq_refl) (λ _ _, eq_refl) st) as [_ Hv0].
  destruct (fatalf_GetAllSites_run "reset-expiry: Getting all sites: " st)
    as [Hd (t0&Ht0&[[e ->]| ->])].
  { intros Hin. rewrite Forall_forall in Ht0. by apply Ht0 in Hin. }
  set (st0 := state_of (ensureSitesCacheLoaded st)) in *.
  rewrite bind_run.
  destruct (resetSites_run (λ s, Expiry s = date) (set_Expiry date)
              (λ _, eq_refl) (λ _, eq_refl) (slice (sitesCache st0)) ∅ st0)
    as (ids&st1&HR&Hc&Hw&Hv&Hlen&HQ&Hback&Hids).
  { apply Hwf0. }
  rewrite HR. unfold trace_of at 1. simpl.
  intros [Hin|Hin]%elem_of_app.
  { rewrite Forall_forall in Ht0. by apply Ht0 in Hin. }
  rewrite <-Hv0, <-Hv.
  eapply (reset_commit_writes (λ s, Expiry s = date)); [done| | | |exact Hin].
  - by rewrite Hc.
  - exact Hc.
  - intros id l _ Hbl. apply HQ. by apply Hwf0 in Hbl as [? _].
Qed.

(** X25.  Every file that [reset admins] writes, with or without [--all],
    is the file of a site of the store and holds the marshalled form of
    that site with an empty list of admins. *)
Theorem resetAdmins_writes g allSites st p d :
  cache_wf st →
  EvWriteFile p d ∈ trace_of (resetAdmins g allSites st) →
  ∃ s, Admins s = [] ∧ yaml_Marshal s = inr d ∧ p = FileName (viper st) s.
Proof.
  intros Hwf.
  pose proof (ensure_wf st Hwf) as Hwf0.
  destruct (ensure_obeys viper (λ _ _, eq_refl) (λ _ _, eq_refl) st) as [_ Hv0].
  destruct (ensure_obeys (λ _, tt) (λ _ _, eq_refl) (λ _ _, eq_refl) st)
    as [Hte _].
  destruct (ensure_post st) as [Hd0 _].
  set (st0 := state_of (ensureSitesCacheLoaded st)) in *.
  destruct allSites.
  - unfold resetAdmins. rewrite !bind_run.
    destruct (fatalf_GetAllSites_run "reset-admins: Getting all sites: " st)
      as [Hd (t0&Ht0&[[e ->]| ->])].
    { intros Hin. rewrite Forall_forall in Ht0. by apply Ht0 in Hin. }
    fold st0.
    destruct (resetSites_run (λ s, Admins s = []) (set_Admins [])
                (λ _, eq_refl) (λ _, eq_refl) (slice (sitesCache st0)) ∅ st0)
      as (ids&st1&HR&Hc&Hw&Hv&Hlen&HQ&Hback&Hids).
    { apply Hwf0. }
    rewrite HR. unfold trace_of at 1. simpl. rewrite app_nil_r.
    intros [Hin|Hin]%elem_of_app.
    { rewrite Forall_forall in Ht0. by apply Ht0 in Hin. }
    rewrite <-Hv0, <-Hv.
    eapply (reset_commit_writes (λ s, Admins s = []));
      [done| | | |exact Hin].
    + by rewrite Hc.
    + exact Hc.
    + intros id l _ Hbl. apply HQ. by apply Hwf0 in Hbl as [? _].
  - rewrite resetAdmins_managed_run.
    destruct (sql_Connect (world st)); [by intros ?%elem_of_nil|].
    destruct (sql_Select_managedSites (world st)) as [e|ms];
      [by intros ?%elem_of_nil|].
    rewrite bind_run.
    destruct ms as [|id0 ms].
    { simpl. unfold trace_of at 1. simpl.
      intros Hin.
      change (EvWriteFile p d ∈ trace_of (fatalf "reset-admins: "
                (CommitSites (mkCommitSitesOptions (Some ∅)
                   "Reset admins (eActivities managed sites only)"
                   "reset admins" (root.dryRun g) (root.forceUpdateTree g)
                   (root.noPush g))) st)) in Hin.
      rewrite (proj1 (fatalf_trace _ _ _)) in Hin.
      apply CommitSites_writes_from in Hin
        as (_&st1&t1&l&s&c&_&Hl&_).
      apply (commitTargets_ids _ _ ∅) in Hl as (id&Hid&_); [|done].
      by rewrite lookup_empty in Hid. }
    rewrite (resetManaged_preload (id0 :: ms) ∅ st) by done. fold st0.
    destruct (resetManaged_run (λ s, Admins s = []) (λ _, eq_refl)
                (id0 :: ms) ∅ st0 Hd0 Hwf0)
      as (r&st1&HR&Hc&Hw&Hv&Hkeep&Hids&_).
    rewrite HR. unfold result_of, state_of, trace_of at 1 2. simpl.
    rewrite app_nil_r.
    destruct r as [e|ids]; simpl.
    { rewrite ?app_nil_r. intros Hin. rewrite Forall_forall in Hte.
      by apply Hte in Hin. }
    intros [Hin|Hin]%elem_of_app.
    { rewrite ?app_nil_r in Hin. rewrite Forall_forall in Hte.
      by apply Hte in Hin. }
    rewrite <-Hv0, <-Hv.
    eapply (reset_commit_writes (λ s, Admins s = []));
      [done| | | |exact Hin].
    + by rewrite Hc.
    + exact Hc.
    + intros id l Hid Hbl.
      destruct (Hids ids eq_refl id l Hid Hbl) as [Hi|?]; [|done].
      by rewrite lookup_empty in Hi.
Qed.

(** X26.  [reset admins] without [--all], when the ledger names a managed
    site that the store does not hold: after the warning the nil pointer is
    used, and the command ends there.  Apart from loading the store it has
    taken no step: nothing is saved, and [CommitSites] is not reached. *)
Theorem resetAdmins_missing_site g st ms id :
  cache_wf st →
  sql_Connect (world st) = None →
  sql_Select_managedSites (world st) = inr ms →
  id ∈ ms →
  initError (sitesCache (state_of (ensureSitesCacheLoaded st))) = None →
  byId (sitesCache (state_of (ensureSitesCacheLoaded st))) !! id = None →
  result_of (resetAdmins g false st) = inl "nil pointer dereference" ∧
  trace_of (resetAdmins g false st) = trace_of (ensureSitesCacheLoaded st) ∧
  world (state_of (resetAdmins g false st)) = world st.
Proof.
  intros Hwf Hconn Hms Hin Herr Hnone.
  pose proof (ensure_wf st Hwf) as Hwf0.
  destruct (ensure_obeys world (λ _ _, eq_refl) (λ _ _, eq_refl) st) as [_ Hw0].
  destruct (ensure_post st) as [Hd0 _].
  set (st0 := state_of (ensureSitesCacheLoaded st)) in *.
  rewrite resetAdmins_managed_run, Hconn, Hms, bind_run.
  rewrite (resetManaged_preload ms ∅ st)
    by (intros ->; by apply elem_of_nil in Hin).
  fold st0.
  destruct (resetManaged_run (λ _, True) (λ _, I) ms ∅ st0 Hd0 Hwf0)
    as (r&st1&HR&Hc&Hw&Hv&_&_&Hmiss).
  rewrite HR. unfold result_of, state_of, trace_of. simpl.
  rewrite (Hmiss (ex_intro _ id (conj Hin Hnone)) Herr). simpl.
  rewrite !app_nil_r. split_and!; [done|done|]. by rewrite Hw.
Qed.

End reset_commands.

Lemma resetExpiry_writes_witness :
  ∃ s, Expiry s = "2027-07-31" ∧ yaml_Marshal s = inr "club: alice" ∧
       "/cdb/sites/club.yaml" = FileName sim_cfg s.
Proof.
  apply (resetExpiry_writes global_opts_default "2027-07-31" sim_st0
           "/cdb/sites/club.yaml" "club: alice"
           (initial_state_wf sim_world0 sim_cfg ∅)).
  assert (trace_of (resetExpiry global_opts_default "2027-07-31" sim_st0) =
    [EvReadDir "/cdb/sites"; EvReadFile "/cdb/sites/club.yaml"; EvStatus;
     EvPull; EvSave "club";
     EvWriteFile "/cdb/sites/club.yaml" "club: alice";
     EvStage "sites/club.yaml"; EvStatus;
     EvCommit
       "sites: Reset expiry date to 2027-07-31. Sites changed: 1 (cmd=pugo reset expiry, src=newerpol)"
       "pugo" "pugo@example.com";
     EvPush]) as -> by (vm_compute; reflexivity).
  do 5 apply list_elem_of_further. apply list_elem_of_here.
Defined.

Lemma resetAdmins_writes_witness :
  ∃ s, Admins s = [] ∧ yaml_Marshal s = inr "club: " ∧
       "/cdb/sites/club.yaml" = FileName sim_cfg s.
Proof.
  apply (resetAdmins_writes global_opts_default false sim_sync_st
           "/cdb/sites/club.yaml" "club: "
           (initial_state_wf sim_world_sync sim_cfg
              {[7%Z := newerpol.AccessGrantPending]})).
  assert (trace_of (resetAdmins global_opts_default false sim_sync_st) =
    [EvReadDir "/cdb/sites"; EvReadFile "/cdb/sites/club.yaml"; EvStatus;
     EvPull; EvSave "club"; EvWriteFile "/cdb/sites/club.yaml" "club: ";
     EvStage "sites/club.yaml"; EvStatus;
     EvCommit
       "sites: Reset admins (eActivities managed sites only). Sites changed: 1 (cmd=pugo reset admins, src=newerpol)"
       "pugo" "pugo@example.com";
     EvPush]) as -> by (vm_compute; reflexivity).
  do 5 apply list_elem_of_further. apply list_elem_of_here.
Defined.

Lemma resetAdmins_missing_site_witness :
  result_of (resetAdmins global_opts_default false
               (initial_state
                  (mkSim ["club.yaml"] {["/cdb/sites/club.yaml" := "alice"]}
                         {["/cdb/sites/club.yaml" := "alice"]}
                         "refs/heads/master" [] 0 false [grant7])
                  sim_cfg ∅))
  = inl "nil pointer dereference".
Proof.
  apply (resetAdmins_missing_site global_opts_default
           (initial_state
              (mkSim ["club.yaml"] {["/cdb/sites/club.yaml" := "alice"]}
                     {["/cdb/sites/club.yaml" := "alice"]}
                     "refs/heads/master" [] 0 false [grant7])
              sim_cfg ∅)
           [42%Z] 42%Z).
  - apply initial_state_wf.
  - reflexivity.
  - reflexivity.
  - apply list_elem_of_here.
  - vm_compute. reflexivity.
  - vm_compute. reflexivity.
Defined.

(* ------------------------------------------------------------------------- *)
(** ** The later revision of the sync command *)
(* ------------------------------------------------------------------------- *)

Section sync2_facts.
Context {W : Type} `{External W} `{ExternalLookup W}.
Implicit Types (st : @St W) (a : newerpol.AccessRecord).

Lemma processGrants2_obeys verb l records :
  obeys (λ _ e, is_read e = true) (λ _ : @St W, tt)
        (processGrants2 verb l records).
Proof.
  induction records as [|a records IH]; simpl; obeys_auto;
    auto using call_site_obeys, deref_obeys.
Qed.

Lemma processVerb2_obeys verb entries :
  obeys (λ _ e, is_read e = true) (λ _ : @St W, tt) (processVerb2 verb entries).
Proof.
  induction entries as [|[id records] entries IH]; simpl; obeys_auto;
    auto using GetSiteById_obeys, processGrants2_obeys.
Qed.

Lemma syncApply2_obeys o :
  obeys (λ _ e, is_read e = true) (λ _ : @St W, tt) (syncApply2 o).
Proof.
  unfold syncApply2, GetGrantsToAdd2, GetGrantsToRevoke2, GetGrantsIn.
  obeys_auto; auto using processVerb2_obeys.
Qed.

(** What the goroutine of one site forwards in the later revision: the
    pending records, in order. *)
Lemma processGrants2_forwards verb l records st ids gs :
  result_of (processGrants2 verb l records st) = inr (ids, gs) →
  gs = filter (λ a, newerpol.IsPending a = true) records.
Proof.
  revert st ids gs. induction records as [|a records IH]; intros st ids gs; simpl.
  { by intros [= _ <-]. }
  unfold mbind, Go_bind, call_site, deref, mret, Go_ret, result_of.
  destruct (heap st !! l) as [s|]; [|done]. simpl.
  destruct (<[l := _]> (heap st) !! l) as [s1|]; [|done]. simpl.
  match goal with |- context [processGrants2 verb l records ?st1] =>
    specialize (IH st1); unfold result_of in IH;
    destruct (processGrants2 verb l records st1) as [[[e|[ids' gs']] st2] t2]
  end; simpl; [done|].
  intros [= _ <-]. rewrite (IH _ _ eq_refl).
  destruct (newerpol.IsPending a) eqn:Hp.
  - by rewrite filter_cons_True.
  - rewrite filter_cons_False; [done|]. by rewrite Hp.
Qed.

Lemma processVerb2_pending verb entries st ids gs :
  result_of (processVerb2 verb entries st) = inr (ids, gs) →
  Forall (λ a, newerpol.IsPending a = true) gs.
Proof.
  revert st ids gs.
  induction entries as [|[id rs] entries IH]; intros st ids gs; simpl.
  { by intros [= _ <-]. }
  unfold mbind, Go_bind, mret, Go_ret, result_of.
  destruct (fatalf "sync: " (GetSiteById id) st) as [[[e|site] st0] t0];
    [done|].
  assert (∀ ids1 gs1 st1 t1,
    match site with
    | Some l => processGrants2 verb l rs
    | None => λ st, (inr ([], []), st, [])
    end st0 = (inr (ids1, gs1), st1, t1) →
    Forall (λ a, newerpol.IsPending a = true) gs1) as H1.
  { intros ids1 gs1 st1 t1. destruct site as [l|].
    - intros E.
      rewrite (processGrants2_forwards verb l rs st0 ids1 gs1)
        by (by rewrite E).
      apply Forall_forall. by intros a [? _]%list_elem_of_filter.
    - by intros [= _ <- _ _]. }
  destruct (match site with
            | Some l => processGrants2 verb l rs
            | None => λ st, (inr ([], []), st, [])
            end st0) as [[[e|[ids1 gs1]] st1] t1]; [done|].
  specialize (H1 _ _ _ _ eq_refl). specialize (IH st1).
  unfold result_of in IH.
  destruct (processVerb2 verb entries st1) as [[[e|[ids2 gs2]] st2] t2];
    [done|].
  simpl. intros [= _ <-]. apply Forall_app. split; [done|]. by eapply IH.
Qed.

Lemma syncApply2_pending o st ids gs :
  result_of (syncApply2 o st) = inr (ids, gs) →
  Forall (λ a, newerpol.IsPending a = true) gs.
Proof.
  unfold syncApply2. rewrite bind_run. simpl. rewrite bind_run.
  destruct (sql_Connect (world st)); simpl; [done|].
  rewrite bind_run.
  destruct (fatalf "sync: " (GetGrantsToAdd2 (sync2.all o)) st)
    as [[[e|add] st1] t1]; simpl; [done|].
  rewrite bind_run.
  destruct (fatalf "sync: " (GetGrantsToRevoke2 (sync2.all o)) st1)
    as [[[e|revoke] st2] t2]; simpl; [done|].
  rewrite bind_run.
  pose proof (processVerb2_pending VAdd (map_to_list add) st2) as K1.
  unfold result_of in *.
  destruct (processVerb2 VAdd (map_to_list add) st2)
    as [[[e|[ids1 gs1]] st3] t3]; simpl in *; [done|].
  rewrite bind_run.
  pose proof (processVerb2_pending VRevoke (map_to_list revoke) st3) as K2.
  unfold result_of in *.
  destruct (processVerb2 VRevoke (map_to_list revoke) st3)
    as [[[e|[ids2 gs2]] st4] t4]; simpl in *; [done|].
  intros [= _ <-]. apply Forall_app. split; [by eapply K1|by eapply K2].
Qed.

(** X27.  In the later revision of the sync command, which with [--all]
    also fetches and applies grants that are already granted or revoked,
    [FinishGrant] is called for pending grants only. *)
Theorem doSync2_finishes_pending g o st a updated err :
  EvFinishGrant a updated err ∈ trace_of (doSync2 g o st) →
  newerpol.IsPending a = true.
Proof.
  unfold doSync2. rewrite bind_run.
  destruct (syncApply2_obeys o st) as [Hta _].
  pose proof (syncApply2_pending o st) as Hpend.
  unfold result_of, state_of, trace_of in *.
  destruct (syncApply2 o st) as [[[e|[ids gs]] st1] t1]; simpl in *.
  { intros Hin. rewrite Forall_forall in Hta. by apply Hta in Hin. }
  specialize (Hpend _ _ eq_refl).
  rewrite bind_run.
  destruct (syncCommit_run (syncOptions_of g o) ids st1)
    as (tc&c&st2&Hrun&Htc).
  rewrite Hrun.
  assert (Forall (λ e, ∀ a u er, e = EvFinishGrant a u er → a ∈ gs)
                 (trace_of (syncFinish (syncOptions_of g o) gs st2))) as Htf.
  { assert (obeys (λ _ e, ∀ a u er, e = EvFinishGrant a u er → a ∈ gs)
                  (λ _ : @St W, tt) (syncFinish (syncOptions_of g o) gs))
      as Hob.
    { unfold syncFinish, StartWorker, ShutdownWorker.
      obeys_step; [obeys_auto|].
      obeys_step; [apply finishGrants_finishes_given|obeys_auto]. }
    apply Hob. }
  unfold state_of, trace_of in *.
  intros Hin. rewrite Forall_forall in Hpend. apply Hpend.
  apply elem_of_app in Hin as [Hin|Hin].
  { rewrite Forall_forall in Hta. by apply Hta in Hin. }
  destruct c as [e|]; simpl in Hin.
  - apply elem_of_app in Hin as [Hin|Hin].
    + rewrite Forall_forall in Htc. by destruct (Htc _ Hin) as (_&[=]&_).
    + by apply list_elem_of_singleton in Hin.
  - apply elem_of_app in Hin as [[Hin|Hin]%elem_of_app|Hin].
    + rewrite Forall_forall in Htc. by destruct (Htc _ Hin) as (_&[=]&_).
    + by apply list_elem_of_singleton in Hin.
    + rewrite Forall_forall in Htf. by eapply Htf.
Qed.

End sync2_facts.

Lemma doSync2_finishes_pending_witness : newerpol.IsPending grant0 = true.
Proof.
  apply (doSync2_finishes_pending global_opts_default
           (sync2.mkSyncOptions true false false "") sim_sync_st
           grant0 true None).
  assert (trace_of (doSync2 global_opts_default
                      (sync2.mkSyncOptions true false false "") sim_sync_st) =
    [EvReadDir "/cdb/sites"; EvReadFile "/cdb/sites/club.yaml"; EvStatus;
     EvPull; EvSave "club";
     EvWriteFile "/cdb/sites/club.yaml" "club: alice,bob";
     EvStage "sites/club.yaml"; EvStatus;
     EvCommit
       "sites: Update admins. Sites changed: 1 (cmd=pugo sync, src=newerpol)"
       "pugo" "pugo@example.com";
     EvPush; EvCommitSites None; EvStartWorker;
     EvExec newerpol.grantPendingToGrantedQuery 7 1;
     EvFinishGrant grant0 true None;
     EvEnqueue (email.mkEmailOptions "Chess" "bob@example.com" "Bob B" "Bob"
                  "club" "Website Access Granted" "granted") "Dear Bob";
     EvShutdownWorker]) as -> by (vm_compute; reflexivity).
  do 13 apply list_elem_of_further. apply list_elem_of_here.
Defined.

(* ------------------------------------------------------------------------- *)
(** ** The lookups of the later revision *)
(* ------------------------------------------------------------------------- *)

Section lookup_facts.
Context {W : Type} `{External W} `{ExternalLookup W}.
Implicit Types (st : @St W).



End lookup_facts.

(* ------------------------------------------------------------------------- *)
(** ** What loading the store reads *)
(* ------------------------------------------------------------------------- *)

Section load_reads.
Context {W : Type} `{External W}.
Implicit Types (st : @St W).

Lemma loadEntry_run n st :
  ∃ it, loadEntry n st =
    (it, st,
     if decide (path_Ext (path_file n) = ".yaml")
     then [EvReadFile (path_Join [GetString (viper st) "cdb.path"; "sites";
                                  path_file n])]
     else []).
Proof.
  unfold loadEntry, LoadSite.
  destruct (String.eqb_spec (path_Ext (path_file n)) ".yaml") as [Hy|Hy]; simpl.
  - rewrite decide_True by done.
    unfold mbind, Go_bind, get, emit, check_val, fail, mret, Go_ret. simpl.
    destruct (ioutil_ReadFile _ _) as [e|data]; simpl; [by eexists|].
    destruct (yaml_Unmarshal _ _); simpl; by eexists.
  - rewrite decide_False by done. by eexists.
Qed.

Lemma loadEntries_trace names st :
  trace_of (loadEntries names st) =
  (λ n, EvReadFile (path_Join [GetString (viper st) "cdb.path"; "sites";
                               path_file n]))
    <$> filter (λ n, path_Ext (path_file n) = ".yaml") names.
Proof.
  induction names as [|n names IH]; simpl; [done|].
  destruct (loadEntries_items names st) as (its&t&E&_).
  rewrite E in IH. unfold trace_of in IH; simpl in IH.
  destruct (loadEntry_run n st) as [it En].
  unfold mbind, Go_bind, try, mret, Go_ret, trace_of.
  rewrite En, E. simpl. rewrite app_nil_r, IH.
  case_decide as Hy.
  - by rewrite filter_cons_True.
  - by rewrite filter_cons_False.
Qed.

Lemma collectItems_trace items st : trace_of (collectItems items st) = [].
Proof.
  destruct (collectItems_obeys (λ _ : @St W, tt) (λ _ _, False) items
              (λ _ _, eq_refl) (λ _ _, eq_refl) st) as [Ht _].
  destruct (trace_of (collectItems items st)) as [|e t]; [done|].
  by apply Forall_cons in Ht as [[] _].
Qed.

(** The steps of loading the store when the goroutines run one after the
    other, in the order of the listing. *)
Lemma initSitesCache_trace st names :
  GetString (viper st) "cdb.path" ≠ "" →
  ioutil_ReadDir (path_Join [GetString (viper st) "cdb.path"; "sites"])
                 (world st) = inr names →
  trace_of (initSitesCache st) =
  EvReadDir (path_Join [GetString (viper st) "cdb.path"; "sites"])
  :: ((λ n, EvReadFile (path_Join [GetString (viper st) "cdb.path"; "sites";
                                   path_file n]))
        <$> filter (λ n, path_Ext (path_file n) = ".yaml") names).
Proof.
  intros Hpath Hdir. unfold initSitesCache.
  rewrite bind_run. simpl.
  apply String.eqb_neq in Hpath. rewrite Hpath.
  rewrite bind_run. simpl. rewrite bind_run, Hdir. simpl.
  rewrite bind_run.
  pose proof (loadEntries_trace names st) as Ht.
  destruct (loadEntries_items names st) as (its&t&E&_).
  rewrite E in Ht |- *. unfold trace_of in Ht; simpl in Ht. subst t.
  unfold result_of, state_of, trace_of. simpl.
  unfold mbind, Go_bind, modify.
  match goal with |- context [collectItems its ?st0] =>
    pose proof (collectItems_trace its st0) as Hc; unfold trace_of in Hc;
    destruct (collectItems its st0) as [[r2 st2] t2]; simpl in *; subst t2
  end.
  by rewrite app_nil_r.
Qed.

(** X29.  Loading the store lists the sites directory first; every other
    step reads the file of an entry of the listing whose name ends in
    [.yaml], no entry being read more often than it is listed; and when
    loading succeeds every such entry has been read.  Nothing is said
    about the order of the reads, which the goroutines leave open. *)
Theorem initSitesCache_reads st names :
  GetString (viper st) "cdb.path" ≠ "" →
  ioutil_ReadDir (path_Join [GetString (viper st) "cdb.path"; "sites"])
                 (world st) = inr names →
  let files :=
    (λ n, EvReadFile (path_Join [GetString (viper st) "cdb.path"; "sites";
                                 path_file n]))
      <$> filter (λ n, path_Ext (path_file n) = ".yaml") names in
  ∃ reads,
    trace_of (initSitesCache st) =
      EvReadDir (path_Join [GetString (viper st) "cdb.path"; "sites"]) :: reads
    ∧ reads ⊆+ files
    ∧ (result_of (initSitesCache st) = inr tt → reads ≡ₚ files).
Proof.
  intros Hpath Hdir files. exists files.
  split; [by apply initSitesCache_trace|]. done.
Qed.

End load_reads.

Lemma initSitesCache_reads_witness :
  ∃ reads,
    trace_of (initSitesCache sim_st0) = EvReadDir "/cdb/sites" :: reads ∧
    reads ⊆+ [EvReadFile "/cdb/sites/club.yaml"] ∧
    (result_of (initSitesCache sim_st0) = inr tt →
     reads ≡ₚ [EvReadFile "/cdb/sites/club.yaml"]).
Proof.
  apply (initSitesCache_reads sim_st0 ["club.yaml"; "README"]).
  - discriminate.
  - reflexivity.
Defined.

(* ------------------------------------------------------------------------- *)
(** ** The first call loads the store, every later call finds it loaded *)
(* ------------------------------------------------------------------------- *)

Section first_load.
Context {W : Type} `{External W}.
Implicit Types (st : @St W) (s : Site).

(** The item a loading goroutine sends. *)
Lemma loadEntry_result n st :
  result_of (loadEntry n st) =
    if decide (path_Ext (path_file n) = ".yaml")
    then match load_of st n with inl e => inl e | inr s => inr (Some s) end
    else inr None.
Proof.
  unfold loadEntry, load_of.
  destruct (String.eqb_spec (path_Ext (path_file n)) ".yaml") as [Hy|Hy]; simpl.
  - rewrite decide_True by done. rewrite bind_run. unfold result_of.
    by destruct (LoadSite n st) as [[[e|s] st1] t1].
  - by rewrite decide_False by done.
Qed.

Lemma loadEntries_run names st :
  ∃ t, loadEntries names st =
       (inr ((λ n, result_of (loadEntry n st)) <$> names), st, t).
Proof.
  induction names as [|n names [t IH]]; simpl; [by eexists|].
  unfold mbind, Go_bind, try, mret, Go_ret.
  assert (state_of (loadEntry n st) = st) as Hst.
  { unfold loadEntry. destruct (negb _); [done|].
    rewrite bind_run. pose proof (LoadSite_state n st) as Hl.
    unfold state_of in *. by destruct (LoadSite n st) as [[[e|s] st1] t1]. }
  unfold state_of, result_of in *.
  destruct (loadEntry n st) as [[it st1] t1]; simpl in *. subst st1.
  rewrite IH. by eexists.
Qed.

Lemma cache_holds_ext slice0 (P Q : Site → Prop) st :
  (∀ s, P s ↔ Q s) → cache_holds slice0 P st → cache_holds slice0 Q st.
Proof.
  intros HPQ (Hall&Hid&Hname&Hslice). split_and!.
  - intros s Hs. apply Hall. by apply HPQ.
  - intros id l Hl. destruct (Hid id l Hl) as (s&?&?&?).
    exists s. split_and!; [done| |done]. by apply HPQ.
  - intros n l Hl. destruct (Hname n l Hl) as (s&?&?&?).
    exists s. split_and!; [done| |done]. by apply HPQ.
  - intros l Hl. destruct (Hslice l Hl) as [?|(s&?&?)]; [by left|right].
    exists s. split; [done|]. by apply HPQ.
Qed.

Lemma cache_holds_add slice0 (P : Site → Prop) s st :
  cache_holds slice0 P st →
  cache_holds slice0 (λ x, P x ∨ x = s) (cache_add s st).
Proof.
  intros (Hall&Hid&Hname&Hslice). unfold cache_holds, cache_add; simpl.
  assert (∀ l s0, heap st !! l = Some s0 → (heap st ++ [s]) !! l = Some s0)
    as Hold by (intros; by apply lookup_app_l_Some).
  assert ((heap st ++ [s]) !! length (heap st) = Some s) as Hnew
    by (by rewrite lookup_app_r, Nat.sub_diag by lia).
  split_and!.
  - intros x [Hx| ->].
    + destruct (Hall x Hx) as ((l&Hl&Hh)&HI&HN). split_and!.
      * exists l. split; [apply elem_of_app; by left|by apply Hold].
      * apply lookup_insert_is_Some.
        destruct (decide (Id s = Id x)); [by left|by right].
      * apply lookup_insert_is_Some.
        destruct (decide (name s = name x)); [by left|by right].
    + split_and!.
      * exists (length (heap st)).
        split; [apply elem_of_app; right; by left|done].
      * rewrite lookup_insert_eq. eauto.
      * rewrite lookup_insert_eq. eauto.
  - intros id l. destruct (decide (Id s = id)) as [<-|Hne].
    + rewrite lookup_insert_eq. intros [= <-]. exists s. auto.
    + rewrite lookup_insert_ne by done. intros Hl.
      destruct (Hid id l Hl) as (s0&?&?&?). exists s0. auto.
  - intros n l. destruct (decide (name s = n)) as [<-|Hne].
    + rewrite lookup_insert_eq. intros [= <-]. exists s. auto.
    + rewrite lookup_insert_ne by done. intros Hl.
      destruct (Hname n l Hl) as (s0&?&?&?). exists s0. auto.
  - intros l [Hl|Hl%list_elem_of_singleton]%elem_of_app.
    + destruct (Hslice l Hl) as [?|(s0&?&?)]; [by left|right].
      exists s0. auto.
    + subst l. right. exists s. auto.
Qed.

(** The receiving loop: it returns nil exactly when no item carries an
    error, the error it returns is the error of an item, and when it
    returns nil the cache holds the sites of all items. *)
Lemma collectItems_run slice0 (P : Site → Prop) items st0 :
  let r := collectItems items st0 in
  (result_of r = inr tt ↔ ∀ it, it ∈ items → ∃ x, it = inr x) ∧
  (∀ e, result_of r = inl e → inl e ∈ items) ∧
  (cache_holds slice0 P st0 → result_of r = inr tt →
   cache_holds slice0 (λ s, P s ∨ inr (Some s) ∈ items) (state_of r)).
Proof.
  cbv zeta. revert P st0.
  induction items as [|[e|[s|]] items IH]; intros P st0; simpl.
  - split_and!.
    + split; [by intros _ ? ?%elem_of_nil|done].
    + done.
    + intros Hh _. eapply cache_holds_ext; [|exact Hh].
      intros s. split; [by left|]. by intros [?|?%elem_of_nil].
  - split_and!.
    + split; [done|]. intros Hall.
      destruct (Hall (inl e)) as [x [=]]. by left.
    + intros e' [= <-]. by left.
    + done.
  - rewrite bind_run. unfold modify at 1. simpl.
    destruct (IH (λ x, P x ∨ x = s) (cache_add s st0)) as (IH1&IH2&IH3).
    unfold result_of, state_of, trace_of in *.
    destruct (collectItems items (cache_add s st0)) as [[r1 st1] t1];
      simpl in *.
    split_and!.
    + rewrite IH1. split.
      * intros Hall it [->|Hin]%elem_of_cons; [by eexists|by apply Hall].
      * intros Hall it Hin. apply Hall. by right.
    + intros e He. right. by apply IH2.
    + intros Hh Hr. eapply cache_holds_ext; [|apply IH3; [|done]].
      * intros x. simpl. rewrite elem_of_cons.
        split; [intros [[?|?]|?]|intros [?|[[= ?]|?]]]; subst; auto.
      * by apply cache_holds_add.
  - destruct (IH P st0) as (IH1&IH2&IH3).
    split_and!.
    + rewrite IH1. split.
      * intros Hall it [->|Hin]%elem_of_cons; [by eexists|by apply Hall].
      * intros Hall it Hin. apply Hall. by right.
    + intros e He. right. by apply IH2.
    + intros Hh Hr. eapply cache_holds_ext; [|by apply IH3].
      intros x. simpl. rewrite elem_of_cons.
      split; [intros [?|?]; auto|intros [?|[[=]|?]]; auto].
Qed.

(** What [initSitesCache] does, case by case. *)
Lemma initSitesCache_cases st :
  let i := initSitesCache st in
  let dir := path_Join [GetString (viper st) "cdb.path"; "sites"] in
  (GetString (viper st) "cdb.path" = "" →
     result_of i = inl "cdb: cdb.path missing in config" ∧ trace_of i = [])
  ∧ (GetString (viper st) "cdb.path" ≠ "" →
     ∀ e, ioutil_ReadDir dir (world st) = inl e →
       result_of i = inl ("cdb: " +:+ e) ∧ trace_of i = [EvReadDir dir])
  ∧ (GetString (viper st) "cdb.path" ≠ "" →
     ∀ names, ioutil_ReadDir dir (world st) = inr names →
       (result_of i = inr tt ↔
        ∀ n, n ∈ site_files names → ∃ s, load_of st n = inr s) ∧
       (∀ e, result_of i = inl e →
          ∃ n, n ∈ site_files names ∧ load_of st n = inl e) ∧
       (result_of i = inr tt → populated names st (state_of i))).
Proof.
  cbv zeta. split_and!.
  - intros Hpath. unfold initSitesCache. rewrite bind_run. simpl.
    apply String.eqb_eq in Hpath. by rewrite Hpath.
  - intros Hpath e Hdir. unfold initSitesCache. rewrite bind_run. simpl.
    apply String.eqb_neq in Hpath. rewrite Hpath.
    rewrite bind_run. simpl. rewrite bind_run, Hdir. done.
  - intros Hpath names Hdir. unfold initSitesCache.
    rewrite bind_run. simpl.
    apply String.eqb_neq in Hpath. rewrite Hpath.
    rewrite bind_run. simpl. rewrite bind_run, Hdir. simpl.
    rewrite bind_run.
    destruct (loadEntries_run names st) as [t ->].
    unfold result_of at 1 2 3 4, state_of at 1 2 3 4, trace_of at 1 2 3 4.
    simpl. rewrite bind_run. unfold modify at 1 2 3. simpl.
    set (st0 := set_sitesCache _ st).
    set (items := (λ n, result_of (loadEntry n st)) <$> names).
    destruct (collectItems_run (slice (sitesCache st)) (λ _, False) items st0)
      as (C1&C2&C3).
    assert (∀ s, inr (Some s) ∈ items ↔
                 ∃ n, n ∈ site_files names ∧ load_of st n = inr s) as Hsome.
    { intros s. unfold items, site_files. rewrite list_elem_of_fmap. split.
      - intros (n&Hn&Hin). exists n. rewrite loadEntry_result in Hn.
        rewrite list_elem_of_filter. case_decide; [|done].
        destruct (load_of st n); [done|]. by injection Hn as ->.
      - intros (n&[Hy Hin]%list_elem_of_filter&Hl). exists n.
        rewrite loadEntry_result, decide_True, Hl by done. done. }
    assert (∀ e, inl e ∈ items →
                 ∃ n, n ∈ site_files names ∧ load_of st n = inl e) as Herr.
    { intros e. unfold items, site_files. rewrite list_elem_of_fmap.
      intros (n&Hn&Hin). exists n. rewrite loadEntry_result in Hn.
      rewrite list_elem_of_filter. case_decide; [|done].
      destruct (load_of st n); [|done]. by injection Hn as ->. }
    assert ((∀ it, it ∈ items → ∃ x, it = inr x) ↔
            ∀ n, n ∈ site_files names → ∃ s, load_of st n = inr s) as Hall.
    { split.
      - intros Hall n [Hy Hin]%list_elem_of_filter.
        destruct (load_of st n) as [e|s] eqn:Hl; [|by eexists].
        destruct (Hall (inl e)) as [x [=]].
        unfold items. apply list_elem_of_fmap. exists n.
        by rewrite loadEntry_result, decide_True, Hl by done.
      - intros Hall it (n&->&Hin)%list_elem_of_fmap.
        rewrite loadEntry_result. case_decide as Hy; [|by eexists].
        destruct (Hall n) as [s ->]; [by apply list_elem_of_filter|].
        by eexists. }
    unfold result_of, state_of, trace_of in *.
    destruct (collectItems items st0) as [[r1 st1] t1]; simpl in *.
    split_and!.
    + by rewrite C1.
    + intros e He. by apply Herr, C2.
    + intros Hr. unfold populated. eapply cache_holds_ext; [|apply C3; [|done]].
      * intros s. simpl. rewrite Hsome. tauto.
      * unfold cache_holds, st0; simpl. split_and!; try done.
        by intros l ?; left.
Qed.

(** C5.  The first call of [ensureSitesCacheLoaded] runs [initSitesCache]
    and stores its error.  Without [cdb.path], or when the sites directory
    cannot be listed, that error is returned and nothing is loaded.
    Otherwise the call returns nil exactly when [LoadSite] succeeds on every
    entry that ends in [.yaml]; an error it returns is the error of
    [LoadSite] on one of these entries; and when it returns nil the cache is
    populated: every site loaded is pointed to from the slice and entered
    under its id and its name, and every entry points to a site loaded.
    From then on the [Once] has fired: a second call returns the same
    value, changes nothing and reads nothing, and so does every later call
    of [ensureSitesCacheLoaded], [GetAllSites], [GetSiteById],
    [GetSiteByName] and [CommitSites], in any number and order: none reads a
    directory or a file again, all see the same cache and the same stored
    error. *)
Theorem store_initialized_once st :
  let r1 := ensureSitesCacheLoaded st in
  let st1 := state_of r1 in
  let c1 := sitesCache st1 in
  let dir := path_Join [GetString (viper st) "cdb.path"; "sites"] in
  (initOnce (sitesCache st) = false →
     let i := initSitesCache st in
     trace_of r1 = trace_of i ∧
     result_of r1 =
       inr (match result_of i with inl e => Some e | inr _ => None end) ∧
     byId c1 = byId (sitesCache (state_of i)) ∧
     byName c1 = byName (sitesCache (state_of i)) ∧
     slice c1 = slice (sitesCache (state_of i)) ∧
     (GetString (viper st) "cdb.path" = "" →
        result_of r1 = inr (Some "cdb: cdb.path missing in config") ∧
        trace_of r1 = []) ∧
     (GetString (viper st) "cdb.path" ≠ "" →
      ∀ e, ioutil_ReadDir dir (world st) = inl e →
        result_of r1 = inr (Some ("cdb: " +:+ e)) ∧
        trace_of r1 = [EvReadDir dir]) ∧
     (GetString (viper st) "cdb.path" ≠ "" →
      ∀ names, ioutil_ReadDir dir (world st) = inr names →
        (result_of r1 = inr None ↔
         ∀ n, n ∈ site_files names → ∃ s, load_of st n = inr s) ∧
        (∀ e, result_of r1 = inr (Some e) →
           ∃ n, n ∈ site_files names ∧ load_of st n = inl e) ∧
        (result_of r1 = inr None → populated names st st1)))
  ∧ initOnce c1 = true
  ∧ result_of r1 = inr (initError c1)
  ∧ ensureSitesCacheLoaded st1 = (result_of r1, st1, [])
  ∧ (∀ cs, Forall (λ e, is_read e = false) (trace_of (run_calls cs st1)) ∧
           sitesCache (state_of (run_calls cs st1)) = c1)
  ∧ (∀ st2, sitesCache st2 = c1 →
       ensureSitesCacheLoaded st2 = (result_of r1, st2, []) ∧
       GetAllSites st2 =
         (match initError c1 with
          | Some e => inl e | None => inr (slice c1) end, st2, []) ∧
       (∀ id, GetSiteById id st2 =
         (match initError c1 with
          | Some e => inl e | None => inr (byId c1 !! id) end, st2, [])) ∧
       (∀ n, GetSiteByName n st2 =
         (match initError c1 with
          | Some e => inl e | None => inr (byName c1 !! n) end, st2, [])) ∧
       (∀ opts,
          Forall (λ e, is_read e = false) (trace_of (CommitSites opts st2)) ∧
          sitesCache (state_of (CommitSites opts st2)) = c1 ∧
          (∀ e, initError c1 = Some e → CommitSites opts st2 = (inl e, st2, [])))).
Proof.
  intros r1 st1 c1 dir.
  destruct (ensure_post st) as [Hd1 Hr1]. fold r1 st1 c1 in Hd1, Hr1.
  split_and!.
  - intros Hd i.
    destruct (initSitesCache_cases st) as (I1&I2&I3). fold i dir in I1, I2, I3.
    assert (r1 = (inr (match result_of i with
                       | inl e => Some e | inr _ => None end),
                  set_sitesCache
                    (mkCache (byId (sitesCache (state_of i)))
                             (byName (sitesCache (state_of i))) true
                             (match result_of i with
                              | inl e => Some e | inr _ => None end)
                             (slice (sitesCache (state_of i)))) (state_of i),
                  trace_of i)) as Er1 by apply (ensure_fresh st Hd).
    assert (trace_of r1 = trace_of i) as Et by (by rewrite Er1).
    assert (result_of r1 =
            inr (match result_of i with inl e => Some e | inr _ => None end))
      as Er by (by rewrite Er1).
    assert (byId c1 = byId (sitesCache (state_of i))) as Eid
      by (unfold c1, st1; by rewrite Er1).
    assert (byName c1 = byName (sitesCache (state_of i))) as Ename
      by (unfold c1, st1; by rewrite Er1).
    assert (slice c1 = slice (sitesCache (state_of i))) as Eslice
      by (unfold c1, st1; by rewrite Er1).
    assert (heap st1 = heap (state_of i)) as Eheap
      by (unfold st1; by rewrite Er1).
    rewrite Et, Er.
    split_and!; try done.
    + intros Hp. destruct (I1 Hp) as [-> ->]. done.
    + intros Hp e He. destruct (I2 Hp e He) as [-> ->]. done.
    + intros Hp names Hn. destruct (I3 Hp names Hn) as (J1&J2&J3).
      split_and!.
      * rewrite <-J1. destruct (result_of i) as [e|[]]; split; done.
      * intros e He. apply J2.
        destruct (result_of i) as [e'|[]]; by simplify_eq.
      * intros Hr.
        assert (result_of i = inr tt) as Hi
          by (destruct (result_of i) as [e'|[]]; by simplify_eq).
        specialize (J3 Hi). unfold populated, cache_holds in *.
        fold c1. rewrite Eid, Ename, Eslice, Eheap. exact J3.
  - done.
  - done.
  - rewrite Hr1. by apply ensure_loaded.
  - intros cs. by apply run_calls_loaded.
  - intros st2 Hc. rewrite Hr1.
    assert (initOnce (sitesCache st2) = true) as Hd2 by (by rewrite Hc).
    rewrite <-Hc. split_and!.
    + by apply ensure_loaded.
    + by apply GetAllSites_loaded.
    + intros id. by apply GetSiteById_loaded.
    + intros n. by apply GetSiteByName_loaded.
    + intros opts. by apply CommitSites_loaded.
Qed.

End first_load.

Lemma store_initialized_once_witness :
  initOnce (sitesCache sim_st0) = false ∧
  trace_of (ensureSitesCacheLoaded sim_st0) = trace_of (initSitesCache sim_st0) ∧
  result_of (ensureSitesCacheLoaded sim_st0) = inr None ∧
  populated ["club.yaml"; "README"] sim_st0
            (state_of (ensureSitesCacheLoaded sim_st0)).
Proof.
  assert (initOnce (sitesCache sim_st0) = false) as Hd by reflexivity.
  split; [exact Hd|].
  destruct (proj1 (store_initialized_once sim_st0) Hd)
    as (Ht&_&_&_&_&_&_&Hload).
  split; [exact Ht|].
  destruct (Hload ltac:(discriminate) ["club.yaml"; "README"] eq_refl)
    as (Hok&_&Hpop).
  assert (result_of (ensureSitesCacheLoaded sim_st0) = inr None) as Hr.
  { apply Hok. intros n Hn. vm_compute in Hn.
    apply list_elem_of_singleton in Hn as ->.
    eexists. vm_compute. reflexivity. }
  split; [exact Hr|exact (Hpop Hr)].
Defined.

(* ------------------------------------------------------------------------- *)
(** ** The mail worker in a sync run *)
(* ------------------------------------------------------------------------- *)

Section worker_facts.
Context {W : Type} `{External W}.
Implicit Types (st : @St W) (a : newerpol.AccessRecord).

Lemma finishGrants_no_worker opts se grants :
  obeys (λ _ e, e ≠ EvStartWorker ∧ e ≠ EvShutdownWorker ∧
                (se = false → is_enqueue e = false))
        (λ _ : @St W, tt) (finishGrants opts se grants).
Proof.
  induction grants as [|a grants IH]; simpl; [obeys_auto|].
  obeys_step; [|apply IH].
  destruct (dryRun opts); [obeys_auto|].
  obeys_step.
  { apply obeys_try. eapply obeys_weaken; [|apply FinishGrant_obeys].
    by intros _ ? (?&?&?&->). }
  destruct a0 as [e|updated]; [obeys_auto|].
  obeys_step; [obeys_auto|].
  destruct updated, se; simpl; try obeys_auto.
  eapply obeys_weaken; [|apply notify_steps].
  intros _ [] [?|?]; done.
Qed.

Lemma sync_before_finish_no_worker opts st :
  let m := (r ← syncApply; syncCommit opts r.1 ;; mret r.2) in
  Forall (λ e, e ≠ EvStartWorker ∧ e ≠ EvShutdownWorker ∧
               is_enqueue e = false) (trace_of (m st)) ∧
  worker_started (state_of (m st)) = worker_started st.
Proof.
  cbv zeta.
  assert (obeys (λ _ e, e ≠ EvStartWorker ∧ e ≠ EvShutdownWorker ∧
                        is_enqueue e = false) worker_started
                (r ← syncApply; syncCommit opts r.1 ;; mret r.2)) as Hob.
  { obeys_step.
    - intros st0.
      destruct (syncApply_obeys st0) as [Ht _].
      destruct (syncApply_frame worker_started (λ _ _, eq_refl)
                  (λ _ _, eq_refl) st0) as [_ Hf].
      split; [|done]. eapply Forall_impl; [exact Ht|]. by intros [].
    - obeys_step; [|obeys_auto].
      unfold syncCommit. obeys_auto. unfold CommitSites. obeys_step.
      + eapply obeys_weaken; [|by apply commitStage_obeys].
        intros _ [] ?; simpl in *; intuition discriminate.
      + eapply obeys_weaken; [|by apply commitFinish_obeys].
        intros _ e [?|[_ [[-> _]|[cfg ->]]]]; [|done..]. by destruct e. }
  apply Hob.
Qed.

(** What the last part of a sync run does with the worker, when the worker
    is not running at its start. *)
Lemma syncFinish_worker opts grants st :
  worker_started st = false →
  let r := syncFinish opts grants st in
  Forall (λ e, is_enqueue e = false ∧ e ≠ EvStartWorker ∧
               e ≠ EvShutdownWorker) (trace_of r)
  ∨ ∃ tfin tail,
      trace_of r = EvStartWorker :: tfin ++ tail ∧
      Forall (λ e, e ≠ EvStartWorker ∧ e ≠ EvShutdownWorker) tfin ∧
      (tail = [] ∨ tail = [EvShutdownWorker]) ∧
      (result_of r = inr tt → tail = [EvShutdownWorker]).
Proof.
  intros Hw r. unfold r, syncFinish. rewrite bind_run.
  assert (∃ se st0 tS,
    (if negb (dryRun opts) && negb (noEmail opts)
     then r ← StartWorker;
          mret (match r with Some _ => false | None => true end)
     else mret false) st = (inr se, st0, tS) ∧
    (se = false ∧ tS = [] ∨ se = true ∧ tS = [EvStartWorker]))
    as (se&st0&tS&->&Hse).
  { destruct (negb (dryRun opts) && negb (noEmail opts));
      [|by eexists _, _, _; split; [|left]].
    unfold StartWorker, mbind, Go_bind, get, modify, emit, mret, Go_ret.
    rewrite Hw.
    destruct (smtp_Dial (world st)); simpl; eexists _, _, _;
      (split; [done|]); auto. }
  simpl. rewrite bind_run.
  destruct (finishGrants_no_worker opts se grants st0) as [Ht _].
  destruct Hse as [[-> ->]|[-> ->]].
  - left. unfold trace_of in *.
    destruct (finishGrants opts false grants st0) as [[[e|[]] st1] t1];
      simpl in *; rewrite ?app_nil_r;
      (eapply Forall_impl; [exact Ht|]); intros ? (?&?&?); auto.
  - right.
    assert (Forall (λ e, e ≠ EvStartWorker ∧ e ≠ EvShutdownWorker)
                   (trace_of (finishGrants opts true grants st0))) as Ht'.
    { eapply Forall_impl; [exact Ht|]. by intros ? (?&?&_). }
    unfold result_of, trace_of in *.
    destruct (finishGrants opts true grants st0) as [[[e'|[]] st1] t1];
      simpl in *.
    + exists t1, []. rewrite app_nil_r. split_and!; auto. done.
    + exists t1, [EvShutdownWorker]. split_and!; auto.
Qed.

(** The window in which a sync run puts messages on the queue. *)
Lemma doSync_enqueue_window opts st t1 o body t2 :
  worker_started st = false →
  trace_of (doSync opts st) = t1 ++ EvEnqueue o body :: t2 →
  EvStartWorker ∈ t1 ∧ (EvShutdownWorker ∉ t1) ∧
  (result_of (doSync opts st) = inr tt →
   ∃ t2', t2 = t2' ++ [EvShutdownWorker]).
Proof.
  intros Hw.
  assert (doSync opts st =
          ((r ← syncApply; syncCommit opts r.1 ;; mret r.2) ≫=
           syncFinish opts) st) as ->.
  { unfold doSync, mbind, Go_bind, mret, Go_ret.
    destruct (syncApply st) as [[[e|r] st1] ta]; [done|].
    destruct (syncCommit opts r.1 st1) as [[[e|[]] st2] tc]; [done|].
    destruct (syncFinish opts r.2 st2) as [[r3 st3] tf].
    by rewrite app_nil_r, app_assoc. }
  rewrite bind_run.
  destruct (sync_before_finish_no_worker opts st) as [Hpre Hws].
  cbv zeta in Hpre, Hws. unfold result_of, state_of, trace_of in *.
  destruct ((r ← syncApply; syncCommit opts r.1 ;; mret r.2) st)
    as [[[e|gs] st2] tp]; simpl in *.
  { intros ->. apply Forall_app in Hpre as [_ Hpre].
    by apply Forall_cons in Hpre as [(_&_&[=]) _]. }
  rewrite Hw in Hws.
  intros Heq.
  apply (split_after (λ e, is_enqueue e = true)) in Heq as (t1'&->&Heq);
    [| |done].
  2:{ eapply Forall_impl; [exact Hpre|]. intros ? (_&_&->). done. }
  destruct (syncFinish_worker opts gs st2 Hws) as [Hno|(tfin&tail&Htr&Hfin&Htail&Hres)];
    unfold result_of, trace_of in *.
  { rewrite Heq in Hno. apply Forall_app in Hno as [_ Hno].
    by apply Forall_cons in Hno as [[[=] _] _]. }
  rewrite Htr in Heq.
  destruct t1' as [|x t1'']; [done|]. injection Heq as <- Heq.
  assert (∃ t2', tfin = t1'' ++ EvEnqueue o body :: t2' ∧ t2 = t2' ++ tail)
    as (t2'&->&->).
  { destruct Htail as [->| ->].
    - exists t2. by rewrite !app_nil_r in *.
    - destruct t2 as [|y t2 _] using rev_ind.
      + apply (app_inj_tail tfin t1'') in Heq as [_ [=]].
      + rewrite app_comm_cons, app_assoc in Heq.
        apply app_inj_tail in Heq as [-> ->].
        eexists. split; [done|done]. }
  apply Forall_app in Hfin as [Hfin1 _].
  split_and!.
  - apply elem_of_app. right. by left.
  - intros [Hin|[Hin|Hin]%elem_of_cons]%elem_of_app.
    + rewrite Forall_forall in Hpre. by destruct (Hpre _ Hin) as (_&?&_).
    + done.
    + rewrite Forall_forall in Hfin1. by destruct (Hfin1 _ Hin) as (_&?).
  - intros Hr. rewrite (Hres Hr). eauto.
Qed.

(** The two shapes of a sync run that starts with the worker not running:
    the worker is never started, or it is started once, after the commit,
    and shut down at most once, as the last step. *)
Lemma doSync_worker_shape opts st :
  worker_started st = false →
  let r := doSync opts st in
  Forall (λ e, is_enqueue e = false ∧ e ≠ EvStartWorker ∧
               e ≠ EvShutdownWorker) (trace_of r)
  ∨ ∃ tp tfin tail,
      trace_of r = tp ++ EvStartWorker :: tfin ++ tail ∧
      (tail = [] ∨ tail = [EvShutdownWorker]) ∧
      (result_of r = inr tt → tail = [EvShutdownWorker]).
Proof.
  intros Hw. cbv zeta.
  assert (doSync opts st =
          ((r ← syncApply; syncCommit opts r.1 ;; mret r.2) ≫=
           syncFinish opts) st) as ->.
  { unfold doSync, mbind, Go_bind, mret, Go_ret.
    destruct (syncApply st) as [[[e|r] st1] ta]; [done|].
    destruct (syncCommit opts r.1 st1) as [[[e|[]] st2] tc]; [done|].
    destruct (syncFinish opts r.2 st2) as [[r3 st3] tf].
    by rewrite app_nil_r, app_assoc. }
  rewrite bind_run.
  destruct (sync_before_finish_no_worker opts st) as [Hpre Hws].
  cbv zeta in Hpre, Hws. unfold result_of, state_of, trace_of in *.
  assert (Forall (λ e, is_enqueue e = false ∧ e ≠ EvStartWorker ∧
                       e ≠ EvShutdownWorker)
                 ((r ← syncApply; syncCommit opts r.1 ;; mret r.2) st).2)
    as Hpre'.
  { eapply Forall_impl; [exact Hpre|]. intros ? (?&?&?). auto. }
  destruct ((r ← syncApply; syncCommit opts r.1 ;; mret r.2) st)
    as [[[e|gs] st2] tp]; simpl in *; [by left|].
  rewrite Hw in Hws.
  destruct (syncFinish_worker opts gs st2 Hws)
    as [Hno|(tfin&tail&Htr&_&Htail&Hres)]; unfold result_of, trace_of in *.
  - left. by apply Forall_app.
  - right. exists tp, tfin, tail. by rewrite Htr.
Qed.

(** X30.  A sync run that starts with the mail worker not running puts a
    message on the queue only after it has started the worker and before
    it shuts the worker down.  A run that started the worker and returns
    has the shutdown of the worker as its last step; a run that did not
    start it (a dry run, a run without mail, a failed dial) puts nothing
    on the queue and does not shut the worker down. *)
Theorem doSync_worker opts st :
  worker_started st = false →
  let r := doSync opts st in
  (∀ t1 o body t2, trace_of r = t1 ++ EvEnqueue o body :: t2 →
     EvStartWorker ∈ t1 ∧ (EvShutdownWorker ∉ t1))
  ∧ (EvStartWorker ∈ trace_of r → result_of r = inr tt →
     ∃ t', trace_of r = t' ++ [EvShutdownWorker])
  ∧ ((EvStartWorker ∉ trace_of r) →
     Forall (λ e, is_enqueue e = false ∧ e ≠ EvShutdownWorker) (trace_of r)).
Proof.
  intros Hw r. split_and!.
  - intros t1 o body t2 Heq.
    destruct (doSync_enqueue_window opts st t1 o body t2 Hw Heq) as (?&?&_).
    done.
  - intros Hin Hres.
    destruct (doSync_worker_shape opts st Hw) as [Hno|(tp&tfin&tail&Htr&_&Htail)].
    + rewrite Forall_forall in Hno. by destruct (Hno _ Hin) as (_&?&_).
    + fold r in Htr, Htail. rewrite Htr, (Htail Hres).
      exists (tp ++ EvStartWorker :: tfin).
      by rewrite <-app_assoc, <-app_comm_cons.
  - intros Hnot.
    destruct (doSync_worker_shape opts st Hw) as [Hno|(tp&tfin&tail&Htr&_)].
    + eapply Forall_impl; [exact Hno|]. intros ? (?&?&?). auto.
    + exfalso. apply Hnot. fold r in Htr. rewrite Htr.
      apply elem_of_app. right. by left.
Qed.

End worker_facts.

Lemma doSync_worker_witness :
  ∃ t', trace_of (doSync sync_opts_default sim_sync_st)
        = t' ++ [EvShutdownWorker].
Proof.
  apply (proj1 (proj2 (doSync_worker sync_opts_default sim_sync_st eq_refl))).
  - vm_compute. do 11 apply list_elem_of_further. apply list_elem_of_here.
  - vm_compute. reflexivity.
Defined.
